(** * tint_grass.py: biome colormap sampling, luma tinting, compositing

    A shallow embedding of [src/tint_grass.py] and the properties of its
    three pure functions and of its driver.

    - Python [float] is IEEE 754 binary64 and NumPy [float32] is binary32;
      both are the Standard Library's [spec_float] with the operations of
      [SpecFloat] at precision 53 / 24 (round to nearest, ties to even).
    - A PIL image is a grid (list of rows) of pixels, tagged by its mode.
    - The driver [main] runs in a small state-and-exception monad over a
      world made of a file system and the error stream. *)

From Stdlib Require Import ZArith List String Ascii Bool Lia QArith Qpower Lqa.
From Stdlib Require Import Floats.SpecFloat.
Import ListNotations.

Local Open Scope Z_scope.

(** ** Floating point formats *)

Module F64.
Definition prec : Z := 53.
Definition emax : Z := 1024.
Definition mul := SFmul prec emax.
Definition add := SFadd prec emax.
Definition sub := SFsub prec emax.
Definition div := SFdiv prec emax.
Definition of_Z (z : Z) : spec_float := binary_normalize prec emax z 0 false.
Definition valid := valid_binary prec emax.
(** A decimal literal [n / 10^k], correctly rounded as the Python parser does. *)
Definition of_decimal (n : Z) (k : Z) : spec_float := div (of_Z n) (of_Z (10 ^ k)).
End F64.

Module F32.
Definition prec : Z := 24.
Definition emax : Z := 128.
Definition mul := SFmul prec emax.
Definition add := SFadd prec emax.
Definition div := SFdiv prec emax.
Definition of_Z (z : Z) : spec_float := binary_normalize prec emax z 0 false.
Definition valid := valid_binary prec emax.
(** Conversion of a Python [float] operand to [float32] (C cast, to nearest even). *)
Definition of_f64 (x : spec_float) : spec_float :=
  match x with
  | S754_finite s m e => binary_round prec emax s m e
  | _ => x
  end.
End F32.

(** Python and IEEE comparisons [a < b]; any comparison with NaN is false. *)
Definition flt (a b : spec_float) : bool := SFltb a b.

(** ** Exact values of floats, used to state bounds *)

Definition pow2 (e : Z) : Q := (2 ^ e)%Q.

(** The rational a finite float denotes; 0 for zeros, infinities and NaN. *)
Definition SF2Q (x : spec_float) : Q :=
  match x with
  | S754_finite s m e =>
      ((if s then inject_Z (Zneg m) else inject_Z (Zpos m)) * pow2 e)%Q
  | _ => 0%Q
  end.

(** A float that is [+0] or finite and positive. *)
Definition nonneg (x : spec_float) : bool :=
  match x with
  | S754_zero false | S754_finite false _ _ => true
  | _ => false
  end.

(** ** Vocabulary for the rounding lemmas *)

Definition exact_rec (r : shr_record) : bool := negb (shr_r r) && negb (shr_s r).

Definition is_exact (l : location) : bool :=
  match l with loc_Exact => true | _ => false end.

Inductive round_result (prec emax : Z) (s : bool) (m2 e1 : Z) : spec_float -> Prop :=
| RR_zero : m2 = 0 -> round_result prec emax s m2 e1 (S754_zero s)
| RR_finite m e :
    bounded prec emax m e = true -> e1 <= e -> Zpos m * 2 ^ (e - e1) = m2 ->
    round_result prec emax s m2 e1 (S754_finite s m e)
| RR_inf m e :
    canonical_mantissa prec emax m e = true -> emax - prec < e -> e1 <= e ->
    Zpos m * 2 ^ (e - e1) = m2 ->
    round_result prec emax s m2 e1 (S754_infinity s).

(** A positive finite float of the format: a bound rounding cannot cross. *)
Definition is_bound (prec emax : Z) (F : spec_float) : bool :=
  match F with
  | S754_finite false m e => bounded prec emax m e
  | _ => false
  end.

(** [x] is a non-negative float of the format and its value is at most the
    value of [F]. *)
Definition le_bound (prec emax : Z) (x F : spec_float) : Prop :=
  nonneg x = true /\ valid_binary prec emax x = true /\ (SF2Q x <= SF2Q F)%Q.

(** Rounding to nearest of a ratio of integers, as [binary_round_aux]
    performs it. *)

(** Position of [N / D] between two integers. *)
Definition locq (N D : Z) : location :=
  if N mod D =? 0 then loc_Exact else loc_Inexact (Z.compare (2 * (N mod D)) D).

(** The integer nearest to [N / D], ties to even. *)
Definition RNE (N D : Z) : Z := round_nearest_even (N / D) (locq N D).

(** The rounding record that stands for [N / D]. *)
Definition rec_of (N D : Z) : shr_record := shr_record_of_loc (N / D) (locq N D).

(** The second half of [binary_round_aux]: renormalize and check overflow. *)
Definition round_finish (prec emax : Z) (s : bool) (m2 e1 : Z) : spec_float :=
  let '(mrs'', e'') := shr_fexp prec emax m2 e1 loc_Exact in
  match shr_m mrs'' with
  | Z0 => S754_zero s
  | Zpos m => if e'' <=? emax - prec then S754_finite s m e'' else S754_infinity s
  | _ => S754_nan
  end.

(** ** Python exceptions and results *)

Inductive exn :=
| ValueError
| OverflowError
| IndexError
| UnidentifiedImageError
| FileExistsError
| FileNotFoundError
| NotADirectoryError
| IsADirectoryError
| SystemExit (code : Z).

Inductive res (A : Type) :=
| Ok (a : A)
| Raise (e : exn).
Arguments Ok {A} a.
Arguments Raise {A} e.

Definition res_bind {A B} (r : res A) (k : A -> res B) : res B :=
  match r with
  | Ok a => k a
  | Raise e => Raise e
  end.

Notation "x <~ m ;; k" := (res_bind m (fun x => k))
  (at level 61, m at next level, right associativity).

(** ** Python built-ins on floats *)

(** [min(a, b)]: [b] replaces [a] only when [b < a]. *)
Definition py_min (a b : spec_float) : spec_float := if flt b a then b else a.
(** [max(a, b)]: [b] replaces [a] only when [b > a]. *)
Definition py_max (a b : spec_float) : spec_float := if flt a b then b else a.

(** Nearest integer to [m / 2^k], ties to the even one ([0 <= m], [0 < k]). *)
Definition round_half_even_shift (m k : Z) : Z :=
  let q := m / 2 ^ k in
  let r := m mod 2 ^ k in
  let h := 2 ^ (k - 1) in
  if r <? h then q
  else if h <? r then q + 1
  else if Z.even q then q else q + 1.

(** [round(x)] on a float: an [int], ties to even; NaN and infinities raise. *)
Definition py_round (x : spec_float) : res Z :=
  match x with
  | S754_zero _ => Ok 0
  | S754_nan => Raise ValueError
  | S754_infinity _ => Raise OverflowError
  | S754_finite s m e =>
      let a := match e with
               | Z0 => Zpos m
               | Zpos _ => Zpos m * 2 ^ e
               | Zneg k => round_half_even_shift (Zpos m) (Zpos k)
               end in
      Ok (if s then - a else a)
  end.

(** ** Decimal formatting: [f"{x:.Nf}"], [str(int)], [rstrip] *)

Definition digit_char (d : Z) : ascii := ascii_of_nat (48 + Z.to_nat d).

Fixpoint digits_fuel (fuel : nat) (n : Z) (acc : string) : string :=
  match fuel with
  | O => acc
  | S fuel' =>
      let acc' := String (digit_char (n mod 10)) acc in
      if n / 10 =? 0 then acc' else digits_fuel fuel' (n / 10) acc'
  end.

(** Decimal digits of a natural number [0 <= n]. *)
Definition str_nat (n : Z) : string :=
  digits_fuel (S (Z.to_nat (Z.log2 n))) n EmptyString.

(** [str(n)] for an [int]. *)
Definition str_int (n : Z) : string :=
  if n <? 0 then String "-"%char (str_nat (- n)) else str_nat n.

Fixpoint zeros (n : nat) : string :=
  match n with
  | O => EmptyString
  | S n' => String "0"%char (zeros n')
  end.

(** Left-pad with ['0'] up to [width] characters. *)
Definition zero_pad (width : nat) (s : string) : string :=
  (zeros (width - String.length s) ++ s)%string.

(** Nearest integer to the exact value of [m * 2^e * 10^nd], ties to even. *)
Definition scaled_round (m : positive) (e : Z) (nd : Z) : Z :=
  match e with
  | Zneg k => round_half_even_shift (Zpos m * 10 ^ nd) (Zpos k)
  | _ => Zpos m * 2 ^ e * 10 ^ nd
  end.

(** [f"{x:.{nd}f}"]: fixed notation, correctly rounded from the exact value. *)
Definition format_fixed (nd : nat) (x : spec_float) : string :=
  let body (n : Z) : string :=
    let ip := str_nat (n / 10 ^ Z.of_nat nd) in
    match nd with
    | O => ip
    | _ => (ip ++ "." ++ zero_pad nd (str_nat (n mod 10 ^ Z.of_nat nd)))%string
    end in
  let sign (s : bool) : string := if s then "-"%string else EmptyString in
  match x with
  | S754_nan => "nan"%string
  | S754_infinity s => (if s then "-inf" else "inf")%string
  | S754_zero s => (sign s ++ body 0)%string
  | S754_finite s m e => (sign s ++ body (scaled_round m e (Z.of_nat nd)))%string
  end.

Fixpoint rstrip (c : ascii) (s : string) : string :=
  match s with
  | EmptyString => EmptyString
  | String a rest =>
      match rstrip c rest with
      | EmptyString => if Ascii.eqb a c then EmptyString else String a EmptyString
      | rest' => String a rest'
      end
  end.

(** [f"{x:.2f}".rstrip("0").rstrip(".")], the number as it appears in a file name. *)
Definition fmt_param (x : spec_float) : string :=
  rstrip "."%char (rstrip "0"%char (format_fixed 2 x)).

(** ** Images *)

Definition grid (A : Type) := list (list A).

Definition color := (Z * Z * Z)%type.

Record pixel := mk_pixel { red : Z; green : Z; blue : Z; alpha : Z }.

(** A PIL image of one of the modes the tool meets; channels are 8-bit values. *)
Inductive image :=
| ImgL (g : grid Z)
| ImgLA (g : grid (Z * Z))
| ImgRGB (g : grid color)
| ImgRGBA (g : grid pixel).

Definition height {A} (g : grid A) : nat := List.length g.
Definition width {A} (g : grid A) : nat := List.length (hd [] g).
(** PIL's [size]: (width, height). *)
Definition size {A} (g : grid A) : nat * nat := (width g, height g).

Definition size_eqb (a b : nat * nat) : bool :=
  (Nat.eqb (fst a) (fst b) && Nat.eqb (snd a) (snd b))%bool.

Definition grid_map {A B} (f : A -> B) (g : grid A) : grid B := map (map f) g.

(** [img.convert("RGBA")]: gray levels are replicated, a missing alpha is 255. *)
Definition convert_RGBA (img : image) : grid pixel :=
  match img with
  | ImgL g => grid_map (fun l => mk_pixel l l l 255) g
  | ImgLA g => grid_map (fun la => mk_pixel (fst la) (fst la) (fst la) (snd la)) g
  | ImgRGB g => grid_map (fun p => let '(r, g0, b) := p in mk_pixel r g0 b 255) g
  | ImgRGBA g => g
  end.

(** [img.convert("RGB")]: alpha is dropped. *)
Definition convert_RGB (img : image) : grid color :=
  match img with
  | ImgL g => grid_map (fun l => (l, l, l)) g
  | ImgLA g => grid_map (fun la => (fst la, fst la, fst la)) g
  | ImgRGB g => g
  | ImgRGBA g => grid_map (fun p => (red p, green p, blue p)) g
  end.

(** NumPy indexing along one axis of length [len]: negative indices count
    from the end, anything else out of range raises [IndexError]. *)
Definition np_index (len : nat) (i : Z) : res nat :=
  if (0 <=? i) && (i <? Z.of_nat len) then Ok (Z.to_nat i)
  else if (- Z.of_nat len <=? i) && (i <? 0) then Ok (Z.to_nat (Z.of_nat len + i))
  else Raise IndexError.

(** [arr[y, x]] on an (H, W, ...) array. *)
Definition np_getitem {A} (g : grid A) (y x : Z) : res A :=
  row <~ np_index (height g) y ;;
  match nth_error g row with
  | None => Raise IndexError
  | Some r =>
      col <~ np_index (List.length r) x ;;
      match nth_error r col with
      | None => Raise IndexError
      | Some p => Ok p
      end
  end.

(** The shape [main] requires of the colormap: 256 rows of 256 pixels. *)
Definition is_256x256 {A} (g : grid A) : bool :=
  Nat.eqb (height g) 256 && forallb (fun row => Nat.eqb (List.length row) 256) g.

(** ** Color sampler *)

Definition f0 : spec_float := S754_zero false.
Definition f1 : spec_float := F64.of_Z 1.
Definition f255 : spec_float := F64.of_Z 255.

Definition clamp01 (x : spec_float) : spec_float :=
  py_max f0 (py_min f1 x).

Definition clamp255 (v : Z) : Z := Z.max 0 (Z.min 255 v).

Definition sample_biome_color (colormap_img : image) (temperature downfall : spec_float)
  : res color :=
  let t := clamp01 temperature in
  let d := clamp01 downfall in
  let d_proj := F64.mul d t in
  x_img <~ py_round (F64.sub f255 (F64.mul t f255)) ;;
  y_img <~ py_round (F64.sub f255 (F64.mul d_proj f255)) ;;
  let x_img := clamp255 x_img in
  let y_img := clamp255 y_img in
  let cmap_np := convert_RGB colormap_img in
  np_getitem cmap_np y_img x_img.

(** The values of lines 20-26 by name: the clamped temperature, the
    projected downfall and the two rounded coordinates before the clamp. *)
Definition t_clamped (temperature : spec_float) : spec_float := clamp01 temperature.
Definition d_proj (temperature downfall : spec_float) : spec_float :=
  F64.mul (clamp01 downfall) (clamp01 temperature).
Definition x_raw (temperature : spec_float) : res Z :=
  py_round (F64.sub f255 (F64.mul (t_clamped temperature) f255)).
Definition y_raw (temperature downfall : spec_float) : res Z :=
  py_round (F64.sub f255 (F64.mul (d_proj temperature downfall) f255)).

Definition transparent : pixel := mk_pixel 0 0 0 0.

Fixpoint zip_with {A B C} (f : A -> B -> C) (l1 : list A) (l2 : list B) : list C :=
  match l1, l2 with
  | a :: l1', b :: l2' => f a b :: zip_with f l1' l2'
  | _, _ => []
  end.

(** ** Luma tinter *)

Definition k299 : spec_float := F32.of_f64 (F64.of_decimal 299 3).
Definition k587 : spec_float := F32.of_f64 (F64.of_decimal 587 3).
Definition k114 : spec_float := F32.of_f64 (F64.of_decimal 114 3).
Definition g0 : spec_float := S754_zero false.
Definition g1 : spec_float := F32.of_Z 1.
Definition g255 : spec_float := F32.of_Z 255.

(** [np.clip(x, lo, hi)]: NaN is kept, otherwise [min(max(x, lo), hi)]. *)
Definition np_clip (x lo hi : spec_float) : spec_float :=
  match x with
  | S754_nan => S754_nan
  | _ => let m := if flt lo x then x else lo in
         if flt m hi then m else hi
  end.

(** [astype(np.uint8)] on a [float32]: the fraction is dropped, the integer
    is reduced modulo 256. *)
Definition to_uint8 (x : spec_float) : Z :=
  match x with
  | S754_finite s m e =>
      let a := match e with
               | Z0 => Zpos m
               | Zpos _ => Zpos m * 2 ^ e
               | Zneg k => Zpos m / 2 ^ Zpos k
               end in
      (if s then - a else a) mod 256
  | _ => 0
  end.

Definition f32x3 := (spec_float * spec_float * spec_float)%type.

(** Rec.601 luma of one pixel in [float32], summed left to right (line 44). *)
Definition luma601 (c : f32x3) : spec_float :=
  let '(r, g, b) := c in
  F32.add (F32.add (F32.mul k299 r) (F32.mul k587 g)) (F32.mul k114 b).

(** [concatenate([tinted_rgb, a], axis=-1)] on (H, W, 3) and (H, W, 1). *)
Definition concat_alpha (tinted_rgb : grid color) (a : grid Z) : grid pixel :=
  zip_with (zip_with (fun (c : color) al => let '(r, g, b) := c in mk_pixel r g b al))
           tinted_rgb a.

(** Lines 38-52, array by array; the operations are elementwise. *)
Definition tint_grayscale_rgba (img : image) (biome_rgb : color) : grid pixel :=
  let rgba := convert_RGBA img in
  let arr := rgba in
  let rgb : grid f32x3 :=
    grid_map (fun p => (F32.of_Z (red p), F32.of_Z (green p), F32.of_Z (blue p))) arr in
  let a := grid_map alpha arr in
  let lum := grid_map luma601 rgb in
  let lum_norm := grid_map (fun l => F32.div l g255) lum in
  let biome : f32x3 :=
    let '(cr, cg, cb) := biome_rgb in
    (F32.div (F32.of_Z cr) g255, F32.div (F32.of_Z cg) g255, F32.div (F32.of_Z cb) g255) in
  let tinted_rgb : grid f32x3 :=
    grid_map (fun ln => let '(br, bg, bb) := biome in
                        (F32.mul (np_clip (F32.mul ln br) g0 g1) g255,
                         F32.mul (np_clip (F32.mul ln bg) g0 g1) g255,
                         F32.mul (np_clip (F32.mul ln bb) g0 g1) g255)) lum_norm in
  let tinted_rgb : grid color :=
    grid_map (fun c : f32x3 => let '(r, g, b) := c in (to_uint8 r, to_uint8 g, to_uint8 b))
             tinted_rgb in
  let out := concat_alpha tinted_rgb a in
  out.

(** The same computation seen from one pixel: its luma, its normalized
    luma, one tinted channel, the tinted pixel. *)
Definition pixel_lum (r g b : Z) : spec_float :=
  luma601 (F32.of_Z r, F32.of_Z g, F32.of_Z b).

Definition pixel_lum_norm (r g b : Z) : spec_float := F32.div (pixel_lum r g b) g255.

Definition tint_channel (ln : spec_float) (c : Z) : Z :=
  let biome := F32.div (F32.of_Z c) g255 in
  to_uint8 (F32.mul (np_clip (F32.mul ln biome) g0 g1) g255).

Definition tint_pixel (biome_rgb : color) (p : pixel) : pixel :=
  let '(cr, cg, cb) := biome_rgb in
  let ln := pixel_lum_norm (red p) (green p) (blue p) in
  mk_pixel (tint_channel ln cr) (tint_channel ln cg) (tint_channel ln cb) (alpha p).

(** Bounds used to follow the tinter through its [float32] operations:
    76.25, 149.75 and 29.125 for the three weighted channels, 226 and 255.125
    for the partial and full luma, 1 + 2^-10 for the normalized luma. *)
Definition B_r : spec_float := binary_normalize F32.prec F32.emax 305 (-2) false.
Definition B_g : spec_float := binary_normalize F32.prec F32.emax 599 (-2) false.
Definition B_b : spec_float := binary_normalize F32.prec F32.emax 233 (-3) false.
Definition B_rg : spec_float := F32.of_Z 226.
Definition B_lum : spec_float := binary_normalize F32.prec F32.emax 2041 (-3) false.
Definition B_ln : spec_float := binary_normalize F32.prec F32.emax 1025 (-10) false.
(** For a tint channel [c]: about (c + 1/2) / 255 for the clipped product,
    c + 3/4 for the product scaled back to 8 bits. *)
Definition B_prod (c : Z) : spec_float := F32.div (F32.of_Z (2 * c + 1)) (F32.of_Z 510).
Definition B_scaled (c : Z) : spec_float := binary_normalize F32.prec F32.emax (4 * c + 3) (-2) false.

(** The facts about one tint channel value that are settled by evaluation. *)
Definition channel_check (c : Z) : bool :=
  let bn := F32.div (F32.of_Z c) g255 in
  nonneg bn && F32.valid bn
  && is_bound F32.prec F32.emax (B_prod c) && is_bound F32.prec F32.emax (B_scaled c)
  && Qle_bool (SF2Q B_ln * SF2Q bn) (SF2Q (B_prod c))
  && Qle_bool (SF2Q (B_prod c) * 255) (SF2Q (B_scaled c))
  && Qle_bool (SF2Q (B_scaled c)) (inject_Z c + (3 # 4)).

Definition Zrange (n : nat) : list Z := map Z.of_nat (seq 0 n).

(** For a gray pixel of level [v], every tint channel [c] of 0..255 comes
    out as the integer part of [v * c / 255] or one less. *)
Definition gray_check (v : Z) : bool :=
  let ln := pixel_lum_norm v v v in
  forallb (fun c => let o := tint_channel ln c in
                    (v * c / 255 - 1 <=? o) && (o <=? v * c / 255))
          (Zrange 256).

Definition channel_8bit (v : Z) : bool := (0 <=? v) && (v <=? 255).
Definition pixel_8bit (p : pixel) : bool :=
  channel_8bit (red p) && channel_8bit (green p) && channel_8bit (blue p)
  && channel_8bit (alpha p).
Definition rgb_8bit (c : color) : bool :=
  let '(r, g, b) := c in channel_8bit r && channel_8bit g && channel_8bit b.
Definition grid_8bit (g : grid pixel) : bool := forallb (forallb pixel_8bit) g.

(** The pixel at row [y], column [x]. *)
Definition pixel_at {A} (g : grid A) (y x : nat) : option A :=
  match nth_error g y with
  | Some row => nth_error row x
  | None => None
  end.

Definition image_size (img : image) : nat * nat :=
  match img with
  | ImgL g => size g
  | ImgLA g => size g
  | ImgRGB g => size g
  | ImgRGBA g => size g
  end.

Definition white_pixel (p : pixel) : Prop := red p = 255 /\ green p = 255 /\ blue p = 255.

(** ** Compositor

    [Image.resize(..., NEAREST)] and [Image.alpha_composite] are Pillow's:
    the source index chosen by nearest-neighbour sampling and the "over"
    blend of two pixels are parameters of the model. What the two calls
    accept is modelled: [resize] refuses a target without pixels,
    [alpha_composite] refuses a source that is not RGBA or not of the
    destination's size; both raise [ValueError]. *)

Section Compositor.
(** [nearest_src n_in n_out i]: source index for output index [i]. *)
Variable nearest_src : nat -> nat -> nat -> nat.
(** [over dst src]: [src] blended over [dst]. *)
Variable over : pixel -> pixel -> pixel.

(** The pixels of a nearest-neighbour resize: each one is a copy of one
    source pixel; an index outside the source gives [fill]. *)
Definition resize_grid {A} (fill : A) (g : grid A) (sz : nat * nat) : grid A :=
  let '(w, h) := sz in
  map (fun y =>
         let row := nth (nearest_src (height g) h y) g [] in
         map (fun x => nth (nearest_src (width g) w x) row fill) (seq 0 w))
      (seq 0 h).

(** [im.resize(size, Image.NEAREST)]: an image that already has the size is
    copied, a size without pixels is refused, the mode is kept. *)
Definition resize_nearest (im : image) (sz : nat * nat) : res image :=
  if size_eqb (image_size im) sz then Ok im
  else if (fst sz <? 1)%nat || (snd sz <? 1)%nat then Raise ValueError
  else Ok (match im with
           | ImgL g => ImgL (resize_grid 0 g sz)
           | ImgLA g => ImgLA (resize_grid (0, 0) g sz)
           | ImgRGB g => ImgRGB (resize_grid (0, 0, 0) g sz)
           | ImgRGBA g => ImgRGBA (resize_grid transparent g sz)
           end).

(** [Image.alpha_composite(dst, src)] on an RGBA [dst]: [src] must be RGBA
    and of the same size. *)
Definition alpha_composite (dst : grid pixel) (src : image) : res (grid pixel) :=
  match src with
  | ImgRGBA s =>
      if size_eqb (size dst) (size s)
      then Ok (zip_with (zip_with over) dst s)
      else Raise ValueError
  | _ => Raise ValueError
  end.

Definition composite_overlay_onto_base (base : image) (overlay_rgba : image)
  : res (grid pixel) :=
  let base_rgba := convert_RGBA base in
  overlay_rgba <~ (if negb (size_eqb (image_size overlay_rgba) (size base_rgba))
                   then resize_nearest overlay_rgba (size base_rgba)
                   else Ok overlay_rgba) ;;
  alpha_composite base_rgba overlay_rgba.
End Compositor.

(** ** Pipeline driver *)

Inductive file :=
| FImage (img : image)
| FOther.

(** The part of the world [main] touches: regular files by path, directories,
    and the lines printed to the error stream (latest first). *)
Record world := mk_world {
  files : list (string * file);
  dirs : list string;
  stderr : list string
}.

Definition M (A : Type) := world -> res A * world.

Definition ret {A} (a : A) : M A := fun w => (Ok a, w).
Definition bind {A B} (m : M A) (k : A -> M B) : M B :=
  fun w => match m w with
           | (Ok a, w') => k a w'
           | (Raise e, w') => (Raise e, w')
           end.
Definition raise {A} (e : exn) : M A := fun w => (Raise e, w).
Definition lift {A} (r : res A) : M A := fun w => (r, w).

Notation "x <- m ;; k" := (bind m (fun x => k))
  (at level 61, m at next level, right associativity).
Notation "m ;;; k" := (bind m (fun _ => k))
  (at level 61, right associativity).

Fixpoint lookup_file (path : string) (fs : list (string * file)) : option file :=
  match fs with
  | [] => None
  | (p, f) :: fs' => if String.eqb p path then Some f else lookup_file path fs'
  end.

Definition file_exists (w : world) (path : string) : bool :=
  match lookup_file path (files w) with Some _ => true | None => false end.

(** [os.path.isfile(path)] *)
Definition isfile (path : string) : M bool := fun w => (Ok (file_exists w path), w).

(** The world after one more line on the error stream. *)
Definition with_err (msg : string) (w : world) : world :=
  mk_world (files w) (dirs w) (msg :: stderr w).

(** [print(msg, file=sys.stderr)] *)
Definition eprint (msg : string) : M unit :=
  fun w => (Ok tt, with_err msg w).

(** [sys.exit(code)] *)
Definition sys_exit {A} (code : Z) : M A := raise (SystemExit code).

(** [Image.open(path)] followed by decoding. *)
Definition image_open (path : string) : M image :=
  fun w => match lookup_file path (files w) with
           | Some (FImage img) => (Ok img, w)
           | Some FOther => (Raise UnidentifiedImageError, w)
           | None => (Raise FileNotFoundError, w)
           end.

Definition dir_exists (w : world) (d : string) : bool :=
  existsb (String.eqb d) (dirs w).

(** The directory part of a path: what precedes its last ["/"]; [None] for
    a bare file name (the current directory). Paths are taken as spelled. *)
Fixpoint parent_dir (path : string) : option string :=
  match path with
  | EmptyString => None
  | String c rest =>
      match parent_dir rest with
      | Some d => Some (String c d)
      | None => if Ascii.eqb c "/"%char then Some EmptyString else None
      end
  end.

(** [open(path, "w+b")]: the outcome of creating the file. *)
Definition create_error (path : string) (w : world) : option exn :=
  if String.eqb path EmptyString then Some FileNotFoundError
  else if dir_exists w path then Some IsADirectoryError
  else match parent_dir path with
       | None => None
       | Some d =>
           if String.eqb d EmptyString || dir_exists w d then None
           else if file_exists w d then Some NotADirectoryError
           else Some FileNotFoundError
       end.

(** [img.save(path, format="PNG")]: the file is created in a directory that
    exists, or the call raises and writes nothing. *)
Definition image_save (path : string) (g : grid pixel) : M unit :=
  fun w => match create_error path w with
           | Some e => (Raise e, w)
           | None => (Ok tt, mk_world ((path, FImage (ImgRGBA g)) :: files w) (dirs w) (stderr w))
           end.

(** [os.makedirs(d, exist_ok=True)] *)
Definition makedirs (d : string) : M unit :=
  fun w => match lookup_file d (files w) with
           | Some _ => (Raise FileExistsError, w)
           | None => (Ok tt, mk_world (files w)
                                      (if existsb (String.eqb d) (dirs w) then dirs w else d :: dirs w)
                                      (stderr w))
           end.

Record arguments := mk_args {
  top : string;
  side_overlay : string;
  side_base : string;
  colormap : string;
  temperature : spec_float;
  downfall : spec_float;
  out_top : option string;
  out_side : option string
}.

(** [a or b] on an optional path: [None] and the empty string are falsy. *)
Definition or_default (a : option string) (b : string) : string :=
  match a with
  | Some s => if String.eqb s EmptyString then b else s
  | None => b
  end.

Definition str_size (sz : nat * nat) : string :=
  ("(" ++ str_int (Z.of_nat (fst sz)) ++ ", " ++ str_int (Z.of_nat (snd sz)) ++ ")")%string.

Definition str_rgb (c : color) : string :=
  let '(r, g, b) := c in
  ("(" ++ str_int r ++ ", " ++ str_int g ++ ", " ++ str_int b ++ ")")%string.

(** Lines 78-81: the first missing input ends the run. *)
Fixpoint check_inputs (paths : list string) : M unit :=
  match paths with
  | [] => ret tt
  | path :: rest =>
      ok <- isfile path ;;
      (if ok then ret tt
       else eprint ("Error: file not found: " ++ path)%string ;;; sys_exit 1) ;;;
      check_inputs rest
  end.

(** Line 78: the four inputs, in the order they are checked. *)
Definition input_paths (a : arguments) : list string :=
  [top a; side_overlay a; side_base a; colormap a].

(** Some input path does not name a file. *)
Definition missing_input (a : arguments) (w : world) : bool :=
  negb (forallb (file_exists w) (input_paths a)).

(** The colormap file decodes to an image of exactly 256x256. *)
Definition colormap_ok (a : arguments) (w : world) : bool :=
  match lookup_file (colormap a) (files w) with
  | Some (FImage img) => size_eqb (size (convert_RGB img)) (256, 256)%nat
  | _ => false
  end.

Definition suffix (a : arguments) : string :=
  (fmt_param (temperature a) ++ "_" ++ fmt_param (downfall a))%string.

Definition out_dir : string := "out"%string.

(** [os.path.join(out_dir, name)] *)
Definition path_join (d name : string) : string := (d ++ "/" ++ name)%string.

(** Lines 102 and 111: the output paths, defaulted from the parameters. *)
Definition out_top_path (a : arguments) : string :=
  or_default (out_top a) (path_join out_dir ("grass_block_top_" ++ suffix a ++ ".png"))%string.
Definition out_side_path (a : arguments) : string :=
  or_default (out_side a) (path_join out_dir ("grass_block_side_" ++ suffix a ++ ".png"))%string.

(** The world after [os.makedirs(d, exist_ok=True)] has succeeded. *)
Definition with_dir (d : string) (w : world) : world :=
  mk_world (files w) (if dir_exists w d then dirs w else d :: dirs w) (stderr w).

(** The world after one more file has been written. *)
Definition with_file (path : string) (f : file) (w : world) : world :=
  mk_world ((path, f) :: files w) (dirs w) (stderr w).

(** The three lines of lines 114-116. *)
Definition report (a : arguments) (c : color) : list string :=
  [("Wrote side -> " ++ out_side_path a)%string;
   ("Wrote top  -> " ++ out_top_path a)%string;
   ("Biome RGB: " ++ str_rgb c ++ " (from temp="
      ++ format_fixed 3 (clamp01 (temperature a)) ++ ", downfall="
      ++ format_fixed 3 (clamp01 (downfall a)) ++ ")")%string].

Section Driver.
Variable nearest_src : nat -> nat -> nat -> nat.
Variable over : pixel -> pixel -> pixel.

Definition main (args : arguments) : M unit :=
  check_inputs (input_paths args) ;;;
  cmap0 <- image_open (colormap args) ;;
  let cmap := convert_RGB cmap0 in
  (if negb (size_eqb (size cmap) (256, 256)%nat)
   then eprint ("Error: colormap must be 256x256, got " ++ str_size (size cmap))%string ;;;
        sys_exit 1
   else ret tt) ;;;
  biome_rgb <- lift (sample_biome_color (ImgRGB cmap) (temperature args) (downfall args)) ;;
  makedirs out_dir ;;;
  top_img <- image_open (top args) ;;
  let top_coloured := tint_grayscale_rgba top_img biome_rgb in
  image_save (out_top_path args) top_coloured ;;;
  side_overlay_img <- image_open (side_overlay args) ;;
  let overlay_coloured := tint_grayscale_rgba side_overlay_img biome_rgb in
  side_base_img <- image_open (side_base args) ;;
  side_coloured <- lift (composite_overlay_onto_base nearest_src over side_base_img
                                                     (ImgRGBA overlay_coloured)) ;;
  image_save (out_side_path args) side_coloured ;;;
  eprint ("Biome RGB: " ++ str_rgb biome_rgb ++ " (from temp="
            ++ format_fixed 3 (clamp01 (temperature args)) ++ ", downfall="
            ++ format_fixed 3 (clamp01 (downfall args)) ++ ")")%string ;;;
  eprint ("Wrote top  -> " ++ out_top_path args)%string ;;;
  eprint ("Wrote side -> " ++ out_side_path args)%string.

(** The process: exit status and final world. An uncaught exception other
    than [SystemExit] prints a traceback and gives status 1. *)
Definition run (args : arguments) (w : world) : Z * world :=
  match main args w with
  | (Ok _, w') => (0, w')
  | (Raise (SystemExit c), w') => (c, w')
  | (Raise _, w') => (1, with_err "Traceback (most recent call last):" w')
  end.
End Driver.

(** ** Inputs used to exercise the model *)

Definition same_index : nat -> nat -> nat -> nat := fun _ _ i => i.
Definition take_src : pixel -> pixel -> pixel := fun _ src => src.
Definition empty_world : world := mk_world [] [] [].
Definition example_args : arguments :=
  mk_args "grass_block_top_512.png" "grass_block_side_overlay_512.png"
          "grass_block_side_512.png" "grass_colourmap.png"
          (F64.of_decimal 80 2) (F64.of_decimal 5 1) None None.
Definition flat_colormap (c : color) : image := ImgRGB (repeat (repeat c 256) 256).
Definition example_world : world :=
  mk_world [("grass_block_top_512.png"%string, FImage (ImgL [[255; 0]; [128; 64]]));
            ("grass_block_side_overlay_512.png"%string,
             FImage (ImgLA [[(255, 255); (200, 0)]]));
            ("grass_block_side_512.png"%string,
             FImage (ImgRGB [[(10, 20, 30); (40, 50, 60)]; [(1, 2, 3); (4, 5, 6)]]));
            ("grass_colourmap.png"%string, FImage (flat_colormap (120, 180, 90)))]
           [] [].

Definition half : spec_float := F64.of_decimal 5 1.

Definition example_base : image :=
  ImgRGB [[(10, 20, 30); (40, 50, 60)]; [(1, 2, 3); (4, 5, 6)]].
Definition example_overlay : grid pixel := [[mk_pixel 9 8 7 255]].

(** Worlds and arguments that make the driver fail after validation. *)
Definition broken_side_world : world :=
  mk_world (("grass_block_side_512.png"%string, FOther) :: files example_world) [] [].
Definition out_file_world : world :=
  mk_world (("out"%string, FOther) :: files example_world) [] [].
Definition small_colormap_world : world :=
  mk_world (("grass_colourmap.png"%string, FImage (ImgL [[1; 2; 3]; [4; 5; 6]]))
              :: files example_world) [] [].
Definition top_only_world : world :=
  mk_world [("grass_block_top_512.png"%string, FImage (ImgL [[255]]))] [] [].
Definition explicit_args : arguments :=
  mk_args "grass_block_top_512.png" "grass_block_side_overlay_512.png"
          "grass_block_side_512.png" "grass_colourmap.png"
          (F64.of_decimal 80 2) (F64.of_decimal 5 1)
          (Some "build/top.png"%string) (Some "side.png"%string).

(** ** Checks of the model on concrete inputs *)

Example fmt_examples :
  fmt_param half = "0.5"%string /\ fmt_param (F64.of_Z 0) = "0"%string
  /\ fmt_param (F64.of_Z 10) = "10"%string
  /\ format_fixed 3 (F64.of_decimal 1 3) = "0.001"%string
  /\ format_fixed 2 (F64.of_decimal 125 3) = "0.12"%string
  /\ format_fixed 2 (F64.of_decimal 2675 3) = "2.67"%string
  /\ format_fixed 2 (SFopp (F64.of_decimal 1 3)) = "-0.00"%string.
Proof. vm_compute. repeat split. Qed.

Example round_examples :
  py_round (F64.of_decimal 5 1) = Ok 0 /\ py_round (F64.of_decimal 15 1) = Ok 2
  /\ py_round (F64.of_decimal 25 1) = Ok 2 /\ py_round (F64.of_decimal 1275 1) = Ok 128
  /\ py_round (SFopp (F64.of_decimal 26 1)) = Ok (-3).
Proof. vm_compute. repeat split. Qed.

Example literal_examples :
  F64.of_decimal 299 3 = S754_finite false 5386305154335113 (-54)
  /\ F64.of_decimal 5 1 = S754_finite false 4503599627370496 (-53)
  /\ F64.of_decimal 80 2 = S754_finite false 7205759403792794 (-53)
  /\ k299 = S754_finite false 10032775 (-25)
  /\ k587 = S754_finite false 9848226 (-24)
  /\ k114 = S754_finite false 15300821 (-27).
Proof. vm_compute. repeat split. Qed.

Example coordinate_examples :
  x_raw (F64.of_decimal 80 2) = Ok 51 /\ y_raw (F64.of_decimal 80 2) (F64.of_decimal 5 1) = Ok 153
  /\ x_raw (F64.of_decimal 333 3) = Ok 170 /\ y_raw (F64.of_decimal 333 3) (F64.of_decimal 999 3) = Ok 170
  /\ x_raw (F64.of_decimal 7 2) = Ok 237 /\ y_raw (F64.of_decimal 7 2) (F64.of_decimal 93 2) = Ok 238
  /\ x_raw (F64.of_decimal 501 3) = Ok 127 /\ y_raw (F64.of_decimal 501 3) (F64.of_decimal 499 3) = Ok 191.
Proof. vm_compute. repeat split. Qed.

Example tint_examples :
  tint_pixel (255, 254, 1) (mk_pixel 255 255 255 9) = mk_pixel 255 254 1 9
  /\ tint_pixel (255, 255, 255) (mk_pixel 0 0 0 9) = mk_pixel 0 0 0 9
  /\ tint_pixel (200, 100, 50) (mk_pixel 254 255 255 9) = mk_pixel 199 99 49 9
  /\ tint_pixel (120, 180, 90) (mk_pixel 128 128 128 9) = mk_pixel 60 90 45 9
  /\ tint_pixel (73, 255, 12) (mk_pixel 17 201 93 9) = mk_pixel 38 133 6 9
  /\ tint_pixel (10, 20, 30) (mk_pixel 200 100 50 9) = mk_pixel 4 9 14 9.
Proof. vm_compute. repeat split. Qed.

Example run_example :
  fst (run same_index take_src example_args example_world) = 0
  /\ map fst (files (snd (run same_index take_src example_args example_world)))
     = ["out/grass_block_side_0.8_0.5.png"; "out/grass_block_top_0.8_0.5.png";
        "grass_block_top_512.png"; "grass_block_side_overlay_512.png";
        "grass_block_side_512.png"; "grass_colourmap.png"]%string
  /\ lookup_file "out/grass_block_top_0.8_0.5.png"
                 (files (snd (run same_index take_src example_args example_world)))
     = Some (FImage (ImgRGBA [[mk_pixel 120 180 90 255; mk_pixel 0 0 0 255];
                              [mk_pixel 60 90 45 255; mk_pixel 30 45 22 255]]))
  /\ run same_index take_src example_args empty_world
     = (1, with_err "Error: file not found: grass_block_top_512.png" empty_world).
Proof. vm_compute. repeat split. Qed.

Example save_examples :
  parent_dir "out/a.png" = Some "out"%string /\ parent_dir "a.png" = None
  /\ parent_dir "a/b/c.png" = Some "a/b"%string
  /\ create_error "a.png" empty_world = None
  /\ create_error "gone/a.png" empty_world = Some FileNotFoundError
  /\ create_error "grass_colourmap.png/a.png" example_world = Some NotADirectoryError
  /\ create_error "out" (mk_world [] ["out"%string] []) = Some IsADirectoryError
  /\ create_error "out/a.png" (mk_world [] ["out"%string] []) = None.
Proof. vm_compute. repeat split. Qed.

Example composite_examples :
  composite_overlay_onto_base same_index take_src example_base (ImgRGBA example_overlay)
  = Ok [[mk_pixel 9 8 7 255; transparent]; [transparent; transparent]]
  /\ composite_overlay_onto_base same_index take_src example_base (ImgL [[255]])
     = Raise ValueError
  /\ composite_overlay_onto_base same_index take_src (ImgRGBA []) (ImgRGBA example_overlay)
     = Raise ValueError
  /\ composite_overlay_onto_base same_index take_src (ImgRGBA []) (ImgRGBA []) = Ok [].
Proof. vm_compute. repeat split. Qed.

(** * Rounding theory for [SpecFloat]

    Bounds that rounding to nearest cannot cross, for every format. *)

Lemma pow2_pos (a : Z) : 0 <= a -> 0 < 2 ^ a.
Proof. intros. apply Z.pow_pos_nonneg; lia. Qed.

Lemma pow2_add (a b : Z) : 0 <= a -> 0 <= b -> 2 ^ (a + b) = 2 ^ a * 2 ^ b.
Proof. intros. apply Z.pow_add_r; lia. Qed.

Lemma pow2_le (a b : Z) : 0 <= a <= b -> 2 ^ a <= 2 ^ b.
Proof. intros. apply Z.pow_le_mono_r; lia. Qed.

Lemma pow2_lt (a b : Z) : 0 <= a < b -> 2 ^ a < 2 ^ b.
Proof. intros. apply Z.pow_lt_mono_r; lia. Qed.

Lemma digits2_pos_bounds (p : positive) :
  2 ^ (Zpos (digits2_pos p) - 1) <= Zpos p < 2 ^ Zpos (digits2_pos p).
Proof.
  induction p as [p IH | p IH |]; simpl digits2_pos.
  - rewrite Pos2Z.inj_succ.
    replace (Z.succ (Zpos (digits2_pos p)) - 1) with ((Zpos (digits2_pos p) - 1) + 1) by lia.
    rewrite pow2_add by lia. rewrite Z.pow_succ_r by lia. lia.
  - rewrite Pos2Z.inj_succ.
    replace (Z.succ (Zpos (digits2_pos p)) - 1) with ((Zpos (digits2_pos p) - 1) + 1) by lia.
    rewrite pow2_add by lia. rewrite Z.pow_succ_r by lia. lia.
  - simpl. lia.
Qed.

Lemma Zdigits2_bounds (m : Z) :
  0 < m -> 0 < Zdigits2 m /\ 2 ^ (Zdigits2 m - 1) <= m < 2 ^ Zdigits2 m.
Proof.
  destruct m as [|p|p]; try lia. intros _. simpl Zdigits2.
  split; [lia | apply digits2_pos_bounds].
Qed.

Lemma Zdigits2_nonneg (m : Z) : 0 <= Zdigits2 m.
Proof. destruct m; simpl; lia. Qed.

Lemma Zdigits2_unique (m d : Z) :
  0 < d -> 2 ^ (d - 1) <= m < 2 ^ d -> Zdigits2 m = d.
Proof.
  intros Hd [H1 H2].
  assert (0 < m) by (pose proof (pow2_pos (d - 1)); lia).
  destruct (Zdigits2_bounds m) as [H0 [H3 H4]]; [assumption|].
  destruct (Z.lt_trichotomy (Zdigits2 m) d) as [L | [E | G]]; [ | assumption | ].
  - assert (2 ^ Zdigits2 m <= 2 ^ (d - 1)) by (apply pow2_le; lia). lia.
  - assert (2 ^ d <= 2 ^ (Zdigits2 m - 1)) by (apply pow2_le; lia). lia.
Qed.

(** One right shift of the rounding record. *)
Lemma shr_1_spec (r : shr_record) :
  0 <= shr_m r ->
  shr_m (shr_1 r) = shr_m r / 2 /\
  exact_rec (shr_1 r) = exact_rec r && (shr_m r mod 2 =? 0).
Proof.
  destruct r as [m r s]. simpl shr_m. intros Hm.
  destruct m as [|p|p]; [ | | lia ].
  - simpl. unfold exact_rec. simpl. destruct r, s; auto.
  - destruct p as [p|p|].
    + unfold shr_1, exact_rec; simpl shr_m; simpl shr_r; simpl shr_s.
      split.
      * rewrite Pos2Z.inj_xI. apply Z.div_unique with (r := 1); lia.
      * replace (Zpos p~1 mod 2) with 1.
        2:{ rewrite Pos2Z.inj_xI. apply Z.mod_unique with (q := Zpos p); lia. }
        destruct r, s; reflexivity.
    + unfold shr_1, exact_rec; simpl shr_m; simpl shr_r; simpl shr_s.
      split.
      * rewrite Pos2Z.inj_xO. apply Z.div_unique with (r := 0); lia.
      * replace (Zpos p~0 mod 2) with 0.
        2:{ rewrite Pos2Z.inj_xO. apply Z.mod_unique with (q := Zpos p); lia. }
        destruct r, s; reflexivity.
    + unfold shr_1, exact_rec; simpl. destruct r, s; auto.
Qed.

Lemma div_pow2_nonneg (m k : Z) : 0 <= m -> 0 <= k -> 0 <= m / 2 ^ k.
Proof. intros. apply Z.div_pos; [lia | apply pow2_pos; lia]. Qed.

(** Divisibility by a product of powers of two, split in two steps. *)
Lemma mod_pow2_split (m a b : Z) :
  0 <= m -> 0 <= a -> 0 <= b ->
  (m mod 2 ^ (a + b) =? 0) = (m mod 2 ^ a =? 0) && ((m / 2 ^ a) mod 2 ^ b =? 0).
Proof.
  intros Hm Ha Hb.
  pose proof (pow2_pos a Ha) as Pa. pose proof (pow2_pos b Hb) as Pb.
  rewrite pow2_add by lia.
  rewrite Z.rem_mul_r by lia.
  pose proof (Z.mod_pos_bound m (2 ^ a) Pa).
  pose proof (Z.mod_pos_bound (m / 2 ^ a) (2 ^ b) Pb).
  destruct (Z.eqb_spec (m mod 2 ^ a) 0) as [E|E];
    destruct (Z.eqb_spec ((m / 2 ^ a) mod 2 ^ b) 0) as [E'|E']; simpl;
    apply Z.eqb_eq || apply Z.eqb_neq; nia.
Qed.

Lemma div_pow2_split (m a b : Z) :
  0 <= a -> 0 <= b -> m / 2 ^ (a + b) = m / 2 ^ a / 2 ^ b.
Proof.
  intros Ha Hb. pose proof (pow2_pos a Ha). pose proof (pow2_pos b Hb).
  rewrite pow2_add by lia. rewrite Z.div_div by lia. reflexivity.
Qed.

Lemma iter_pos_shr (p : positive) : forall r,
  0 <= shr_m r ->
  shr_m (iter_pos shr_1 p r) = shr_m r / 2 ^ Zpos p /\
  exact_rec (iter_pos shr_1 p r) = exact_rec r && (shr_m r mod 2 ^ Zpos p =? 0).
Proof.
  induction p as [p IH | p IH |]; intros r Hr.
  - simpl iter_pos.
    destruct (shr_1_spec r Hr) as [M1 X1].
    assert (H1 : 0 <= shr_m (shr_1 r)) by (rewrite M1; apply Z.div_pos; lia).
    destruct (IH _ H1) as [M2 X2].
    assert (H2 : 0 <= shr_m (iter_pos shr_1 p (shr_1 r)))
      by (rewrite M2; apply div_pow2_nonneg; lia).
    destruct (IH _ H2) as [M3 X3].
    rewrite M3, X3, M2, X2, M1, X1.
    replace (Zpos p~1) with (1 + (Zpos p + Zpos p)) by lia.
    split.
    + rewrite (div_pow2_split _ 1) by lia. rewrite (div_pow2_split _ (Zpos p)) by lia.
      reflexivity.
    + rewrite (mod_pow2_split (shr_m r) 1 (Zpos p + Zpos p)) by lia.
      rewrite (mod_pow2_split (shr_m r / 2 ^ 1) (Zpos p) (Zpos p))
        by (try apply div_pow2_nonneg; lia).
      change (2 ^ 1) with 2. rewrite !andb_assoc. reflexivity.
  - simpl iter_pos.
    destruct (IH _ Hr) as [M2 X2].
    assert (H2 : 0 <= shr_m (iter_pos shr_1 p r))
      by (rewrite M2; apply div_pow2_nonneg; lia).
    destruct (IH _ H2) as [M3 X3].
    rewrite M3, X3, M2, X2.
    replace (Zpos p~0) with (Zpos p + Zpos p) by lia.
    split.
    + rewrite (div_pow2_split _ (Zpos p)) by lia. reflexivity.
    + rewrite (mod_pow2_split (shr_m r) (Zpos p) (Zpos p)) by lia.
      rewrite !andb_assoc. reflexivity.
  - simpl iter_pos. change (2 ^ 1) with 2. apply shr_1_spec; assumption.
Qed.

Lemma Qpow2_pos (e : Z) : (0 < pow2 e)%Q.
Proof. unfold pow2. apply Qpower_0_lt. reflexivity. Qed.

Lemma Qpow2_split (c e : Z) : c <= e -> (pow2 e == pow2 c * inject_Z (2 ^ (e - c)))%Q.
Proof.
  intros H. unfold pow2.
  rewrite Zpower_Qpower by lia.
  replace e with (c + (e - c)) at 1 by lia.
  rewrite Qpower_plus; [reflexivity | discriminate].
Qed.

(** Comparing two dyadic numbers amounts to comparing their integer
    multiples at any common scale [2^c]. *)
Lemma dy_le_iff (c a ea b eb : Z) :
  c <= ea -> c <= eb ->
  (inject_Z a * pow2 ea <= inject_Z b * pow2 eb)%Q <-> a * 2 ^ (ea - c) <= b * 2 ^ (eb - c).
Proof.
  intros Ha Hb.
  rewrite (Qpow2_split c ea Ha), (Qpow2_split c eb Hb).
  rewrite Zle_Qle, !inject_Z_mult.
  pose proof (Qpow2_pos c) as P.
  split; intros H.
  - apply Qmult_le_l with (z := pow2 c); [exact P|].
    setoid_replace (pow2 c * (inject_Z a * inject_Z (2 ^ (ea - c))))%Q
      with (inject_Z a * (pow2 c * inject_Z (2 ^ (ea - c))))%Q by ring.
    setoid_replace (pow2 c * (inject_Z b * inject_Z (2 ^ (eb - c))))%Q
      with (inject_Z b * (pow2 c * inject_Z (2 ^ (eb - c))))%Q by ring.
    exact H.
  - apply Qmult_le_l with (z := pow2 c) in H; [|exact P].
    setoid_replace (inject_Z a * (pow2 c * inject_Z (2 ^ (ea - c))))%Q
      with (pow2 c * (inject_Z a * inject_Z (2 ^ (ea - c))))%Q by ring.
    setoid_replace (inject_Z b * (pow2 c * inject_Z (2 ^ (eb - c))))%Q
      with (pow2 c * (inject_Z b * inject_Z (2 ^ (eb - c))))%Q by ring.
    exact H.
Qed.

Lemma dy_lt_iff (c a ea b eb : Z) :
  c <= ea -> c <= eb ->
  (inject_Z a * pow2 ea < inject_Z b * pow2 eb)%Q <-> a * 2 ^ (ea - c) < b * 2 ^ (eb - c).
Proof.
  intros Ha Hb.
  pose proof (dy_le_iff c b eb a ea Hb Ha) as H.
  split; intros L.
  - apply Z.nle_gt. intros G. apply H in G. apply Qle_not_lt in G. contradiction.
  - apply Qnot_le_lt. intros G. apply H in G. lia.
Qed.

Lemma dy_eq (c a ea b eb : Z) :
  c <= ea -> c <= eb ->
  a * 2 ^ (ea - c) = b * 2 ^ (eb - c) ->
  (inject_Z a * pow2 ea == inject_Z b * pow2 eb)%Q.
Proof.
  intros Ha Hb E. apply Qle_antisym; apply (dy_le_iff c); lia.
Qed.

Section Engine.
Variables prec emax : Z.
Hypothesis Hprec : 0 < prec.
Hypothesis Hemax : prec < emax.

Local Abbreviation fexp := (fexp prec emax).
Local Abbreviation emin := (emin prec emax).

Lemma fexp_mono (a b : Z) : a <= b -> fexp a <= fexp b.
Proof. unfold SpecFloat.fexp. lia. Qed.

Lemma fexp_ge_emin (a : Z) : emin <= fexp a.
Proof. unfold SpecFloat.fexp. lia. Qed.

Lemma emin_neg : emin <= 0.
Proof. unfold SpecFloat.emin. lia. Qed.

Lemma shr_rec_of_loc (m : Z) (l : location) :
  shr_m (shr_record_of_loc m l) = m /\ exact_rec (shr_record_of_loc m l) = is_exact l.
Proof. destruct l as [|[| |]]; split; reflexivity. Qed.

Lemma loc_of_exact_rec (r : shr_record) :
  exact_rec r = true -> loc_of_shr_record r = loc_Exact.
Proof. destruct r as [m [|] [|]]; unfold exact_rec; simpl; congruence. Qed.

Lemma shr_spec (r : shr_record) (e n : Z) :
  0 <= shr_m r ->
  exists r', shr r e n = (r', e + Z.max 0 n) /\
             shr_m r' = shr_m r / 2 ^ Z.max 0 n /\
             exact_rec r' = exact_rec r && (shr_m r mod 2 ^ Z.max 0 n =? 0).
Proof.
  intros Hr. destruct n as [|p|p]; simpl shr.
  - exists r. rewrite Z.max_id. change (2 ^ 0) with 1.
    rewrite Z.div_1_r, Z.mod_1_r, Z.add_0_r, andb_true_r. auto.
  - exists (iter_pos shr_1 p r). replace (Z.max 0 (Zpos p)) with (Zpos p) by lia.
    destruct (iter_pos_shr p r Hr). auto.
  - exists r. replace (Z.max 0 (Zneg p)) with 0 by lia. change (2 ^ 0) with 1.
    rewrite Z.div_1_r, Z.mod_1_r, Z.add_0_r, andb_true_r. auto.
Qed.

Lemma round_nearest_even_range (m : Z) (l : location) :
  m <= round_nearest_even m l <= m + 1 /\
  (l = loc_Exact -> round_nearest_even m l = m).
Proof.
  destruct l as [|[| |]]; simpl; try destruct (Z.even m); split; try lia; try discriminate; auto.
Qed.

(** What [binary_round_aux] returns when the mantissa has digits to spare. *)
Lemma binary_round_aux_spec (s : bool) (mx ex : Z) (lx : location) :
  0 <= mx ->
  ex <= fexp (Zdigits2 mx + ex) ->
  let e1 := fexp (Zdigits2 mx + ex) in
  let k := e1 - ex in
  exists m2,
    mx / 2 ^ k <= m2 <= mx / 2 ^ k + 1 /\
    (is_exact lx = true -> mx mod 2 ^ k = 0 -> m2 = mx / 2 ^ k) /\
    round_result prec emax s m2 e1 (binary_round_aux prec emax s mx ex lx).
Proof.
  intros Hmx Hk e1 k.
  assert (Kk : 0 <= k) by (unfold k, e1; lia).
  unfold binary_round_aux, shr_fexp.
  fold e1. change (e1 - ex) with k.
  destruct (shr_rec_of_loc mx lx) as [R0 X0].
  destruct (shr_spec (shr_record_of_loc mx lx) ex k) as [r1 [E1 [M1 X1]]];
    [rewrite R0; assumption|].
  rewrite E1. replace (Z.max 0 k) with k in * by lia.
  replace (ex + k) with e1 by (unfold k; lia).
  rewrite R0 in M1, X1. rewrite X0 in X1.
  set (m1 := mx / 2 ^ k) in *.
  set (m2 := round_nearest_even (shr_m r1) (loc_of_shr_record r1)).
  assert (Hm1 : 0 <= m1) by (apply div_pow2_nonneg; lia).
  destruct (round_nearest_even_range (shr_m r1) (loc_of_shr_record r1)) as [Rg Rx].
  fold m2 in Rg, Rx. rewrite M1 in Rg.
  (* the kept mantissa has at most [prec] digits *)
  assert (Hm1p : m1 < 2 ^ prec).
  { destruct (Z.eq_dec mx 0) as [->|Hnz].
    - unfold m1. rewrite Z.div_0_l by (pose proof (pow2_pos k); lia). apply pow2_pos; lia.
    - destruct (Zdigits2_bounds mx) as [D0 [D1 D2]]; [lia|].
      assert (Zdigits2 mx - k <= prec) by (unfold k, e1, SpecFloat.fexp; lia).
      destruct (Z_lt_le_dec (Zdigits2 mx) k) as [L|L].
      + unfold m1. rewrite Z.div_small; [apply pow2_pos; lia|].
        split; [lia|]. assert (2 ^ Zdigits2 mx <= 2 ^ k) by (apply pow2_le; lia). lia.
      + unfold m1. apply Z.div_lt_upper_bound; [apply pow2_pos; lia|].
        rewrite <- pow2_add by lia.
        assert (2 ^ Zdigits2 mx <= 2 ^ (k + prec)) by (apply pow2_le; lia). lia. }
  exists m2. split; [exact Rg|]. split.
  { intros Hx Hmod. rewrite <- M1. apply Rx. apply loc_of_exact_rec. rewrite X1, Hx.
    apply andb_true_iff. split; [reflexivity | apply Z.eqb_eq; exact Hmod]. }
  destruct (shr_rec_of_loc m2 loc_Exact) as [R2 _].
  destruct (Z.eq_dec m2 0) as [Z2|NZ2].
  { (* rounds to zero *)
    rewrite Z2. simpl Zdigits2. simpl shr_record_of_loc.
    destruct (shr_spec {| shr_m := 0; shr_r := false; shr_s := false |} e1
                (fexp (0 + e1) - e1)) as [r3 [E3 [M3 _]]]; [simpl; lia|].
    rewrite E3. simpl shr_m in M3. rewrite Z.div_0_l in M3
      by (pose proof (pow2_pos (Z.max 0 (fexp (0 + e1) - e1))); lia).
    rewrite M3. apply RR_zero. reflexivity. }
  assert (P2 : 0 < m2) by lia.
  destruct (Zdigits2_bounds m2 P2) as [D0 [D1 D2]].
  assert (E1min : emin <= e1) by apply fexp_ge_emin.
  destruct (Z_lt_le_dec m2 (2 ^ prec)) as [Lt2|Ge2].
  - (* no second shift *)
    assert (Dp : Zdigits2 m2 <= prec).
    { destruct (Z_le_gt_dec (Zdigits2 m2) prec); [assumption|].
      assert (2 ^ prec <= 2 ^ (Zdigits2 m2 - 1)) by (apply pow2_le; lia). lia. }
    assert (Hn : fexp (Zdigits2 m2 + e1) - e1 <= 0) by (unfold SpecFloat.fexp; lia).
    destruct (shr_spec (shr_record_of_loc m2 loc_Exact) e1
                (fexp (Zdigits2 m2 + e1) - e1)) as [r3 [E3 [M3 _]]]; [rewrite R2; lia|].
    rewrite E3. replace (Z.max 0 (fexp (Zdigits2 m2 + e1) - e1)) with 0 in * by lia.
    rewrite R2 in M3. change (2 ^ 0) with 1 in M3. rewrite Z.div_1_r in M3.
    rewrite M3, Z.add_0_r.
    destruct m2 as [|p2|p2]; try lia.
    assert (Can : canonical_mantissa prec emax p2 e1 = true).
    { unfold canonical_mantissa. apply Z.eqb_eq. simpl Zdigits2 in *.
      destruct (Z.eq_dec e1 emin) as [Em|Em].
      - unfold SpecFloat.fexp in *. lia.
      - (* normal range: the kept mantissa has exactly [prec] digits *)
        assert (Ek : e1 = Zdigits2 mx + ex - prec) by (unfold e1, SpecFloat.fexp in *; lia).
        assert (mx <> 0).
        { intros ->. simpl in Ek. unfold k in Kk. lia. }
        destruct (Zdigits2_bounds mx) as [Dx0 [Dx1 Dx2]]; [lia|].
        assert (Kd : Zdigits2 mx - 1 = (prec - 1) + k) by (unfold k; lia).
        assert (2 ^ (prec - 1) <= m1).
        { unfold m1. apply Z.div_le_lower_bound; [apply pow2_pos; lia|].
          rewrite Z.mul_comm, <- pow2_add by lia. rewrite <- Kd. exact Dx1. }
        assert (prec <= Zpos (digits2_pos p2)).
        { destruct (Z_le_gt_dec prec (Zpos (digits2_pos p2))); [assumption|].
          assert (2 ^ Zpos (digits2_pos p2) <= 2 ^ (prec - 1)) by (apply pow2_le; lia). lia. }
        unfold SpecFloat.fexp. lia. }
    destruct (Z.leb_spec e1 (emax - prec)) as [Le|Gt].
    + apply RR_finite; [ | lia | rewrite Z.sub_diag; simpl; lia ].
      unfold bounded. rewrite Can. simpl. apply Z.leb_le. exact Le.
    + apply RR_inf with (m := p2) (e := e1); [exact Can | lia | lia | rewrite Z.sub_diag; simpl; lia].
  - (* the rounded mantissa is [2^prec]: one more shift, exact *)
    assert (E2 : m2 = 2 ^ prec) by lia.
    assert (Dp : Zdigits2 m2 = prec + 1).
    { apply Zdigits2_unique; [lia|]. replace (prec + 1 - 1) with prec by lia.
      split; [lia|]. rewrite E2. apply pow2_lt; lia. }
    assert (Hn : fexp (Zdigits2 m2 + e1) - e1 = 1) by (rewrite Dp; unfold SpecFloat.fexp; lia).
    destruct (shr_spec (shr_record_of_loc m2 loc_Exact) e1
                (fexp (Zdigits2 m2 + e1) - e1)) as [r3 [E3 [M3 _]]]; [rewrite R2; lia|].
    rewrite E3. rewrite Hn in *. change (Z.max 0 1) with 1 in *.
    rewrite R2 in M3. change (2 ^ 1) with 2 in M3.
    assert (T : 2 ^ prec = 2 ^ (prec - 1) * 2).
    { replace prec with ((prec - 1) + 1) at 1 by lia.
      rewrite pow2_add by lia. reflexivity. }
    assert (M3' : shr_m r3 = 2 ^ (prec - 1)).
    { rewrite M3, E2, T. apply Z.div_mul. lia. }
    rewrite M3'.
    pose proof (pow2_pos (prec - 1)) as Pp.
    rewrite T in E2.
    destruct (2 ^ (prec - 1)) as [|p3|p3] eqn:E3p; try lia.
    assert (Can : canonical_mantissa prec emax p3 (e1 + 1) = true).
    { unfold canonical_mantissa. apply Z.eqb_eq.
      assert (Zdigits2 (Zpos p3) = prec).
      { apply Zdigits2_unique; [lia|]. rewrite <- E3p. split; [lia|]. apply pow2_lt; lia. }
      simpl Zdigits2 in H. rewrite H. unfold SpecFloat.fexp. lia. }
    destruct (Z.leb_spec (e1 + 1) (emax - prec)) as [Le|Gt].
    + apply RR_finite; [ | lia | ].
      * unfold bounded. rewrite Can. simpl. apply Z.leb_le. exact Le.
      * replace (e1 + 1 - e1) with 1 by lia. change (2 ^ 1) with 2. lia.
    + apply RR_inf with (m := p3) (e := e1 + 1); [exact Can | lia | lia | ].
      replace (e1 + 1 - e1) with 1 by lia. change (2 ^ 1) with 2. lia.
Qed.

Lemma canonical_fexp (m : positive) (e : Z) :
  canonical_mantissa prec emax m e = true -> fexp (Zdigits2 (Zpos m) + e) = e.
Proof. unfold canonical_mantissa. intros H. apply Z.eqb_eq in H. exact H. Qed.

Lemma bounded_canonical (m : positive) (e : Z) :
  bounded prec emax m e = true ->
  canonical_mantissa prec emax m e = true /\ e <= emax - prec.
Proof.
  unfold bounded. intros H. apply andb_true_iff in H. destruct H as [H1 H2].
  split; [assumption | apply Z.leb_le; assumption].
Qed.

(** Between canonical positive floats the exponent decides the order. *)
Lemma canonical_exp_lt (c : Z) (m1 : positive) (e1 : Z) (m2 : positive) (e2 : Z) :
  canonical_mantissa prec emax m1 e1 = true ->
  canonical_mantissa prec emax m2 e2 = true ->
  c <= e1 -> e1 < e2 ->
  Zpos m1 * 2 ^ (e1 - c) < Zpos m2 * 2 ^ (e2 - c).
Proof.
  intros C1 C2 Hc L.
  apply canonical_fexp in C1. apply canonical_fexp in C2.
  destruct (Zdigits2_bounds (Zpos m1)) as [D1 [_ U1]]; [lia|].
  destruct (Zdigits2_bounds (Zpos m2)) as [D2 [L2 _]]; [lia|].
  assert (Hd : Zdigits2 (Zpos m1) + e1 < Zdigits2 (Zpos m2) + e2).
  { destruct (Z_lt_le_dec (Zdigits2 (Zpos m1) + e1) (Zdigits2 (Zpos m2) + e2)); [assumption|].
    pose proof (fexp_mono _ _ l). lia. }
  pose proof (pow2_pos (e1 - c)). pose proof (pow2_pos (e2 - c)).
  assert (Zpos m1 * 2 ^ (e1 - c) < 2 ^ (Zdigits2 (Zpos m1) + (e1 - c))).
  { rewrite pow2_add by lia. nia. }
  assert (2 ^ ((Zdigits2 (Zpos m2) - 1) + (e2 - c)) <= Zpos m2 * 2 ^ (e2 - c)).
  { rewrite pow2_add by lia. nia. }
  assert (2 ^ (Zdigits2 (Zpos m1) + (e1 - c)) <= 2 ^ ((Zdigits2 (Zpos m2) - 1) + (e2 - c)))
    by (apply pow2_le; lia).
  lia.
Qed.

Lemma round_aux_upper (mx ex : Z) (lx : location) (mf : positive) (ef : Z) :
  0 <= mx ->
  ex <= fexp (Zdigits2 mx + ex) ->
  bounded prec emax mf ef = true ->
  (inject_Z mx * pow2 ex <= inject_Z (Zpos mf) * pow2 ef)%Q ->
  (is_exact lx = false -> (inject_Z mx * pow2 ex < inject_Z (Zpos mf) * pow2 ef)%Q) ->
  let r := binary_round_aux prec emax false mx ex lx in
  nonneg r = true /\ valid_binary prec emax r = true /\
  (SF2Q r <= inject_Z (Zpos mf) * pow2 ef)%Q.
Proof.
  intros Hmx Hk HF Hle Hlt r.
  destruct (bounded_canonical _ _ HF) as [CF EF].
  pose proof (canonical_fexp _ _ CF) as FF.
  destruct (binary_round_aux_spec false mx ex lx Hmx Hk)
    as [m2 [Rg [Rx RR]]].
  fold r in RR.
  set (e1 := fexp (Zdigits2 mx + ex)) in *.
  set (k := e1 - ex) in *.
  assert (Kk : 0 <= k) by (unfold k; lia).
  pose proof (pow2_pos k Kk) as Pk.
  (* the rounded value does not pass the bound *)
  assert (G : (inject_Z m2 * pow2 e1 <= inject_Z (Zpos mf) * pow2 ef)%Q).
  { destruct (Z_le_gt_dec e1 ef) as [Le|Gt].
    - apply (dy_le_iff e1); try lia. rewrite Z.sub_diag. change (2 ^ 0) with 1.
      rewrite Z.mul_1_r.
      apply (dy_le_iff ex) in Hle; try lia.
      rewrite Z.sub_diag in Hle. change (2 ^ 0) with 1 in Hle. rewrite Z.mul_1_r in Hle.
      replace (ef - ex) with ((ef - e1) + k) in Hle by (unfold k; lia).
      rewrite pow2_add in Hle by lia.
      set (g := Zpos mf * 2 ^ (ef - e1)) in *.
      assert (Hg : mx <= g * 2 ^ k) by (unfold g; lia).
      assert (M1 : mx / 2 ^ k <= g) by (apply Z.div_le_upper_bound; lia).
      destruct (Z.eq_dec m2 (mx / 2 ^ k)) as [->|Ne]; [exact M1|].
      assert (Hs : mx < g * 2 ^ k).
      { destruct (is_exact lx) eqn:Ex.
        - destruct (Z.eq_dec (mx mod 2 ^ k) 0) as [Md|Md]; [specialize (Rx eq_refl Md); lia|].
          destruct (Z.eq_dec mx (g * 2 ^ k)) as [E|E]; [|lia].
          rewrite E, Z.mod_mul in Md by lia. lia.
        - specialize (Hlt eq_refl). apply (dy_lt_iff ex) in Hlt; try lia.
          rewrite Z.sub_diag in Hlt. change (2 ^ 0) with 1 in Hlt. rewrite Z.mul_1_r in Hlt.
          replace (ef - ex) with ((ef - e1) + k) in Hlt by (unfold k; lia).
          rewrite pow2_add in Hlt by lia. unfold g. lia. }
      assert (mx / 2 ^ k < g) by (apply Z.div_lt_upper_bound; lia).
      lia.
    - exfalso.
      destruct (Z.eq_dec mx 0) as [Z0|NZ].
      + subst mx. simpl Zdigits2 in *.
        pose proof (fexp_ge_emin (Zdigits2 (Zpos mf) + ef)).
        unfold e1, SpecFloat.fexp in *. lia.
      + destruct (Zdigits2_bounds mx) as [Dx [Lx _]]; [lia|].
        destruct (Zdigits2_bounds (Zpos mf)) as [Df [_ Uf]]; [lia|].
        assert (Hd : Zdigits2 (Zpos mf) + ef < Zdigits2 mx + ex).
        { destruct (Z_lt_le_dec (Zdigits2 (Zpos mf) + ef) (Zdigits2 mx + ex)); [assumption|].
          pose proof (fexp_mono _ _ l). unfold e1 in *. lia. }
        apply (dy_le_iff (Z.min ex ef)) in Hle; try lia.
        set (c := Z.min ex ef) in *.
        pose proof (pow2_pos (ex - c)). pose proof (pow2_pos (ef - c)).
        assert (Zpos mf * 2 ^ (ef - c) < 2 ^ (Zdigits2 (Zpos mf) + (ef - c))).
        { rewrite pow2_add by lia. nia. }
        assert (2 ^ ((Zdigits2 mx - 1) + (ex - c)) <= mx * 2 ^ (ex - c)).
        { rewrite pow2_add by lia. nia. }
        assert (2 ^ (Zdigits2 (Zpos mf) + (ef - c)) <= 2 ^ ((Zdigits2 mx - 1) + (ex - c)))
          by (apply pow2_le; lia).
        lia. }
  inversion RR as [Z2 Er | m e Bd Le Ev Er | m e Cn Ov Le Ev Er].
  - split; [reflexivity|]. split; [reflexivity|]. simpl.
    apply Qlt_le_weak. apply Qmult_lt_0_compat; [reflexivity | apply Qpow2_pos].
  - split; [reflexivity|]. split; [exact Bd|]. simpl.
    eapply Qle_trans; [|exact G].
    apply Qle_lteq. right. apply (dy_eq e1); try lia.
    rewrite Z.sub_diag. change (2 ^ 0) with 1. lia.
  - exfalso.
    apply (dy_le_iff (Z.min e1 ef)) in G; try lia.
    pose proof (canonical_exp_lt (Z.min e1 ef) mf ef m e CF Cn ltac:(lia) ltac:(lia)) as L.
    replace (e - Z.min e1 ef) with ((e - e1) + (e1 - Z.min e1 ef)) in L by lia.
    rewrite pow2_add in L by lia.
    rewrite <- Ev in G. lia.
Qed.


Lemma is_bound_inv (F : spec_float) :
  is_bound prec emax F = true ->
  exists mf ef, F = S754_finite false mf ef /\ bounded prec emax mf ef = true.
Proof.
  destruct F as [ | | | [|] mf ef]; simpl; try discriminate.
  intros H. exists mf, ef. auto.
Qed.

Lemma SF2Q_bound_pos (F : spec_float) : is_bound prec emax F = true -> (0 < SF2Q F)%Q.
Proof.
  intros H. destruct (is_bound_inv F H) as [mf [ef [-> _]]]. simpl.
  apply Qmult_lt_0_compat; [reflexivity | apply Qpow2_pos].
Qed.

Lemma nonneg_SF2Q (x : spec_float) : nonneg x = true -> (0 <= SF2Q x)%Q.
Proof.
  destruct x as [[|] | | | [|] m e]; simpl; try discriminate; intros _.
  apply Qlt_le_weak. apply Qmult_lt_0_compat; [reflexivity | apply Qpow2_pos].
Qed.

Lemma le_bound_zero (F : spec_float) :
  is_bound prec emax F = true -> le_bound prec emax (S754_zero false) F.
Proof.
  intros H. repeat split. simpl. apply Qlt_le_weak. apply SF2Q_bound_pos. exact H.
Qed.

Lemma round_aux_le_bound (mx ex : Z) (lx : location) (F : spec_float) :
  0 <= mx ->
  ex <= fexp (Zdigits2 mx + ex) ->
  is_bound prec emax F = true ->
  (inject_Z mx * pow2 ex <= SF2Q F)%Q ->
  (is_exact lx = false -> (inject_Z mx * pow2 ex < SF2Q F)%Q) ->
  le_bound prec emax (binary_round_aux prec emax false mx ex lx) F.
Proof.
  intros Hmx Hk HF Hle Hlt.
  destruct (is_bound_inv F HF) as [mf [ef [-> Bd]]].
  apply round_aux_upper; assumption.
Qed.

(** *** Multiplication *)

Lemma Zdigits2_mul (a b : Z) :
  0 < a -> 0 < b -> Zdigits2 a + Zdigits2 b - 1 <= Zdigits2 (a * b).
Proof.
  intros Ha Hb.
  destruct (Zdigits2_bounds a Ha) as [Da [La _]].
  destruct (Zdigits2_bounds b Hb) as [Db [Lb _]].
  destruct (Zdigits2_bounds (a * b)) as [Dab [_ Uab]]; [nia|].
  destruct (Z_le_gt_dec (Zdigits2 a + Zdigits2 b - 1) (Zdigits2 (a * b))); [assumption|].
  exfalso.
  assert (2 ^ Zdigits2 (a * b) <= 2 ^ ((Zdigits2 a - 1) + (Zdigits2 b - 1)))
    by (apply pow2_le; lia).
  rewrite pow2_add in H by lia.
  pose proof (pow2_pos (Zdigits2 a - 1)). pose proof (pow2_pos (Zdigits2 b - 1)).
  nia.
Qed.

Lemma Qpow2_add (a b : Z) : (pow2 (a + b) == pow2 a * pow2 b)%Q.
Proof. unfold pow2. apply Qpower_plus. discriminate. Qed.

Lemma SFmul_le_bound (x y F : spec_float) :
  nonneg x = true -> valid_binary prec emax x = true ->
  nonneg y = true -> valid_binary prec emax y = true ->
  is_bound prec emax F = true ->
  (SF2Q x * SF2Q y <= SF2Q F)%Q ->
  le_bound prec emax (SFmul prec emax x y) F.
Proof.
  intros Nx Vx Ny Vy HF Hle.
  destruct x as [[|] | | | [|] mx ex]; try discriminate;
    destruct y as [[|] | | | [|] my ey]; try discriminate;
    try (apply le_bound_zero; assumption).
  simpl SFmul. simpl in Vx, Vy.
  destruct (bounded_canonical _ _ Vx) as [Cx _].
  destruct (bounded_canonical _ _ Vy) as [Cy _].
  apply canonical_fexp in Cx. apply canonical_fexp in Cy.
  assert (E : (inject_Z (Zpos (mx * my)) * pow2 (ex + ey) == SF2Q (S754_finite false mx ex) * SF2Q (S754_finite false my ey))%Q).
  { simpl. rewrite Pos2Z.inj_mul, inject_Z_mult, Qpow2_add. ring. }
  apply round_aux_le_bound; try assumption; try lia.
  - pose proof (Zdigits2_mul (Zpos mx) (Zpos my) ltac:(lia) ltac:(lia)) as D.
    destruct (Zdigits2_bounds (Zpos mx)) as [Dx _]; [lia|].
    destruct (Zdigits2_bounds (Zpos my)) as [Dy _]; [lia|].
    rewrite Pos2Z.inj_mul.
    unfold SpecFloat.fexp, SpecFloat.emin in *. lia.
  - rewrite E. exact Hle.
  - simpl. discriminate.
Qed.


(** *** Rounding of an exact dyadic number, sums and differences *)

Lemma iter_xO (m d : positive) : Zpos (Pos.iter xO m d) = Zpos m * 2 ^ Zpos d.
Proof.
  induction d as [|d IH] using Pos.peano_ind.
  - simpl. lia.
  - rewrite Pos.iter_succ, Pos2Z.inj_xO, IH, Pos2Z.inj_succ, Z.pow_succ_r by lia. lia.
Qed.

Lemma shl_align_spec (mx : positive) (ex ex' : Z) :
  snd (shl_align mx ex ex') = Z.min ex ex' /\
  Zpos (fst (shl_align mx ex ex')) = Zpos mx * 2 ^ (ex - Z.min ex ex').
Proof.
  unfold shl_align. destruct (ex' - ex) as [|d|d] eqn:E; simpl fst; simpl snd.
  - replace (Z.min ex ex') with ex by lia. rewrite Z.sub_diag. simpl. lia.
  - replace (Z.min ex ex') with ex by lia. rewrite Z.sub_diag. simpl. lia.
  - replace (Z.min ex ex') with ex' by lia. rewrite iter_xO.
    replace (ex - ex') with (Zpos d) by lia. auto.
Qed.

Lemma Zdigits2_shift (m k : Z) : 0 < m -> 0 <= k -> Zdigits2 (m * 2 ^ k) = Zdigits2 m + k.
Proof.
  intros Hm Hk. destruct (Zdigits2_bounds m Hm) as [D [L U]].
  pose proof (pow2_pos k Hk).
  apply Zdigits2_unique; [lia|].
  replace (Zdigits2 m + k - 1) with ((Zdigits2 m - 1) + k) by lia.
  rewrite !pow2_add by lia. nia.
Qed.

Lemma binary_round_le_bound (mx : positive) (ex : Z) (F : spec_float) :
  is_bound prec emax F = true ->
  (inject_Z (Zpos mx) * pow2 ex <= SF2Q F)%Q ->
  le_bound prec emax (binary_round prec emax false mx ex) F.
Proof.
  intros HF Hle. unfold binary_round.
  destruct (shl_align_spec mx ex (fexp (Zpos (digits2_pos mx) + ex))) as [Ez Mz].
  destruct (shl_align mx ex (fexp (Zpos (digits2_pos mx) + ex))) as [mz ez].
  simpl fst in Mz. simpl snd in Ez. rewrite <- Ez in Mz.
  assert (Hez : ez <= ex) by lia.
  assert (Dz : Zdigits2 (Zpos mz) + ez = Zdigits2 (Zpos mx) + ex).
  { rewrite Mz, Zdigits2_shift by lia. lia. }
  apply round_aux_le_bound; try assumption; try lia.
  - rewrite Dz. simpl Zdigits2. lia.
  - eapply Qle_trans; [|exact Hle]. apply Qle_lteq. right.
    apply (dy_eq ez); try lia. rewrite Z.sub_diag. change (2 ^ 0) with 1. lia.
  - simpl. discriminate.
Qed.

Lemma binary_normalize_le_bound (m e : Z) (F : spec_float) :
  0 <= m ->
  is_bound prec emax F = true ->
  (inject_Z m * pow2 e <= SF2Q F)%Q ->
  le_bound prec emax (binary_normalize prec emax m e false) F.
Proof.
  intros Hm HF Hle. destruct m as [|p|p]; [ | | lia]; simpl.
  - apply le_bound_zero; assumption.
  - apply binary_round_le_bound; assumption.
Qed.

(** The exact sum of two positive floats, at the smaller exponent. *)
Lemma aligned_value (mx : positive) (ex ez : Z) :
  ez <= ex ->
  (inject_Z (Zpos (fst (shl_align mx ex ez))) * pow2 ez == inject_Z (Zpos mx) * pow2 ex)%Q.
Proof.
  intros H. destruct (shl_align_spec mx ex ez) as [_ M]. rewrite M.
  replace (Z.min ex ez) with ez by lia.
  apply (dy_eq ez); try lia. rewrite Z.sub_diag. change (2 ^ 0) with 1. lia.
Qed.

Lemma SFadd_le_bound (x y F : spec_float) :
  nonneg x = true -> valid_binary prec emax x = true ->
  nonneg y = true -> valid_binary prec emax y = true ->
  is_bound prec emax F = true ->
  (SF2Q x + SF2Q y <= SF2Q F)%Q ->
  le_bound prec emax (SFadd prec emax x y) F.
Proof.
  intros Nx Vx Ny Vy HF Hle.
  destruct x as [[|] | | | [|] mx ex]; try discriminate;
    destruct y as [[|] | | | [|] my ey]; try discriminate.
  - apply le_bound_zero; assumption.
  - simpl SFadd. repeat split; try assumption.
    simpl SF2Q in Hle |- *. lra.
  - simpl SFadd. repeat split; try assumption.
    simpl SF2Q in Hle |- *. lra.
  - unfold SFadd. cbv zeta. simpl cond_Zopp.
    set (ez := Z.min ex ey).
    pose proof (aligned_value mx ex ez ltac:(unfold ez; lia)) as Ax.
    pose proof (aligned_value my ey ez ltac:(unfold ez; lia)) as Ay.
    apply binary_normalize_le_bound; try assumption; try lia.
    rewrite inject_Z_plus. simpl SF2Q in Hle. lra.
Qed.

Lemma SFsub_le_bound (x y F : spec_float) :
  nonneg x = true -> valid_binary prec emax x = true ->
  nonneg y = true -> valid_binary prec emax y = true ->
  is_bound prec emax F = true ->
  (SF2Q y <= SF2Q x)%Q ->
  (SF2Q x - SF2Q y <= SF2Q F)%Q ->
  le_bound prec emax (SFsub prec emax x y) F.
Proof.
  intros Nx Vx Ny Vy HF Hyx Hle.
  destruct x as [[|] | | | [|] mx ex]; try discriminate;
    destruct y as [[|] | | | [|] my ey]; try discriminate.
  - apply le_bound_zero; assumption.
  - exfalso. simpl SF2Q in Hyx.
    pose proof (Qpow2_pos ey).
    assert (0 < inject_Z (Zpos my) * pow2 ey)%Q
      by (apply Qmult_lt_0_compat; [reflexivity | assumption]).
    lra.
  - simpl SFsub. repeat split; try assumption.
    simpl SF2Q in Hle |- *. lra.
  - unfold SFsub. cbv zeta. simpl cond_Zopp.
    set (ez := Z.min ex ey).
    pose proof (aligned_value mx ex ez ltac:(unfold ez; lia)) as Ax.
    pose proof (aligned_value my ey ez ltac:(unfold ez; lia)) as Ay.
    simpl SF2Q in Hle, Hyx.
    set (a := Zpos (fst (shl_align mx ex ez))) in *.
    set (b := Zpos (fst (shl_align my ey ez))) in *.
    assert (Hab : b <= a).
    { assert (L : (inject_Z b * pow2 ez <= inject_Z a * pow2 ez)%Q) by lra.
      apply (dy_le_iff ez) in L; try lia.
      rewrite Z.sub_diag in L. change (2 ^ 0) with 1 in L. lia. }
    apply binary_normalize_le_bound; try assumption; try lia.
    unfold Z.sub. rewrite inject_Z_plus, inject_Z_opp. lra.
Qed.


(** *** Division *)

Lemma Zdigits2_div (a b : Z) :
  0 < a -> 0 < b -> Zdigits2 a - Zdigits2 b <= Zdigits2 (a / b).
Proof.
  intros Ha Hb.
  destruct (Zdigits2_bounds a Ha) as [Da [La _]].
  destruct (Zdigits2_bounds b Hb) as [Db [_ Ub]].
  pose proof (Zdigits2_nonneg (a / b)) as Dq.
  destruct (Z_le_gt_dec (Zdigits2 a - Zdigits2 b) 0) as [L|G]; [lia|].
  set (D := Zdigits2 a - Zdigits2 b) in *.
  assert (Hq : 2 ^ (D - 1) <= a / b).
  { apply Z.div_le_lower_bound; [lia|].
    replace (Zdigits2 a - 1) with ((D - 1) + Zdigits2 b) in La by (unfold D; lia).
    rewrite pow2_add in La by lia.
    pose proof (pow2_pos (D - 1)). nia. }
  pose proof (pow2_pos (D - 1)).
  destruct (Zdigits2_bounds (a / b)) as [_ [_ Uq]]; [lia|].
  destruct (Z_le_gt_dec D (Zdigits2 (a / b))); [assumption|].
  assert (2 ^ Zdigits2 (a / b) <= 2 ^ (D - 1)) by (apply pow2_le; lia).
  lia.
Qed.

Lemma new_location_exact (nb k : Z) : is_exact (new_location nb k) = (k =? 0).
Proof.
  unfold new_location, new_location_even, new_location_odd.
  destruct (Z.even nb); destruct (k =? 0); reflexivity.
Qed.

Lemma SFdiv_le_bound (x y F : spec_float) :
  nonneg x = true ->
  is_bound prec emax y = true ->
  is_bound prec emax F = true ->
  (SF2Q x <= SF2Q F * SF2Q y)%Q ->
  le_bound prec emax (SFdiv prec emax x y) F.
Proof.
  intros Nx Hy HF Hle.
  destruct (is_bound_inv y Hy) as [my [ey [-> _]]].
  destruct x as [[|] | | | [|] mx ex]; try discriminate.
  { apply le_bound_zero; assumption. }
  unfold SFdiv, SFdiv_core_binary. cbv zeta.
  set (e' := Z.min (fexp (Zdigits2 (Zpos mx) + ex - (Zdigits2 (Zpos my) + ey))) (ex - ey)).
  set (s := ex - ey - e').
  assert (Hs : 0 <= s) by (unfold s, e'; lia).
  set (m' := match s with Zpos _ => Z.shiftl (Zpos mx) s | Z0 => Zpos mx | Zneg _ => 0 end).
  assert (Hm' : m' = Zpos mx * 2 ^ s).
  { unfold m'. destruct s as [|p|p]; [simpl; lia | | lia].
    rewrite Z.shiftl_mul_pow2 by lia. reflexivity. }
  pose proof (pow2_pos s Hs) as Ps.
  pose proof (Z_div_mod m' (Zpos my) ltac:(lia)) as DM.
  destruct (Z.div_eucl m' (Zpos my)) as [q r] eqn:Eqr.
  destruct DM as [DM Rr].
  assert (Hq : q = m' / Zpos my) by (unfold Z.div; rewrite Eqr; reflexivity).
  assert (Hq0 : 0 <= q) by (rewrite Hq; apply Z.div_pos; lia).
  simpl xorb.
  set (Y := SF2Q (S754_finite false my ey)) in *.
  assert (PY : (0 < Y)%Q).
  { unfold Y. simpl. apply Qmult_lt_0_compat; [reflexivity | apply Qpow2_pos]. }
  set (P := (pow2 e' * pow2 ey)%Q).
  assert (PP : (0 < P)%Q) by (apply Qmult_lt_0_compat; apply Qpow2_pos).
  assert (EX : (SF2Q (S754_finite false mx ex) == inject_Z m' * P)%Q).
  { simpl SF2Q. unfold P. rewrite <- Qpow2_add.
    rewrite (Qpow2_split (e' + ey) ex) by (unfold s in Hs; lia).
    rewrite Hm', inject_Z_mult. replace (ex - (e' + ey)) with s by (unfold s; lia). ring. }
  assert (EQ : (inject_Z q * pow2 e' * Y == inject_Z (q * Zpos my) * P)%Q).
  { unfold Y, P. simpl SF2Q. rewrite inject_Z_mult. ring. }
  assert (Lq : (inject_Z (q * Zpos my) <= inject_Z m')%Q) by (rewrite <- Zle_Qle; lia).
  apply round_aux_le_bound; try assumption.
  - (* enough digits: the quotient is computed at the target exponent or below *)
    assert (D : Zdigits2 m' - Zdigits2 (Zpos my) <= Zdigits2 q)
      by (rewrite Hq; apply Zdigits2_div; lia).
    rewrite Hm', Zdigits2_shift in D by lia.
    assert (M : fexp (Zdigits2 (Zpos mx) + ex - (Zdigits2 (Zpos my) + ey)) <= fexp (Zdigits2 q + e'))
      by (apply fexp_mono; unfold s in D; lia).
    unfold e' at 1. lia.
  - apply Qmult_le_r with (z := Y); [exact PY|].
    rewrite EQ. rewrite EX in Hle.
    eapply Qle_trans; [|exact Hle].
    apply Qmult_le_compat_r; [exact Lq | apply Qlt_le_weak; exact PP].
  - rewrite new_location_exact. intros Hr. apply Z.eqb_neq in Hr.
    apply Qmult_lt_r with (z := Y); [exact PY|].
    rewrite EQ. rewrite EX in Hle.
    eapply Qlt_le_trans; [|exact Hle].
    apply Qmult_lt_compat_r; [exact PP|].
    rewrite <- Zlt_Qlt. lia.
Qed.

(** *** Comparison *)

Lemma SFcompare_value (a b : spec_float) :
  nonneg a = true -> valid_binary prec emax a = true ->
  nonneg b = true -> valid_binary prec emax b = true ->
  SFcompare a b = Some (SF2Q a ?= SF2Q b)%Q.
Proof.
  intros Na Va Nb Vb.
  destruct a as [[|] | | | [|] ma ea]; try discriminate;
    destruct b as [[|] | | | [|] mb eb]; try discriminate.
  - reflexivity.
  - simpl SFcompare. f_equal. symmetry. apply Qlt_alt. simpl.
    apply Qmult_lt_0_compat; [reflexivity | apply Qpow2_pos].
  - simpl SFcompare. f_equal. symmetry. apply Qgt_alt. simpl.
    apply Qmult_lt_0_compat; [reflexivity | apply Qpow2_pos].
  - simpl in Va, Vb.
    destruct (bounded_canonical _ _ Va) as [Ca _].
    destruct (bounded_canonical _ _ Vb) as [Cb _].
    simpl SFcompare. f_equal. symmetry. simpl SF2Q.
    destruct (Z.compare_spec ea eb) as [E|L|G].
    + subst eb. change (Pos.compare_cont Eq ma mb) with (Pos.compare ma mb).
      destruct (Pos.compare_spec ma mb) as [E|L|G].
      * subst. apply Qeq_alt. reflexivity.
      * apply Qlt_alt. apply (dy_lt_iff ea); try lia.
        rewrite Z.sub_diag. change (2 ^ 0) with 1. lia.
      * apply Qgt_alt. apply (dy_lt_iff ea); try lia.
        rewrite Z.sub_diag. change (2 ^ 0) with 1. lia.
    + apply Qlt_alt. apply (dy_lt_iff ea); try lia.
      apply canonical_exp_lt; try assumption; lia.
    + apply Qgt_alt. apply (dy_lt_iff eb); try lia.
      apply canonical_exp_lt; try assumption; lia.
Qed.

Lemma SFltb_value (a b : spec_float) :
  nonneg a = true -> valid_binary prec emax a = true ->
  nonneg b = true -> valid_binary prec emax b = true ->
  SFltb a b = true <-> (SF2Q a < SF2Q b)%Q.
Proof.
  intros Na Va Nb Vb. unfold SFltb. rewrite SFcompare_value by assumption.
  rewrite Qlt_alt. destruct (SF2Q a ?= SF2Q b)%Q; split; congruence.
Qed.

Lemma SFleb_value (a b : spec_float) :
  nonneg a = true -> valid_binary prec emax a = true ->
  nonneg b = true -> valid_binary prec emax b = true ->
  SFleb a b = true <-> (SF2Q a <= SF2Q b)%Q.
Proof.
  intros Na Va Nb Vb. unfold SFleb. rewrite SFcompare_value by assumption.
  rewrite Qle_alt. destruct (SF2Q a ?= SF2Q b)%Q; split; congruence.
Qed.

End Engine.

(** ** Monotonicity of rounding

    Rounding to nearest never reverses the order of two exact values. *)





Lemma shr_1_full (m : Z) (r s : bool) :
  0 <= m ->
  shr_1 (Build_shr_record m r s) = Build_shr_record (m / 2) (Z.odd m) (r || s).
Proof.
  intros Hm. destruct m as [|p|p]; [reflexivity | | lia].
  destruct p as [p|p|]; unfold shr_1.
  - f_equal. rewrite Pos2Z.inj_xI. apply Z.div_unique with (r := 1); lia.
  - f_equal. rewrite Pos2Z.inj_xO. apply Z.div_unique with (r := 0); lia.
  - reflexivity.
Qed.

Lemma rec_of_bits (N D : Z) :
  0 <= N -> 0 < D ->
  rec_of N D = Build_shr_record (N / D) (D <=? 2 * (N mod D)) 
                 (negb (N mod D =? 0) && negb (2 * (N mod D) =? D)).
Proof.
  intros HN HD. unfold rec_of, locq.
  pose proof (Z.mod_pos_bound N D HD) as B.
  destruct (Z.eqb_spec (N mod D) 0) as [E|E].
  - rewrite E. rewrite Z.mul_0_r. replace (D <=? 0) with false by (symmetry; apply Z.leb_gt; lia).
    reflexivity.
  - destruct (Z.compare_spec (2 * (N mod D)) D) as [C|C|C].
    + replace (D <=? 2 * (N mod D)) with true by (symmetry; apply Z.leb_le; lia).
      replace (2 * (N mod D) =? D) with true by (symmetry; apply Z.eqb_eq; lia).
      reflexivity.
    + replace (D <=? 2 * (N mod D)) with false by (symmetry; apply Z.leb_gt; lia).
      replace (2 * (N mod D) =? D) with false by (symmetry; apply Z.eqb_neq; lia).
      reflexivity.
    + replace (D <=? 2 * (N mod D)) with true by (symmetry; apply Z.leb_le; lia).
      replace (2 * (N mod D) =? D) with false by (symmetry; apply Z.eqb_neq; lia).
      reflexivity.
Qed.

(** One shift of the record halves the unit: it then stands for [N / (2 D)]. *)
Lemma shr_1_rec_of (N D : Z) :
  0 <= N -> 0 < D -> shr_1 (rec_of N D) = rec_of N (2 * D).
Proof.
  intros HN HD.
  rewrite (rec_of_bits N D HN HD), (rec_of_bits N (2 * D) HN ltac:(lia)).
  rewrite shr_1_full by (apply Z.div_pos; lia).
  pose proof (Z.mod_pos_bound N D HD) as B.
  pose proof (Z.mod_pos_bound (N / D) 2 ltac:(lia)) as B2.
  assert (Eq : N / (2 * D) = N / D / 2) by (rewrite Z.mul_comm, Z.div_div by lia; reflexivity).
  assert (Em : N mod (2 * D) = N mod D + D * ((N / D) mod 2))
    by (rewrite Z.mul_comm; apply Z.rem_mul_r; lia).
  rewrite Eq, Em.
  assert (Eo : Z.odd (N / D) = ((N / D) mod 2 =? 1)).
  { rewrite Zodd_mod. reflexivity. }
  rewrite Eo.
  assert (Hb : (N / D) mod 2 = 0 \/ (N / D) mod 2 = 1) by lia.
  destruct Hb as [Hb|Hb]; rewrite Hb.
  - rewrite Z.mul_0_r, Z.add_0_r. simpl (0 =? 1).
    replace (2 * D <=? 2 * (N mod D)) with false by (symmetry; apply Z.leb_gt; lia).
    f_equal.
    destruct (Z.leb_spec D (2 * (N mod D)));
      destruct (Z.eqb_spec (N mod D) 0); destruct (Z.eqb_spec (2 * (N mod D)) D);
      destruct (Z.eqb_spec (2 * (N mod D)) (2 * D));
      simpl; try reflexivity; exfalso; lia.
  - rewrite Z.mul_1_r. simpl (1 =? 1).
    replace (2 * D <=? 2 * (N mod D + D)) with true by (symmetry; apply Z.leb_le; lia).
    f_equal.
    destruct (Z.leb_spec D (2 * (N mod D)));
      destruct (Z.eqb_spec (N mod D) 0); destruct (Z.eqb_spec (2 * (N mod D)) D);
      destruct (Z.eqb_spec (N mod D + D) 0);
      destruct (Z.eqb_spec (2 * (N mod D + D)) (2 * D));
      simpl; try reflexivity; exfalso; lia.
Qed.

Lemma iter_shr_rec_of (p : positive) : forall N D,
  0 <= N -> 0 < D -> iter_pos shr_1 p (rec_of N D) = rec_of N (D * 2 ^ Zpos p).
Proof.
  induction p as [p IH | p IH |]; intros N D HN HD; simpl iter_pos.
  - rewrite shr_1_rec_of by assumption.
    pose proof (pow2_pos (Zpos p) ltac:(lia)) as P.
    rewrite IH by lia. rewrite IH by nia. f_equal.
    replace (Zpos p~1) with (1 + (Zpos p + Zpos p)) by lia.
    rewrite !pow2_add by lia. change (2 ^ 1) with 2. ring.
  - pose proof (pow2_pos (Zpos p) ltac:(lia)) as P.
    rewrite IH by lia. rewrite IH by nia. f_equal.
    replace (Zpos p~0) with (Zpos p + Zpos p) by lia.
    rewrite !pow2_add by lia. ring.
  - rewrite shr_1_rec_of by assumption. f_equal. change (2 ^ 1) with 2. ring.
Qed.

Lemma shr_rec_of (N D e n : Z) :
  0 <= N -> 0 < D ->
  shr (rec_of N D) e n = (rec_of N (D * 2 ^ Z.max 0 n), e + Z.max 0 n).
Proof.
  intros HN HD. destruct n as [|p|p]; simpl shr.
  - rewrite Z.max_id. change (2 ^ 0) with 1. rewrite Z.mul_1_r, Z.add_0_r. reflexivity.
  - replace (Z.max 0 (Zpos p)) with (Zpos p) by lia.
    rewrite iter_shr_rec_of by assumption. reflexivity.
  - replace (Z.max 0 (Zneg p)) with 0 by lia. change (2 ^ 0) with 1.
    rewrite Z.mul_1_r, Z.add_0_r. reflexivity.
Qed.

Lemma rec_of_RNE (N D : Z) :
  round_nearest_even (shr_m (rec_of N D)) (loc_of_shr_record (rec_of N D)) = RNE N D.
Proof.
  unfold rec_of, RNE. destruct (locq N D) as [|[| |]]; reflexivity.
Qed.

Lemma RNE_range (N D : Z) : N / D <= RNE N D <= N / D + 1.
Proof. unfold RNE. apply round_nearest_even_range. Qed.

(** Rounding to the nearest integer is monotone. *)
Lemma RNE_mono (N1 D1 N2 D2 : Z) :
  0 <= N1 -> 0 < D1 -> 0 < D2 -> N1 * D2 <= N2 * D1 -> RNE N1 D1 <= RNE N2 D2.
Proof.
  intros HN HD1 HD2 H.
  pose proof (Z.div_mod N1 D1 ltac:(lia)) as E1.
  pose proof (Z.div_mod N2 D2 ltac:(lia)) as E2.
  pose proof (Z.mod_pos_bound N1 D1 HD1) as B1.
  pose proof (Z.mod_pos_bound N2 D2 HD2) as B2.
  pose proof (RNE_range N1 D1) as R1. pose proof (RNE_range N2 D2) as R2.
  assert (Q12 : N1 / D1 <= N2 / D2).
  { apply Z.div_le_lower_bound; [lia|].
    assert (D1 * (D2 * (N1 / D1)) <= D1 * N2); [|nia]. nia. }
  destruct (Z.eq_dec (N1 / D1) (N2 / D2)) as [Eq|Ne]; [|lia].
  assert (Hr : (N1 mod D1) * D2 <= (N2 mod D2) * D1) by nia.
  unfold RNE, locq in *. rewrite <- Eq in *.
  set (q := N1 / D1) in *. set (r1 := N1 mod D1) in *. set (r2 := N2 mod D2) in *.
  destruct (Z.eqb_spec r1 0) as [Z1|Z1]; [simpl in *; lia|].
  destruct (Z.eqb_spec r2 0) as [Z2|Z2]; [exfalso; nia|].
  destruct (Z.compare_spec (2 * r1) D1) as [C1|C1|C1];
    destruct (Z.compare_spec (2 * r2) D2) as [C2|C2|C2];
    simpl; try destruct (Z.even q); try lia; exfalso; nia.
Qed.

Section Nearest.
Variables prec emax : Z.
Hypothesis Hprec : 0 < prec.
Hypothesis Hemax : prec < emax.

Local Abbreviation fexp := (fexp prec emax).
Local Abbreviation emin := (emin prec emax).

Lemma binary_round_aux_finish (s : bool) (mx ex : Z) (lx : location) :
  binary_round_aux prec emax s mx ex lx
  = round_finish prec emax s
      (round_nearest_even (shr_m (fst (shr_fexp prec emax mx ex lx)))
                          (loc_of_shr_record (fst (shr_fexp prec emax mx ex lx))))
      (snd (shr_fexp prec emax mx ex lx)).
Proof.
  unfold binary_round_aux, round_finish.
  destruct (shr_fexp prec emax mx ex lx) as [mrs' e']. reflexivity.
Qed.

(** Renormalizing a rounded mantissa: at most one more shift, which is
    exact, and the result is canonical. *)
Lemma round_finish_spec (s : bool) (m2 e1 : Z) :
  emin <= e1 -> 0 <= m2 <= 2 ^ prec ->
  (e1 <> emin -> 2 ^ (prec - 1) <= m2) ->
  round_result prec emax s m2 e1 (round_finish prec emax s m2 e1).
Proof.
  intros E1min [M0 M1] Hn. unfold round_finish, shr_fexp.
  destruct (shr_rec_of_loc m2 loc_Exact) as [R2 _].
  destruct (shr_spec (shr_record_of_loc m2 loc_Exact) e1
              (fexp (Zdigits2 m2 + e1) - e1)) as [r3 [E3 [M3 _]]]; [rewrite R2; lia|].
  rewrite E3. rewrite R2 in M3.
  destruct (Z.eq_dec m2 0) as [Z2|NZ2].
  { rewrite M3, Z2. rewrite Z.div_0_l
      by (pose proof (pow2_pos (Z.max 0 (fexp (Zdigits2 0 + e1) - e1))); lia).
    apply RR_zero. reflexivity. }
  assert (P2 : 0 < m2) by lia.
  destruct (Zdigits2_bounds m2 P2) as [D0 [D1 D2]].
  assert (T : 2 ^ prec = 2 ^ (prec - 1) * 2).
  { replace prec with ((prec - 1) + 1) at 1 by lia. rewrite pow2_add by lia. reflexivity. }
  pose proof (pow2_pos (prec - 1) ltac:(lia)) as Pp.
  destruct (Z_lt_le_dec m2 (2 ^ prec)) as [Lt2|Ge2].
  - assert (Dp : Zdigits2 m2 <= prec).
    { destruct (Z_le_gt_dec (Zdigits2 m2) prec); [assumption|].
      assert (2 ^ prec <= 2 ^ (Zdigits2 m2 - 1)) by (apply pow2_le; lia). lia. }
    assert (Hs : fexp (Zdigits2 m2 + e1) = e1).
    { destruct (Z.eq_dec e1 emin) as [Em|Em]; [unfold SpecFloat.fexp in *; lia|].
      specialize (Hn Em).
      assert (prec <= Zdigits2 m2).
      { destruct (Z_le_gt_dec prec (Zdigits2 m2)); [assumption|].
        assert (2 ^ Zdigits2 m2 <= 2 ^ (prec - 1)) by (apply pow2_le; lia). lia. }
      unfold SpecFloat.fexp. lia. }
    rewrite Hs, Z.sub_diag in *. change (Z.max 0 0) with 0 in *.
    change (2 ^ 0) with 1 in M3. rewrite Z.div_1_r in M3. rewrite M3, Z.add_0_r.
    destruct m2 as [|p2|p2]; try lia.
    assert (Can : canonical_mantissa prec emax p2 e1 = true)
      by (unfold canonical_mantissa; apply Z.eqb_eq; exact Hs).
    destruct (Z.leb_spec e1 (emax - prec)) as [Le|Gt].
    + apply RR_finite; [ | lia | rewrite Z.sub_diag; simpl; lia ].
      unfold bounded. rewrite Can. simpl. apply Z.leb_le. exact Le.
    + apply RR_inf with (m := p2) (e := e1); [exact Can | lia | lia | rewrite Z.sub_diag; simpl; lia].
  - assert (E2 : m2 = 2 ^ prec) by lia.
    assert (Dp : Zdigits2 m2 = prec + 1).
    { apply Zdigits2_unique; [lia|]. replace (prec + 1 - 1) with prec by lia.
      split; [lia|]. rewrite E2. apply pow2_lt; lia. }
    assert (Hs : fexp (Zdigits2 m2 + e1) - e1 = 1) by (rewrite Dp; unfold SpecFloat.fexp; lia).
    rewrite Hs in *. change (Z.max 0 1) with 1 in *. change (2 ^ 1) with 2 in M3.
    assert (M3' : shr_m r3 = 2 ^ (prec - 1)) by (rewrite M3, E2, T; apply Z.div_mul; lia).
    rewrite M3'. rewrite T in E2.
    destruct (2 ^ (prec - 1)) as [|p3|p3] eqn:E3p; try lia.
    assert (Can : canonical_mantissa prec emax p3 (e1 + 1) = true).
    { unfold canonical_mantissa. apply Z.eqb_eq.
      assert (Zdigits2 (Zpos p3) = prec).
      { apply Zdigits2_unique; [lia|]. rewrite <- E3p. split; [lia|]. apply pow2_lt; lia. }
      simpl Zdigits2 in H. rewrite H. unfold SpecFloat.fexp. lia. }
    destruct (Z.leb_spec (e1 + 1) (emax - prec)) as [Le|Gt].
    + apply RR_finite; [ | lia | ].
      * unfold bounded. rewrite Can. simpl. apply Z.leb_le. exact Le.
      * replace (e1 + 1 - e1) with 1 by lia. change (2 ^ 1) with 2. lia.
    + apply RR_inf with (m := p3) (e := e1 + 1); [exact Can | lia | lia | ].
      replace (e1 + 1 - e1) with 1 by lia. change (2 ^ 1) with 2. lia.
Qed.

(** The mantissa kept after the first shift has at most [prec] digits, and
    exactly [prec] above the subnormal range. *)
Lemma kept_mantissa_bounds (mx ex : Z) :
  0 <= mx -> ex <= fexp (Zdigits2 mx + ex) ->
  let e1 := fexp (Zdigits2 mx + ex) in
  mx / 2 ^ (e1 - ex) < 2 ^ prec /\ (e1 <> emin -> 2 ^ (prec - 1) <= mx / 2 ^ (e1 - ex)).
Proof.
  intros Hmx Hk e1. set (k := e1 - ex). assert (Kk : 0 <= k) by (unfold k, e1; lia).
  pose proof (pow2_pos k Kk) as Pk. split.
  - destruct (Z.eq_dec mx 0) as [->|Hnz].
    + rewrite Z.div_0_l by lia. apply pow2_pos; lia.
    + destruct (Zdigits2_bounds mx) as [D0 [D1 D2]]; [lia|].
      assert (Zdigits2 mx - k <= prec) by (unfold k, e1, SpecFloat.fexp; lia).
      destruct (Z_lt_le_dec (Zdigits2 mx) k) as [L|L].
      * rewrite Z.div_small; [apply pow2_pos; lia|].
        split; [lia|]. assert (2 ^ Zdigits2 mx <= 2 ^ k) by (apply pow2_le; lia). lia.
      * apply Z.div_lt_upper_bound; [lia|].
        rewrite <- pow2_add by lia.
        assert (2 ^ Zdigits2 mx <= 2 ^ (k + prec)) by (apply pow2_le; lia). lia.
  - intros Em.
    assert (Ek : e1 = Zdigits2 mx + ex - prec) by (unfold e1, SpecFloat.fexp in *; lia).
    assert (mx <> 0) by (intros Z0; rewrite Z0 in Ek; simpl in Ek; unfold k in Kk; lia).
    destruct (Zdigits2_bounds mx) as [Dx0 [Dx1 Dx2]]; [lia|].
    assert (Kd : Zdigits2 mx - 1 = (prec - 1) + k) by (unfold k; lia).
    apply Z.div_le_lower_bound; [lia|].
    rewrite Z.mul_comm, <- pow2_add by lia. rewrite <- Kd. exact Dx1.
Qed.

(** [binary_round_aux] rounds the exact value [N / D * 2^ex] to the nearest
    multiple of [2^e1], ties to even, [e1] the exponent of the format there. *)
Lemma binary_round_aux_nearest (s : bool) (N D ex : Z) :
  0 <= N -> 0 < D ->
  ex <= fexp (Zdigits2 (N / D) + ex) ->
  let e1 := fexp (Zdigits2 (N / D) + ex) in
  round_result prec emax s (RNE N (D * 2 ^ (e1 - ex))) e1
    (binary_round_aux prec emax s (N / D) ex (locq N D)).
Proof.
  intros HN HD Hk e1.
  set (k := e1 - ex). assert (Kk : 0 <= k) by (unfold k, e1; lia).
  pose proof (pow2_pos k Kk) as Pk.
  rewrite binary_round_aux_finish. unfold shr_fexp. fold e1. fold k.
  change (shr_record_of_loc (N / D) (locq N D)) with (rec_of N D).
  rewrite shr_rec_of by assumption. simpl fst. simpl snd.
  replace (Z.max 0 k) with k by lia. replace (ex + k) with e1 by (unfold k; lia).
  rewrite rec_of_RNE.
  pose proof (RNE_range N (D * 2 ^ k)) as Rg.
  assert (Ed : N / (D * 2 ^ k) = N / D / 2 ^ k) by (rewrite Z.div_div by lia; reflexivity).
  rewrite Ed in Rg.
  assert (Hmx : 0 <= N / D) by (apply Z.div_pos; lia).
  assert (Hm1 : 0 <= N / D / 2 ^ k) by (apply Z.div_pos; lia).
  destruct (kept_mantissa_bounds (N / D) ex Hmx Hk) as [B1 B2]. fold e1 in B1, B2. fold k in B1, B2.
  apply round_finish_spec; [apply fexp_ge_emin | lia | intros Em; specialize (B2 Em); lia].
Qed.

Lemma round_result_value (m2 e1 : Z) (r : spec_float) :
  round_result prec emax false m2 e1 r -> nonneg r = true ->
  (SF2Q r == inject_Z m2 * pow2 e1)%Q.
Proof.
  intros RR Nr. inversion RR as [Z2 Er | m e Bd Le Ev Er | m e Cn Ov Le Ev Er];
    rewrite <- Er in Nr; try discriminate.
  - rewrite Z2. simpl. ring.
  - simpl SF2Q. apply (dy_eq e1); try lia. rewrite Z.sub_diag. change (2 ^ 0) with 1. lia.
Qed.

(** Rounding is monotone: a smaller exact value never rounds to a larger
    float (both results finite). *)
Lemma round_aux_mono (N1 D1 ex1 N2 D2 ex2 : Z) :
  0 <= N1 -> 0 < D1 -> 0 <= N2 -> 0 < D2 ->
  ex1 <= fexp (Zdigits2 (N1 / D1) + ex1) ->
  ex2 <= fexp (Zdigits2 (N2 / D2) + ex2) ->
  (inject_Z (N1 * D2) * pow2 ex1 <= inject_Z (N2 * D1) * pow2 ex2)%Q ->
  nonneg (binary_round_aux prec emax false (N1 / D1) ex1 (locq N1 D1)) = true ->
  nonneg (binary_round_aux prec emax false (N2 / D2) ex2 (locq N2 D2)) = true ->
  (SF2Q (binary_round_aux prec emax false (N1 / D1) ex1 (locq N1 D1))
   <= SF2Q (binary_round_aux prec emax false (N2 / D2) ex2 (locq N2 D2)))%Q.
Proof.
  intros HN1 HD1 HN2 HD2 K1 K2 Hv Nr1 Nr2.
  rewrite (round_result_value _ _ _ (binary_round_aux_nearest false N1 D1 ex1 HN1 HD1 K1) Nr1).
  rewrite (round_result_value _ _ _ (binary_round_aux_nearest false N2 D2 ex2 HN2 HD2 K2) Nr2).
  set (e1 := fexp (Zdigits2 (N1 / D1) + ex1)) in *.
  set (e2 := fexp (Zdigits2 (N2 / D2) + ex2)) in *.
  set (k1 := e1 - ex1). set (k2 := e2 - ex2).
  assert (Kk1 : 0 <= k1) by (unfold k1; lia). assert (Kk2 : 0 <= k2) by (unfold k2; lia).
  pose proof (pow2_pos k1 Kk1) as P1. pose proof (pow2_pos k2 Kk2) as P2.
  assert (Hq1 : 0 <= N1 / D1) by (apply Z.div_pos; lia).
  assert (Hq2 : 0 <= N2 / D2) by (apply Z.div_pos; lia).
  destruct (kept_mantissa_bounds (N1 / D1) ex1 Hq1 K1) as [U1 L1].
  destruct (kept_mantissa_bounds (N2 / D2) ex2 Hq2 K2) as [U2 L2].
  fold e1 in U1, L1. fold e2 in U2, L2. fold k1 in U1, L1. fold k2 in U2, L2.
  pose proof (RNE_range N1 (D1 * 2 ^ k1)) as R1.
  pose proof (RNE_range N2 (D2 * 2 ^ k2)) as R2.
  rewrite <- Z.div_div in R1, R2 by lia.
  pose proof (fexp_ge_emin prec emax (Zdigits2 (N1 / D1) + ex1)) as M1. fold e1 in M1.
  pose proof (fexp_ge_emin prec emax (Zdigits2 (N2 / D2) + ex2)) as M2. fold e2 in M2.
  pose proof (pow2_pos (prec - 1) ltac:(lia)) as Pp.
  assert (T : 2 ^ prec = 2 ^ (prec - 1) * 2).
  { replace prec with ((prec - 1) + 1) at 1 by lia. rewrite pow2_add by lia. reflexivity. }
  destruct (Z.lt_trichotomy e1 e2) as [Lt | [Eq | Gt]].
  - (* the second value lies in a higher binade *)
    apply (dy_le_iff e1); try lia. replace (e1 - e1) with 0 by lia. change (2 ^ 0) with 1.
    specialize (L2 ltac:(lia)).
    replace (e2 - e1) with ((e2 - e1 - 1) + 1) by lia. rewrite pow2_add by lia.
    pose proof (pow2_pos (e2 - e1 - 1) ltac:(lia)). change (2 ^ 1) with 2. nia.
  - (* same exponent: the nearest integers are ordered *)
    apply (dy_le_iff e1); try lia. replace (e2 - e1) with 0 by lia. replace (e1 - e1) with 0 by lia.
    change (2 ^ 0) with 1.
    rewrite !Z.mul_1_r. apply RNE_mono; [lia | nia | nia |].
    apply (dy_le_iff (ex1 + ex2 - e1)) in Hv; try lia.
    replace (ex1 - (ex1 + ex2 - e1)) with k2 in Hv by (unfold k2; lia).
    replace (ex2 - (ex1 + ex2 - e1)) with k1 in Hv by (unfold k1; lia).
    fold k1 k2. nia.
  - (* impossible: the first value would be the larger one *)
    exfalso. specialize (L1 ltac:(lia)).
    set (c := Z.min ex1 ex2) in *.
    apply (dy_le_iff c) in Hv; try (unfold c; lia).
    pose proof (Z.mul_div_le (N1 / D1) (2 ^ k1) P1) as F1.
    pose proof (Z.mul_div_le N1 D1 HD1) as G1.
    pose proof (Z.mod_pos_bound (N2 / D2) (2 ^ k2) P2) as F2.
    pose proof (Z.div_mod (N2 / D2) (2 ^ k2) ltac:(lia)) as F2'.
    pose proof (Z.mod_pos_bound N2 D2 HD2) as G2.
    pose proof (Z.div_mod N2 D2 ltac:(lia)) as G2'.
    pose proof (pow2_pos (ex1 - c) ltac:(unfold c; lia)) as Pc1.
    pose proof (pow2_pos (ex2 - c) ltac:(unfold c; lia)) as Pc2.
    (* lower bound of the first value, upper bound of the second *)
    assert (A1 : 2 ^ (prec - 1) * 2 ^ (e1 - c) <= (N1 / D1) * 2 ^ (ex1 - c)).
    { replace (e1 - c) with (k1 + (ex1 - c)) by (unfold k1; lia).
      rewrite pow2_add by (unfold c; lia).
      assert (2 ^ (prec - 1) * 2 ^ k1 <= N1 / D1).
      { apply Z.le_trans with (m := 2 ^ k1 * (N1 / D1 / 2 ^ k1)); [|exact F1].
        rewrite Z.mul_comm. apply Z.mul_le_mono_nonneg_l; lia. }
      rewrite Z.mul_assoc. apply Z.mul_le_mono_nonneg_r; lia. }
    assert (A2 : (N2 / D2 + 1) * 2 ^ (ex2 - c) <= 2 ^ prec * 2 ^ (e2 - c)).
    { replace (e2 - c) with (k2 + (ex2 - c)) by (unfold k2; lia).
      rewrite pow2_add by (unfold c; lia).
      assert (N2 / D2 + 1 <= 2 ^ prec * 2 ^ k2).
      { assert (N2 / D2 / 2 ^ k2 + 1 <= 2 ^ prec) by lia.
        assert (2 ^ k2 * (N2 / D2 / 2 ^ k2 + 1) <= 2 ^ k2 * 2 ^ prec)
          by (apply Z.mul_le_mono_nonneg_l; lia).
        lia. }
      rewrite Z.mul_assoc. apply Z.mul_le_mono_nonneg_r; lia. }
    assert (A3 : 2 ^ prec * 2 ^ (e2 - c) <= 2 ^ (prec - 1) * 2 ^ (e1 - c)).
    { replace (e1 - c) with ((e1 - e2 - 1) + 1 + (e2 - c)) by lia.
      rewrite !pow2_add by (unfold c; lia). change (2 ^ 1) with 2.
      pose proof (pow2_pos (e1 - e2 - 1) ltac:(lia)).
      pose proof (pow2_pos (e2 - c) ltac:(unfold c; lia)).
      rewrite T. nia. }
    assert (A : (N2 / D2 + 1) * 2 ^ (ex2 - c) <= (N1 / D1) * 2 ^ (ex1 - c)) by lia.
    assert (B1 : (N1 / D1) * D1 <= N1) by lia.
    assert (B2 : N2 < (N2 / D2 + 1) * D2) by lia.
    assert (C1 : (N1 / D1) * 2 ^ (ex1 - c) * (D1 * D2) <= N1 * D2 * 2 ^ (ex1 - c)).
    { replace ((N1 / D1) * 2 ^ (ex1 - c) * (D1 * D2))
        with (((N1 / D1) * D1) * (D2 * 2 ^ (ex1 - c))) by ring.
      replace (N1 * D2 * 2 ^ (ex1 - c)) with (N1 * (D2 * 2 ^ (ex1 - c))) by ring.
      apply Z.mul_le_mono_nonneg_r; [nia | lia]. }
    assert (C2 : N2 * D1 * 2 ^ (ex2 - c) < (N2 / D2 + 1) * 2 ^ (ex2 - c) * (D1 * D2)).
    { replace ((N2 / D2 + 1) * 2 ^ (ex2 - c) * (D1 * D2))
        with (((N2 / D2 + 1) * D2) * (D1 * 2 ^ (ex2 - c))) by ring.
      replace (N2 * D1 * 2 ^ (ex2 - c)) with (N2 * (D1 * 2 ^ (ex2 - c))) by ring.
      apply Z.mul_lt_mono_pos_r; [nia | lia]. }
    assert (C3 : (N2 / D2 + 1) * 2 ^ (ex2 - c) * (D1 * D2)
                 <= (N1 / D1) * 2 ^ (ex1 - c) * (D1 * D2))
      by (apply Z.mul_le_mono_nonneg_r; [nia | lia]).
    lia.
Qed.

End Nearest.

Lemma SF2Q_finite_pos (m : positive) (e : Z) : (0 < SF2Q (S754_finite false m e))%Q.
Proof.
  simpl. apply Qmult_lt_0_compat; [reflexivity | apply Qpow2_pos].
Qed.

Section Monotone.
Variables prec emax : Z.
Hypothesis Hprec : 0 < prec.
Hypothesis Hemax : prec < emax.

Local Abbreviation fexp := (fexp prec emax).
Local Abbreviation emin := (emin prec emax).

Lemma locq_one (m : Z) : locq m 1 = loc_Exact /\ m / 1 = m.
Proof. unfold locq. rewrite Z.mod_1_r, Z.div_1_r. split; reflexivity. Qed.

(** Monotonicity for two exact dyadic inputs under a common bound. *)
Lemma round_exact_mono (m1 e1 m2 e2 : Z) (F : spec_float) :
  0 <= m1 -> 0 <= m2 ->
  e1 <= fexp (Zdigits2 m1 + e1) -> e2 <= fexp (Zdigits2 m2 + e2) ->
  is_bound prec emax F = true ->
  (inject_Z m1 * pow2 e1 <= inject_Z m2 * pow2 e2)%Q ->
  (inject_Z m2 * pow2 e2 <= SF2Q F)%Q ->
  (SF2Q (binary_round_aux prec emax false m1 e1 loc_Exact)
   <= SF2Q (binary_round_aux prec emax false m2 e2 loc_Exact))%Q.
Proof.
  intros H1 H2 K1 K2 HF Hv Hb.
  assert (B1 : le_bound prec emax (binary_round_aux prec emax false m1 e1 loc_Exact) F).
  { apply (round_aux_le_bound prec emax Hprec); try assumption.
    - eapply Qle_trans; eassumption.
    - simpl. discriminate. }
  assert (B2 : le_bound prec emax (binary_round_aux prec emax false m2 e2 loc_Exact) F).
  { apply (round_aux_le_bound prec emax Hprec); try assumption. simpl. discriminate. }
  destruct B1 as [N1 _]. destruct B2 as [N2 _].
  destruct (locq_one m1) as [L1 Q1]. destruct (locq_one m2) as [L2 Q2].
  pose proof (round_aux_mono prec emax Hprec m1 1 e1 m2 1 e2) as M.
  rewrite L1, L2, Q1, Q2, !Z.mul_1_r in M.
  apply M; try assumption; lia.
Qed.

Lemma mul_enough_digits (mx my : positive) (ex ey : Z) :
  fexp (Zdigits2 (Zpos mx) + ex) = ex ->
  fexp (Zdigits2 (Zpos my) + ey) = ey ->
  ex + ey <= fexp (Zdigits2 (Zpos (mx * my)) + (ex + ey)).
Proof.
  intros Cx Cy.
  pose proof (Zdigits2_mul (Zpos mx) (Zpos my) ltac:(lia) ltac:(lia)) as D.
  destruct (Zdigits2_bounds (Zpos mx)) as [Dx _]; [lia|].
  destruct (Zdigits2_bounds (Zpos my)) as [Dy _]; [lia|].
  rewrite Pos2Z.inj_mul.
  unfold SpecFloat.fexp, SpecFloat.emin in *. lia.
Qed.

Lemma mul_value (mx my : positive) (ex ey : Z) :
  (inject_Z (Zpos (mx * my)) * pow2 (ex + ey)
   == SF2Q (S754_finite false mx ex) * SF2Q (S754_finite false my ey))%Q.
Proof. simpl. rewrite Pos2Z.inj_mul, inject_Z_mult, Qpow2_add. ring. Qed.

(** The rounded product of non-negative floats is monotone in both factors. *)
Lemma SFmul_mono (x y x' y' F : spec_float) :
  nonneg x = true -> valid_binary prec emax x = true ->
  nonneg y = true -> valid_binary prec emax y = true ->
  nonneg x' = true -> valid_binary prec emax x' = true ->
  nonneg y' = true -> valid_binary prec emax y' = true ->
  (SF2Q x <= SF2Q x')%Q -> (SF2Q y <= SF2Q y')%Q ->
  is_bound prec emax F = true ->
  (SF2Q x' * SF2Q y' <= SF2Q F)%Q ->
  (SF2Q (SFmul prec emax x y) <= SF2Q (SFmul prec emax x' y'))%Q.
Proof.
  intros Nx Vx Ny Vy Nx' Vx' Ny' Vy' Lx Ly HF Hle.
  pose proof (SFmul_le_bound prec emax Hprec Hemax x' y' F Nx' Vx' Ny' Vy' HF Hle) as [N' _].
  apply nonneg_SF2Q in N'.
  destruct x as [[|] | | | [|] mx ex]; try discriminate;
    destruct y as [[|] | | | [|] my ey]; try discriminate; try exact N'.
  pose proof (SF2Q_finite_pos mx ex) as Px. pose proof (SF2Q_finite_pos my ey) as Py.
  destruct x' as [[|] | | | [|] mx' ex']; try discriminate;
    [simpl in Lx, Px; lra|].
  destruct y' as [[|] | | | [|] my' ey']; try discriminate;
    [simpl in Ly, Py; lra|].
  simpl SFmul. simpl in Vx, Vy, Vx', Vy'.
  destruct (bounded_canonical _ _ _ _ Vx) as [Cx _].
  destruct (bounded_canonical _ _ _ _ Vy) as [Cy _].
  destruct (bounded_canonical _ _ _ _ Vx') as [Cx' _].
  destruct (bounded_canonical _ _ _ _ Vy') as [Cy' _].
  apply canonical_fexp in Cx, Cy, Cx', Cy'.
  apply (round_exact_mono _ _ _ _ F); try assumption; try lia.
  - apply mul_enough_digits; assumption.
  - apply mul_enough_digits; assumption.
  - rewrite !mul_value.
    apply Qle_trans with (SF2Q (S754_finite false mx' ex') * SF2Q (S754_finite false my ey))%Q.
    + apply Qmult_le_compat_r; [exact Lx | lra].
    + rewrite (Qmult_comm _ (SF2Q (S754_finite false my ey))).
      rewrite (Qmult_comm _ (SF2Q (S754_finite false my' ey'))).
      apply Qmult_le_compat_r; [exact Ly|].
      pose proof (SF2Q_finite_pos mx' ex'). lra.
  - rewrite mul_value. exact Hle.
Qed.

Lemma binary_round_as_aux (mx : positive) (ex : Z) :
  exists mz ez,
    binary_round prec emax false mx ex = binary_round_aux prec emax false (Zpos mz) ez loc_Exact /\
    ez <= fexp (Zdigits2 (Zpos mz) + ez) /\
    (inject_Z (Zpos mz) * pow2 ez == inject_Z (Zpos mx) * pow2 ex)%Q.
Proof.
  unfold binary_round.
  destruct (shl_align_spec mx ex (fexp (Zpos (digits2_pos mx) + ex))) as [Ez Mz].
  destruct (shl_align mx ex (fexp (Zpos (digits2_pos mx) + ex))) as [mz ez].
  simpl fst in Mz. simpl snd in Ez. rewrite <- Ez in Mz.
  assert (Hez : ez <= ex) by lia.
  assert (Dz : Zdigits2 (Zpos mz) + ez = Zdigits2 (Zpos mx) + ex).
  { rewrite Mz, Zdigits2_shift by lia. lia. }
  exists mz, ez. split; [reflexivity|]. split.
  - rewrite Dz. simpl Zdigits2. lia.
  - apply (dy_eq ez); try lia. rewrite Z.sub_diag. change (2 ^ 0) with 1. lia.
Qed.

(** Rounding an exact non-negative dyadic number is monotone. *)
Lemma binary_normalize_mono (m1 e1 m2 e2 : Z) (F : spec_float) :
  0 <= m1 -> 0 <= m2 ->
  is_bound prec emax F = true ->
  (inject_Z m1 * pow2 e1 <= inject_Z m2 * pow2 e2)%Q ->
  (inject_Z m2 * pow2 e2 <= SF2Q F)%Q ->
  (SF2Q (binary_normalize prec emax m1 e1 false)
   <= SF2Q (binary_normalize prec emax m2 e2 false))%Q.
Proof.
  intros H1 H2 HF Hv Hb.
  pose proof (binary_normalize_le_bound prec emax Hprec m2 e2 F H2 HF Hb) as [N2 _].
  apply nonneg_SF2Q in N2.
  destruct m1 as [|p1|p1]; [exact N2 | | lia].
  destruct m2 as [|p2|p2]; [ | | lia].
  - exfalso. assert (0 < inject_Z (Zpos p1) * pow2 e1)%Q.
    { apply (SF2Q_finite_pos p1 e1). }
    change (inject_Z 0) with 0%Q in Hv. lra.
  - simpl binary_normalize.
    destruct (binary_round_as_aux p1 e1) as (z1 & f1 & E1 & K1 & V1).
    destruct (binary_round_as_aux p2 e2) as (z2 & f2 & E2 & K2 & V2).
    rewrite E1, E2.
    apply (round_exact_mono _ _ _ _ F); try assumption; try lia.
    + rewrite V1, V2. exact Hv.
    + rewrite V2. exact Hb.
Qed.

(** Rounding a number that is already a float of the format returns its value. *)
Lemma binary_normalize_id (m : positive) (e : Z) :
  bounded prec emax m e = true ->
  (SF2Q (binary_normalize prec emax (Zpos m) e false) == inject_Z (Zpos m) * pow2 e)%Q.
Proof.
  intros B. simpl binary_normalize.
  assert (HF : is_bound prec emax (S754_finite false m e) = true) by exact B.
  pose proof (binary_round_le_bound prec emax Hprec m e _ HF ltac:(simpl; apply Qle_refl)) as [N _].
  destruct (bounded_canonical _ _ _ _ B) as [C _]. apply canonical_fexp in C.
  revert N. unfold binary_round.
  change (Zpos (digits2_pos m)) with (Zdigits2 (Zpos m)). rewrite C.
  unfold shl_align. rewrite Z.sub_diag. simpl fst. simpl snd. intros N.
  destruct (locq_one (Zpos m)) as [L Q1].
  pose proof (binary_round_aux_nearest prec emax Hprec false (Zpos m) 1 e
                ltac:(lia) ltac:(lia)) as R.
  rewrite L, Q1, C in R. specialize (R ltac:(lia)). cbv zeta in R.
  rewrite Z.sub_diag in R. change (1 * 2 ^ 0) with 1 in R.
  unfold RNE in R. rewrite L, Q1 in R. simpl round_nearest_even in R.
  apply (round_result_value _ _ _ _ _ R N).
Qed.

End Monotone.

Lemma new_location_locq (N D : Z) :
  0 < D -> new_location D (N mod D) = locq N D.
Proof.
  intros HD. unfold new_location, new_location_even, new_location_odd, locq.
  destruct (Z.even D) eqn:Ev; destruct (N mod D =? 0) eqn:E0; try reflexivity.
  f_equal.
  assert (Od : Z.odd D = true) by (rewrite <- Z.negb_even, Ev; reflexivity).
  apply Z.odd_spec in Od. destruct Od as [h Hh].
  destruct (Z.compare_spec (2 * (N mod D) + 1) D);
    destruct (Z.compare_spec (2 * (N mod D)) D); try reflexivity; lia.
Qed.

Section MonotoneOps.
Variables prec emax : Z.
Hypothesis Hprec : 0 < prec.
Hypothesis Hemax : prec < emax.

Local Abbreviation fexp := (fexp prec emax).

(** A sum of non-negative floats is the rounding of the exact sum. *)
Lemma SFadd_form (x y : spec_float) :
  nonneg x = true -> valid_binary prec emax x = true ->
  nonneg y = true -> valid_binary prec emax y = true ->
  exists S e, 0 <= S /\ (inject_Z S * pow2 e == SF2Q x + SF2Q y)%Q /\
    (SF2Q (SFadd prec emax x y) == SF2Q (binary_normalize prec emax S e false))%Q.
Proof.
  intros Nx Vx Ny Vy.
  destruct x as [[|] | | | [|] mx ex]; try discriminate;
    destruct y as [[|] | | | [|] my ey]; try discriminate.
  - exists 0, 0. split; [lia|]. split; simpl; [ring | apply Qeq_refl].
  - exists (Zpos my), ey. split; [lia|]. split; [simpl; ring|].
    rewrite (binary_normalize_id prec emax Hprec my ey Vy). simpl. apply Qeq_refl.
  - exists (Zpos mx), ex. split; [lia|]. split; [simpl; ring|].
    rewrite (binary_normalize_id prec emax Hprec mx ex Vx). simpl. apply Qeq_refl.
  - unfold SFadd. cbv zeta. simpl cond_Zopp.
    set (ez := Z.min ex ey).
    pose proof (aligned_value mx ex ez ltac:(unfold ez; lia)) as Ax.
    pose proof (aligned_value my ey ez ltac:(unfold ez; lia)) as Ay.
    eexists _, ez. split; [|split; [|apply Qeq_refl]]; [lia|].
    rewrite inject_Z_plus. simpl SF2Q. lra.
Qed.

Lemma SFadd_mono (x y x' y' F : spec_float) :
  nonneg x = true -> valid_binary prec emax x = true ->
  nonneg y = true -> valid_binary prec emax y = true ->
  nonneg x' = true -> valid_binary prec emax x' = true ->
  nonneg y' = true -> valid_binary prec emax y' = true ->
  (SF2Q x <= SF2Q x')%Q -> (SF2Q y <= SF2Q y')%Q ->
  is_bound prec emax F = true ->
  (SF2Q x' + SF2Q y' <= SF2Q F)%Q ->
  (SF2Q (SFadd prec emax x y) <= SF2Q (SFadd prec emax x' y'))%Q.
Proof.
  intros Nx Vx Ny Vy Nx' Vx' Ny' Vy' Lx Ly HF Hle.
  destruct (SFadd_form x y Nx Vx Ny Vy) as (S & e & HS & ES & ->).
  destruct (SFadd_form x' y' Nx' Vx' Ny' Vy') as (S' & e' & HS' & ES' & ->).
  apply (binary_normalize_mono prec emax Hprec _ _ _ _ F); try assumption; lra.
Qed.

(** A difference of non-negative floats, the larger first, is the rounding
    of the exact difference. *)
Lemma SFsub_form (x y : spec_float) :
  nonneg x = true -> valid_binary prec emax x = true ->
  nonneg y = true -> valid_binary prec emax y = true ->
  (SF2Q y <= SF2Q x)%Q ->
  exists S e, 0 <= S /\ (inject_Z S * pow2 e == SF2Q x - SF2Q y)%Q /\
    (SF2Q (SFsub prec emax x y) == SF2Q (binary_normalize prec emax S e false))%Q.
Proof.
  intros Nx Vx Ny Vy Hyx.
  destruct x as [[|] | | | [|] mx ex]; try discriminate;
    destruct y as [[|] | | | [|] my ey]; try discriminate.
  - exists 0, 0. split; [lia|]. split; simpl; [ring | apply Qeq_refl].
  - exfalso. pose proof (SF2Q_finite_pos my ey) as P. simpl in Hyx, P. lra.
  - exists (Zpos mx), ex. split; [lia|]. split; [simpl; ring|].
    rewrite (binary_normalize_id prec emax Hprec mx ex Vx). simpl. apply Qeq_refl.
  - unfold SFsub. cbv zeta. simpl cond_Zopp.
    set (ez := Z.min ex ey).
    pose proof (aligned_value mx ex ez ltac:(unfold ez; lia)) as Ax.
    pose proof (aligned_value my ey ez ltac:(unfold ez; lia)) as Ay.
    simpl SF2Q in Hyx.
    set (a := Zpos (fst (shl_align mx ex ez))) in *.
    set (b := Zpos (fst (shl_align my ey ez))) in *.
    assert (Hab : b <= a).
    { assert (L : (inject_Z b * pow2 ez <= inject_Z a * pow2 ez)%Q) by lra.
      apply (dy_le_iff ez) in L; try lia.
      rewrite Z.sub_diag in L. change (2 ^ 0) with 1 in L. lia. }
    exists (a + - b), ez. split; [lia|]. split; [|apply Qeq_refl].
    rewrite inject_Z_plus, inject_Z_opp. simpl SF2Q. lra.
Qed.

Lemma SFsub_mono (x y x' y' F : spec_float) :
  nonneg x = true -> valid_binary prec emax x = true ->
  nonneg y = true -> valid_binary prec emax y = true ->
  nonneg x' = true -> valid_binary prec emax x' = true ->
  nonneg y' = true -> valid_binary prec emax y' = true ->
  (SF2Q x <= SF2Q x')%Q -> (SF2Q y' <= SF2Q y)%Q -> (SF2Q y <= SF2Q x)%Q ->
  is_bound prec emax F = true ->
  (SF2Q x' - SF2Q y' <= SF2Q F)%Q ->
  (SF2Q (SFsub prec emax x y) <= SF2Q (SFsub prec emax x' y'))%Q.
Proof.
  intros Nx Vx Ny Vy Nx' Vx' Ny' Vy' Lx Ly Hyx HF Hle.
  destruct (SFsub_form x y Nx Vx Ny Vy Hyx) as (S & e & HS & ES & ->).
  destruct (SFsub_form x' y' Nx' Vx' Ny' Vy' ltac:(lra)) as (S' & e' & HS' & ES' & ->).
  apply (binary_normalize_mono prec emax Hprec _ _ _ _ F); try assumption; lra.
Qed.

(** A quotient of positive floats is the rounding of an exact ratio. *)
Lemma SFdiv_form (mx my : positive) (ex ey : Z) :
  exists N e', 0 <= N /\ e' <= fexp (Zdigits2 (N / Zpos my) + e') /\
    SFdiv prec emax (S754_finite false mx ex) (S754_finite false my ey)
    = binary_round_aux prec emax false (N / Zpos my) e' (locq N (Zpos my)) /\
    (inject_Z N * pow2 e' * pow2 ey == SF2Q (S754_finite false mx ex))%Q.
Proof.
  unfold SFdiv, SFdiv_core_binary. cbv zeta.
  set (e' := Z.min (fexp (Zdigits2 (Zpos mx) + ex - (Zdigits2 (Zpos my) + ey))) (ex - ey)).
  set (s := ex - ey - e').
  assert (Hs : 0 <= s) by (unfold s, e'; lia).
  set (m' := match s with Zpos _ => Z.shiftl (Zpos mx) s | Z0 => Zpos mx | Zneg _ => 0 end).
  assert (Hm' : m' = Zpos mx * 2 ^ s).
  { unfold m'. destruct s as [|p|p]; [simpl; lia | | lia].
    rewrite Z.shiftl_mul_pow2 by lia. reflexivity. }
  pose proof (pow2_pos s Hs) as Ps.
  pose proof (Z_div_mod m' (Zpos my) ltac:(lia)) as DM.
  assert (Hq : fst (Z.div_eucl m' (Zpos my)) = m' / Zpos my) by reflexivity.
  assert (Hr : snd (Z.div_eucl m' (Zpos my)) = m' mod Zpos my) by reflexivity.
  destruct (Z.div_eucl m' (Zpos my)) as [q r] eqn:Eqr.
  simpl in Hq, Hr. subst q r. clear DM.
  simpl xorb.
  exists m', e'. split; [lia|]. split; [|split].
  - assert (D : Zdigits2 m' - Zdigits2 (Zpos my) <= Zdigits2 (m' / Zpos my))
      by (apply Zdigits2_div; lia).
    rewrite Hm', Zdigits2_shift in D by lia. rewrite <- Hm' in D.
    assert (M : fexp (Zdigits2 (Zpos mx) + ex - (Zdigits2 (Zpos my) + ey))
                <= fexp (Zdigits2 (m' / Zpos my) + e'))
      by (apply fexp_mono; unfold s in D; lia).
    unfold e' at 1. lia.
  - rewrite new_location_locq by lia. reflexivity.
  - simpl SF2Q. rewrite <- Qmult_assoc, <- Qpow2_add.
    rewrite (Qpow2_split (e' + ey) ex) by (unfold s in Hs; lia).
    rewrite Hm', inject_Z_mult. replace (ex - (e' + ey)) with s by (unfold s; lia). ring.
Qed.

Lemma SFdiv_mono (x x' y F : spec_float) :
  nonneg x = true -> nonneg x' = true ->
  is_bound prec emax y = true ->
  (SF2Q x <= SF2Q x')%Q ->
  is_bound prec emax F = true ->
  (SF2Q x' <= SF2Q F * SF2Q y)%Q ->
  (SF2Q (SFdiv prec emax x y) <= SF2Q (SFdiv prec emax x' y))%Q.
Proof.
  intros Nx Nx' Hy Lx HF Hle.
  pose proof (SFdiv_le_bound prec emax Hprec x y F Nx Hy HF ltac:(lra)) as [N1 _].
  pose proof (SFdiv_le_bound prec emax Hprec x' y F Nx' Hy HF Hle) as [N2 _].
  destruct (is_bound_inv _ _ y Hy) as [my [ey [-> _]]].
  destruct x as [[|] | | | [|] mx ex]; try discriminate.
  { simpl SFdiv. simpl SF2Q at 1. apply nonneg_SF2Q. exact N2. }
  pose proof (SF2Q_finite_pos mx ex) as Px.
  destruct x' as [[|] | | | [|] mx' ex']; try discriminate;
    [simpl in Lx, Px; lra|].
  destruct (SFdiv_form mx my ex ey) as (A & ea & HA & KA & EA & VA).
  destruct (SFdiv_form mx' my ex' ey) as (B & eb & HB & KB & EB & VB).
  rewrite EA in N1 |- *. rewrite EB in N2 |- *.
  apply (round_aux_mono prec emax Hprec); try assumption; try lia.
  rewrite <- VA, <- VB in Lx.
  pose proof (Qpow2_pos ey) as Pe.
  rewrite !inject_Z_mult.
  assert (Py : (0 < inject_Z (Zpos my))%Q) by reflexivity.
  assert (T : (inject_Z A * pow2 ea <= inject_Z B * pow2 eb)%Q).
  { apply Qmult_le_r with (z := pow2 ey); assumption. }
  setoid_replace (inject_Z A * inject_Z (Zpos my) * pow2 ea)%Q
    with ((inject_Z A * pow2 ea) * inject_Z (Zpos my))%Q by ring.
  setoid_replace (inject_Z B * inject_Z (Zpos my) * pow2 eb)%Q
    with ((inject_Z B * pow2 eb) * inject_Z (Zpos my))%Q by ring.
  apply Qmult_le_compat_r; [exact T | apply Qlt_le_weak; exact Py].
Qed.

End MonotoneOps.

(** ** Conversions to integers as ratios *)

Lemma round_half_even_shift_RNE (m : Z) (k : positive) :
  round_half_even_shift m (Zpos k) = RNE m (2 ^ Zpos k).
Proof.
  unfold round_half_even_shift, RNE, locq. cbv zeta.
  pose proof (pow2_pos (Zpos k) ltac:(lia)) as Pk.
  pose proof (pow2_pos (Zpos k - 1) ltac:(lia)) as Ph.
  assert (E : 2 ^ Zpos k = 2 * 2 ^ (Zpos k - 1)).
  { rewrite <- Z.pow_succ_r by lia. f_equal. lia. }
  pose proof (Z.mod_pos_bound m (2 ^ Zpos k) Pk) as MB.
  set (r := m mod 2 ^ Zpos k) in *. set (q := m / 2 ^ Zpos k).
  set (h := 2 ^ (Zpos k - 1)) in *.
  destruct (Z.eqb_spec r 0) as [R0|R0].
  - simpl. destruct (Z.ltb_spec r h); [reflexivity | lia].
  - destruct (Z.ltb_spec r h) as [L|L].
    + replace (2 * r ?= 2 ^ Zpos k) with Lt; [reflexivity|].
      symmetry. apply Z.compare_lt_iff. lia.
    + destruct (Z.ltb_spec h r) as [G|G].
      * replace (2 * r ?= 2 ^ Zpos k) with Gt; [reflexivity|].
        symmetry. apply Z.compare_gt_iff. lia.
      * replace (2 * r ?= 2 ^ Zpos k) with Eq; [simpl; destruct (Z.even q); reflexivity|].
        symmetry. apply Z.compare_eq_iff. lia.
Qed.

(** A non-negative float is a ratio of integers; [round] rounds the ratio
    to nearest-even and the cast to [uint8] takes its integer part. *)
Lemma SF_ratio (x : spec_float) :
  nonneg x = true ->
  exists N D, 0 <= N /\ 0 < D /\ (SF2Q x * inject_Z D == inject_Z N)%Q /\
    py_round x = Ok (RNE N D) /\ to_uint8 x = (N / D) mod 256.
Proof.
  intros Nx. destruct x as [[|] | | | [|] m e]; try discriminate.
  - exists 0, 1. split; [lia|]. split; [lia|]. split; [simpl; ring|].
    split; reflexivity.
  - destruct e as [|p|p].
    + exists (Zpos m), 1. split; [lia|]. split; [lia|]. split; [|split].
      * simpl. unfold pow2. simpl. ring.
      * unfold RNE. destruct (locq_one (Zpos m)) as [-> ->]. reflexivity.
      * unfold to_uint8. rewrite Z.div_1_r. reflexivity.
    + pose proof (pow2_pos (Zpos p) ltac:(lia)) as Pk.
      exists (Zpos m * 2 ^ Zpos p), 1. split; [lia|]. split; [lia|]. split; [|split].
      * simpl SF2Q. rewrite inject_Z_mult.
        rewrite (Qpow2_split 0 (Zpos p)) by lia. rewrite Z.sub_0_r.
        unfold pow2 at 1. simpl Qpower. ring.
      * unfold RNE. destruct (locq_one (Zpos m * 2 ^ Zpos p)) as [-> ->]. reflexivity.
      * unfold to_uint8. rewrite Z.div_1_r. reflexivity.
    + pose proof (pow2_pos (Zpos p) ltac:(lia)) as Pk.
      exists (Zpos m), (2 ^ Zpos p). split; [lia|]. split; [lia|]. split; [|split].
      * simpl SF2Q. rewrite <- Qmult_assoc.
        assert (E : (pow2 (Zneg p) * inject_Z (2 ^ Zpos p) == 1)%Q).
        { pose proof (Qpow2_split (Zneg p) 0 ltac:(lia)) as S.
          replace (0 - Zneg p) with (Zpos p) in S by lia.
          rewrite <- S. reflexivity. }
        rewrite E. ring.
      * unfold py_round. rewrite round_half_even_shift_RNE. reflexivity.
      * reflexivity.
Qed.

Lemma ratio_le (x y : spec_float) (N1 D1 N2 D2 : Z) :
  0 < D1 -> 0 < D2 ->
  (SF2Q x * inject_Z D1 == inject_Z N1)%Q ->
  (SF2Q y * inject_Z D2 == inject_Z N2)%Q ->
  (SF2Q x <= SF2Q y)%Q -> N1 * D2 <= N2 * D1.
Proof.
  intros H1 H2 E1 E2 L.
  rewrite Zle_Qle, !inject_Z_mult, <- E1, <- E2.
  assert (P1 : (0 <= inject_Z D1)%Q) by (change 0%Q with (inject_Z 0); rewrite <- Zle_Qle; lia).
  assert (P2 : (0 <= inject_Z D2)%Q) by (change 0%Q with (inject_Z 0); rewrite <- Zle_Qle; lia).
  setoid_replace (SF2Q x * inject_Z D1 * inject_Z D2)%Q
    with (SF2Q x * (inject_Z D1 * inject_Z D2))%Q by ring.
  setoid_replace (SF2Q y * inject_Z D2 * inject_Z D1)%Q
    with (SF2Q y * (inject_Z D1 * inject_Z D2))%Q by ring.
  apply Qmult_le_compat_r; [exact L|]. apply Qmult_le_0_compat; assumption.
Qed.

(** [round] is monotone on non-negative floats. *)
Lemma py_round_mono (x y : spec_float) :
  nonneg x = true -> nonneg y = true -> (SF2Q x <= SF2Q y)%Q ->
  exists a b, py_round x = Ok a /\ py_round y = Ok b /\ 0 <= a <= b.
Proof.
  intros Nx Ny L.
  destruct (SF_ratio x Nx) as (N1 & D1 & H1 & P1 & E1 & R1 & _).
  destruct (SF_ratio y Ny) as (N2 & D2 & H2 & P2 & E2 & R2 & _).
  exists (RNE N1 D1), (RNE N2 D2). split; [exact R1|]. split; [exact R2|].
  split.
  - pose proof (RNE_range N1 D1) as R. unfold RNE in *.
    assert (0 <= N1 / D1) by (apply Z.div_pos; lia).
    destruct (RNE_range N1 D1); lia.
  - apply RNE_mono; try lia. apply (ratio_le x y); assumption.
Qed.

(** The cast to [uint8] is monotone on non-negative floats below 256. *)
Lemma to_uint8_mono (x y : spec_float) :
  nonneg x = true -> nonneg y = true ->
  (SF2Q x <= SF2Q y)%Q -> (SF2Q y < 256)%Q ->
  to_uint8 x <= to_uint8 y.
Proof.
  intros Nx Ny L U.
  destruct (SF_ratio x Nx) as (N1 & D1 & H1 & P1 & E1 & _ & ->).
  destruct (SF_ratio y Ny) as (N2 & D2 & H2 & P2 & E2 & _ & ->).
  pose proof (ratio_le x y N1 D1 N2 D2 P1 P2 E1 E2 L) as C.
  assert (B : N2 < 256 * D2).
  { rewrite Zlt_Qlt, inject_Z_mult, <- E2.
    apply Qmult_lt_compat_r; [|exact U].
    change 0%Q with (inject_Z 0). rewrite <- Zlt_Qlt. lia. }
  assert (Q2 : N2 / D2 < 256) by (apply Z.div_lt_upper_bound; lia).
  assert (Q12 : N1 / D1 <= N2 / D2).
  { apply Z.div_le_lower_bound; [lia|].
    pose proof (Z.mul_div_le N1 D1 P1).
    assert (D1 * (D2 * (N1 / D1)) <= D1 * N2) by nia.
    apply Z.mul_le_mono_pos_l with (p := D1); lia. }
  assert (0 <= N1 / D1) by (apply Z.div_pos; lia).
  rewrite !Z.mod_small by lia. exact Q12.
Qed.

(** * The color sampler *)

Lemma f1_eq : f1 = S754_finite false 4503599627370496 (-52).
Proof. vm_compute. reflexivity. Qed.

Lemma f255_eq : f255 = S754_finite false 8972014882652160 (-45).
Proof. vm_compute. reflexivity. Qed.

Lemma f1_value : (SF2Q f1 == 1)%Q.
Proof. rewrite f1_eq. vm_compute. reflexivity. Qed.

Lemma f255_value : (SF2Q f255 == 255)%Q.
Proof. rewrite f255_eq. vm_compute. reflexivity. Qed.

Lemma f1_bound : is_bound F64.prec F64.emax f1 = true.
Proof. rewrite f1_eq. vm_compute. reflexivity. Qed.

Lemma f255_bound : is_bound F64.prec F64.emax f255 = true.
Proof. rewrite f255_eq. vm_compute. reflexivity. Qed.

Lemma is_bound_nonneg_valid (prec emax : Z) (F : spec_float) :
  is_bound prec emax F = true -> nonneg F = true /\ valid_binary prec emax F = true.
Proof. destruct F as [ | | | [|] m e]; simpl; try discriminate. auto. Qed.

Lemma le_bound_refl (prec emax : Z) (F : spec_float) :
  is_bound prec emax F = true -> le_bound prec emax F F.
Proof.
  intros H. destruct (is_bound_nonneg_valid _ _ _ H) as [N V].
  repeat split; try assumption. apply Qle_refl.
Qed.

(** [clamp01] returns a float of [0, 1], whatever it is given. *)
Lemma clamp01_unit (x : spec_float) :
  F64.valid x = true -> le_bound F64.prec F64.emax (clamp01 x) f1.
Proof.
  intros Vx. unfold clamp01, py_max, py_min, flt.
  destruct (SFltb x f1) eqn:E1.
  - destruct (SFltb f0 x) eqn:E0.
    + assert (Nx : nonneg x = true).
      { rewrite f1_eq in E1.
        destruct x as [[|] | [|] | | [|] m e]; simpl in E0, E1; try discriminate; reflexivity. }
      repeat split; try assumption.
      apply Qlt_le_weak.
      apply (SFltb_value F64.prec F64.emax); try assumption.
      * apply (is_bound_nonneg_valid F64.prec F64.emax). exact f1_bound.
      * apply (is_bound_nonneg_valid F64.prec F64.emax). exact f1_bound.
    + apply le_bound_zero. exact f1_bound.
  - replace (SFltb f0 f1) with true by (rewrite f1_eq; reflexivity).
    apply le_bound_refl. exact f1_bound.
Qed.

(** [round] of a float of [0, n] is an integer of [0, n]. *)
Lemma py_round_le (x : spec_float) (n : Z) :
  nonneg x = true -> (SF2Q x <= inject_Z n)%Q ->
  exists z, py_round x = Ok z /\ 0 <= z <= n.
Proof.
  intros Nx Hle.
  destruct x as [[|] | | | [|] m e]; try discriminate.
  - exists 0. split; [reflexivity|]. unfold SF2Q, Qle in Hle. simpl in Hle. lia.
  - simpl SF2Q in Hle.
    assert (H1 : (inject_Z n == inject_Z n * pow2 0)%Q) by (unfold pow2; simpl; ring).
    rewrite H1 in Hle.
    unfold py_round. destruct e as [|p|p].
    + exists (Zpos m). split; [reflexivity|].
      apply (dy_le_iff 0) in Hle; try lia.
    + exists (Zpos m * 2 ^ Zpos p). split; [reflexivity|].
      apply (dy_le_iff 0) in Hle; try lia.
      rewrite !Z.sub_0_r in Hle. change (2 ^ 0) with 1 in Hle.
      pose proof (pow2_pos (Zpos p)). nia.
    + exists (round_half_even_shift (Zpos m) (Zpos p)). split; [reflexivity|].
      apply (dy_le_iff (Zneg p)) in Hle; try lia.
      rewrite Z.sub_diag in Hle. change (2 ^ 0) with 1 in Hle.
      replace (0 - Zneg p) with (Zpos p) in Hle by lia.
      pose proof (pow2_pos (Zpos p) ltac:(lia)) as Pk.
      pose proof (pow2_pos (Zpos p - 1) ltac:(lia)) as Ph.
      pose proof (Z.div_mod (Zpos m) (2 ^ Zpos p) ltac:(lia)) as DM.
      pose proof (Z.mod_pos_bound (Zpos m) (2 ^ Zpos p) Pk) as MB.
      assert (Q0 : 0 <= Zpos m / 2 ^ Zpos p) by (apply Z.div_pos; lia).
      assert (Qn : Zpos m / 2 ^ Zpos p <= n) by (apply Z.div_le_upper_bound; lia).
      assert (Qs : 0 < Zpos m mod 2 ^ Zpos p -> Zpos m / 2 ^ Zpos p + 1 <= n).
      { intros Hr.
        assert (Zpos m / 2 ^ Zpos p < n); [|lia].
        apply Z.div_lt_upper_bound; [lia|].
        destruct (Z.eq_dec (Zpos m) (n * 2 ^ Zpos p)) as [E|E]; [|lia].
        rewrite E, Z.mod_mul in Hr by lia. lia. }
      unfold round_half_even_shift.
      destruct (Z.ltb_spec (Zpos m mod 2 ^ Zpos p) (2 ^ (Zpos p - 1))); [lia|].
      destruct (Z.ltb_spec (2 ^ (Zpos p - 1)) (Zpos m mod 2 ^ Zpos p)); [lia|].
      destruct (Z.even (Zpos m / 2 ^ Zpos p)); lia.
Qed.

Lemma le_bound_Q (prec emax : Z) (x F : spec_float) (q : Q) :
  le_bound prec emax x F -> (SF2Q F == q)%Q ->
  nonneg x = true /\ valid_binary prec emax x = true /\ (0 <= SF2Q x <= q)%Q.
Proof.
  intros [N [V L]] E. repeat split; try assumption.
  - apply nonneg_SF2Q. exact N.
  - rewrite <- E. exact L.
Qed.

(** A float of [0, 1] is mapped to a coordinate of [0, 255]. *)
Lemma coordinate_range (u : spec_float) :
  le_bound F64.prec F64.emax u f1 ->
  exists z, py_round (F64.sub f255 (F64.mul u f255)) = Ok z /\ 0 <= z <= 255.
Proof.
  intros Hu.
  destruct (le_bound_Q _ _ _ _ 1%Q Hu f1_value) as [Nu [Vu [U0 U1]]].
  destruct (is_bound_nonneg_valid _ _ _ f255_bound) as [N255 V255].
  pose proof f255_value as E255.
  assert (Hm : le_bound F64.prec F64.emax (F64.mul u f255) f255).
  { apply (SFmul_le_bound F64.prec F64.emax eq_refl eq_refl);
      try assumption; try exact f255_bound.
    rewrite E255. lra. }
  destruct (le_bound_Q _ _ _ _ 255%Q Hm E255) as [Nm [Vm [M0 M1]]].
  assert (Hs : le_bound F64.prec F64.emax (F64.sub f255 (F64.mul u f255)) f255).
  { apply (SFsub_le_bound F64.prec F64.emax eq_refl);
      try assumption; try exact f255_bound.
    - rewrite E255. exact M1.
    - lra. }
  destruct (le_bound_Q _ _ _ _ 255%Q Hs E255) as [Ns [Vs [S0 S1]]].
  apply py_round_le; [exact Ns | exact S1].
Qed.

(** The projected downfall is a float of [0, 1]. *)
Lemma d_proj_unit (T D : spec_float) :
  F64.valid T = true -> F64.valid D = true ->
  le_bound F64.prec F64.emax (d_proj T D) f1.
Proof.
  intros VT VD. unfold d_proj.
  destruct (le_bound_Q _ _ _ _ 1%Q (clamp01_unit T VT) f1_value) as [Nt [Vt [T0 T1]]].
  destruct (le_bound_Q _ _ _ _ 1%Q (clamp01_unit D VD) f1_value) as [Nd [Vd [D0 D1]]].
  apply (SFmul_le_bound F64.prec F64.emax eq_refl eq_refl);
    try assumption; try exact f1_bound.
  rewrite f1_value. nra.
Qed.

Lemma x_raw_range (T : spec_float) :
  F64.valid T = true -> exists x, x_raw T = Ok x /\ 0 <= x <= 255.
Proof. intros VT. apply coordinate_range. apply clamp01_unit. exact VT. Qed.

Lemma y_raw_range (T D : spec_float) :
  F64.valid T = true -> F64.valid D = true ->
  exists y, y_raw T D = Ok y /\ 0 <= y <= 255.
Proof. intros VT VD. apply coordinate_range. apply d_proj_unit; assumption. Qed.

(** The sampler in terms of its named intermediate values. *)
Lemma sample_unfold (cmap : image) (T D : spec_float) :
  sample_biome_color cmap T D
  = (x0 <~ x_raw T ;; y0 <~ y_raw T D ;;
     np_getitem (convert_RGB cmap) (clamp255 y0) (clamp255 x0)).
Proof. reflexivity. Qed.

Lemma clamp01_idempotent (x : spec_float) : clamp01 (clamp01 x) = clamp01 x.
Proof.
  unfold clamp01, py_max, py_min, flt.
  destruct (SFltb x f1) eqn:E1.
  - destruct (SFltb f0 x) eqn:E0.
    + rewrite E1, E0. reflexivity.
    + reflexivity.
  - replace (SFltb f0 f1) with true by (vm_compute; reflexivity).
    replace (SFltb f1 f1) with false by (vm_compute; reflexivity).
    replace (SFltb f0 f1) with true by (vm_compute; reflexivity).
    reflexivity.
Qed.

Lemma sample_clamped (cmap : image) (T D : spec_float) :
  sample_biome_color cmap T D = sample_biome_color cmap (clamp01 T) (clamp01 D).
Proof.
  rewrite !sample_unfold. unfold x_raw, y_raw, d_proj, t_clamped.
  rewrite !clamp01_idempotent. reflexivity.
Qed.

(** ** What the clamp does *)

Lemma SFcompare_antisym (a b : spec_float) :
  SFcompare b a = option_map CompOpp (SFcompare a b).
Proof.
  destruct a as [[|] | [|] | | [|] m e]; destruct b as [[|] | [|] | | [|] m' e'];
    try reflexivity; simpl;
    rewrite (Z.compare_antisym e e'); destruct (e ?= e'); simpl; try reflexivity;
    change Eq with (CompOpp Eq) at 1; rewrite <- (Pos.compare_cont_antisym m m' Eq);
    destruct (Pos.compare_cont Eq m m'); reflexivity.
Qed.

Lemma SFltb_asym (a b : spec_float) : SFltb a b = true -> SFltb b a = false.
Proof.
  unfold SFltb. rewrite (SFcompare_antisym a b).
  destruct (SFcompare a b) as [[| |]|]; simpl; try discriminate; reflexivity.
Qed.

Lemma SFltb_leb (a b : spec_float) : SFltb a b = true -> SFleb a b = true.
Proof.
  unfold SFltb, SFleb. destruct (SFcompare a b) as [[| |]|]; try discriminate; reflexivity.
Qed.

Lemma SFcompare_finite_Eq (x : spec_float) (s : bool) (m : positive) (e : Z) :
  SFcompare x (S754_finite s m e) = Some Eq -> x = S754_finite s m e.
Proof.
  destruct x as [[|] | [|] | | [|] m' e']; destruct s; simpl; try discriminate;
    destruct (Z.compare_spec e' e) as [E|E|E]; try discriminate; subst; intros H;
    injection H as H.
  - apply (f_equal CompOpp) in H. rewrite CompOpp_involutive in H. simpl in H.
    apply Pos.compare_eq in H. subst. reflexivity.
  - apply Pos.compare_eq in H. subst. reflexivity.
Qed.

Lemma SFeqb_refl (x : spec_float) : x <> S754_nan -> SFeqb x x = true.
Proof.
  intros H. unfold SFeqb.
  destruct x as [[|] | [|] | | [|] m e]; try reflexivity; try contradiction; simpl;
    rewrite Z.compare_refl, Pos.compare_cont_refl; reflexivity.
Qed.

(** The three outcomes of the clamp, by the two comparisons it makes. *)
Lemma clamp01_spec (x : spec_float) :
  (SFltb x f1 = false /\ clamp01 x = f1)
  \/ (SFltb x f1 = true /\ SFltb f0 x = false /\ clamp01 x = f0)
  \/ (SFltb x f1 = true /\ SFltb f0 x = true /\ clamp01 x = x
      /\ exists m e, x = S754_finite false m e).
Proof.
  unfold clamp01, py_max, py_min, flt.
  destruct (SFltb x f1) eqn:E1.
  - destruct (SFltb f0 x) eqn:E0.
    + right. right. repeat split.
      rewrite f1_eq in E1.
      destruct x as [[|] | [|] | | [|] m e]; simpl in E0, E1; try discriminate.
      exists m, e. reflexivity.
    + right. left. repeat split.
  - left. split; [reflexivity|].
    replace (SFltb f0 f1) with true by (rewrite f1_eq; reflexivity). reflexivity.
Qed.

(** The clamped value is a float of [0, 1], whatever the input. *)
Lemma clamp01_between (x : spec_float) :
  SFleb f0 (clamp01 x) = true /\ SFleb (clamp01 x) f1 = true.
Proof.
  destruct (clamp01_spec x) as [[_ ->] | [[_ [_ ->]] | [A [B [-> _]]]]].
  - split; rewrite f1_eq; reflexivity.
  - split; rewrite ?f1_eq; reflexivity.
  - split; apply SFltb_leb; assumption.
Qed.

Lemma clamp01_below (x : spec_float) : SFltb x f0 = true -> clamp01 x = f0.
Proof.
  intros H. pose proof (SFltb_asym _ _ H) as H'.
  destruct (clamp01_spec x) as [[A _] | [[_ [_ E]] | [_ [B _]]]].
  - exfalso. rewrite f1_eq in A.
    destruct x as [[|] | [|] | | [|] m e]; simpl in H, A; discriminate.
  - exact E.
  - rewrite B in H'. discriminate.
Qed.

Lemma clamp01_above (x : spec_float) : SFltb f1 x = true -> clamp01 x = f1.
Proof.
  intros H. pose proof (SFltb_asym _ _ H) as H'.
  destruct (clamp01_spec x) as [[_ E] | [[A _] | [A _]]];
    [exact E | rewrite A in H'; discriminate | rewrite A in H'; discriminate].
Qed.

(** On [0, 1] the clamp returns its argument; [-0.0] comes back as [0.0],
    which is the same number. *)
Lemma clamp01_inside (x : spec_float) :
  SFleb f0 x = true -> SFleb x f1 = true ->
  SFeqb (clamp01 x) x = true /\ (clamp01 x = x \/ x = S754_zero true).
Proof.
  intros L0 L1.
  destruct (clamp01_spec x) as [[A E] | [[A [B E]] | [A [B [E [m [e X]]]]]]]; rewrite E.
  - assert (C : SFcompare x f1 = Some Eq).
    { unfold SFleb in L1. unfold SFltb in A.
      destruct (SFcompare x f1) as [[| |]|]; try discriminate; reflexivity. }
    rewrite f1_eq in C. apply SFcompare_finite_Eq in C. rewrite <- f1_eq in C. subst x.
    split; [rewrite f1_eq; reflexivity | left; reflexivity].
  - assert (C : SFcompare f0 x = Some Eq).
    { unfold SFleb in L0. unfold SFltb in B.
      destruct (SFcompare f0 x) as [[| |]|]; try discriminate; reflexivity. }
    destruct x as [[|] | [|] | | [|] m e]; simpl in C; try discriminate.
    + split; [reflexivity | right; reflexivity].
    + split; [reflexivity | left; reflexivity].
  - subst x. split; [apply SFeqb_refl; discriminate | left; reflexivity].
Qed.

(** [C4] The sampler clamps temperature and downfall to [0, 1] before it
    uses them. For every colormap and all floats, sampling at the inputs and
    sampling at the clamped inputs give the same result, and the clamped
    inputs are floats of [0, 1]: the clamp gives 0.0 below 0, 1.0 above 1,
    and on [0, 1] its argument ([-0.0] comes back as [0.0]); its value lies
    between 0 and 1 for every float of the format. Sampling at (1.5, -0.3),
    which the clamp takes to (1.0, 0.0), gives what sampling at (1.0, 0.0)
    gives. *)
Theorem C4_sampler_clamps (cmap : image) (T D : spec_float) :
  sample_biome_color cmap T D = sample_biome_color cmap (clamp01 T) (clamp01 D)
  /\ (SFleb f0 (clamp01 T) = true /\ SFleb (clamp01 T) f1 = true)
  /\ (SFleb f0 (clamp01 D) = true /\ SFleb (clamp01 D) f1 = true)
  /\ (forall x, SFltb x f0 = true -> clamp01 x = f0)
  /\ (forall x, SFltb f1 x = true -> clamp01 x = f1)
  /\ (forall x, SFleb f0 x = true -> SFleb x f1 = true ->
        SFeqb (clamp01 x) x = true /\ (clamp01 x = x \/ x = S754_zero true))
  /\ (forall x, F64.valid x = true -> (0 <= SF2Q (clamp01 x) <= 1)%Q)
  /\ clamp01 (F64.of_decimal 15 1) = F64.of_decimal 10 1
  /\ clamp01 (SFopp (F64.of_decimal 3 1)) = S754_zero false
  /\ sample_biome_color cmap (F64.of_decimal 15 1) (SFopp (F64.of_decimal 3 1))
     = sample_biome_color cmap (F64.of_decimal 10 1) (S754_zero false).
Proof.
  split; [apply sample_clamped|].
  split; [apply clamp01_between|]. split; [apply clamp01_between|].
  split; [apply clamp01_below|]. split; [apply clamp01_above|].
  split; [apply clamp01_inside|].
  split.
  { intros x Vx.
    destruct (le_bound_Q _ _ _ _ 1%Q (clamp01_unit x Vx) f1_value) as [_ [_ R]]. exact R. }
  split; [vm_compute; reflexivity|]. split; [vm_compute; reflexivity|].
  rewrite (sample_clamped cmap (F64.of_decimal 15 1)).
  rewrite (sample_clamped cmap (F64.of_decimal 10 1)).
  replace (clamp01 (F64.of_decimal 15 1)) with f1 by (vm_compute; reflexivity).
  replace (clamp01 (F64.of_decimal 10 1)) with f1 by (vm_compute; reflexivity).
  replace (clamp01 (SFopp (F64.of_decimal 3 1))) with f0 by (vm_compute; reflexivity).
  replace (clamp01 (S754_zero false)) with f0 by (vm_compute; reflexivity).
  reflexivity.
Qed.

Lemma np_index_in_range (len : nat) (i : Z) :
  0 <= i < Z.of_nat len -> np_index len i = Ok (Z.to_nat i) /\ (Z.to_nat i < len)%nat.
Proof.
  intros H. unfold np_index.
  replace ((0 <=? i) && (i <? Z.of_nat len)) with true; [split; [reflexivity | lia]|].
  symmetry. apply andb_true_iff. split; [apply Z.leb_le | apply Z.ltb_lt]; lia.
Qed.

Lemma np_getitem_pixel_at {A} (g : grid A) (y x : Z) (p : A) :
  0 <= y -> 0 <= x ->
  pixel_at g (Z.to_nat y) (Z.to_nat x) = Some p -> np_getitem g y x = Ok p.
Proof.
  intros Hy Hx Hp. unfold pixel_at in Hp. unfold np_getitem.
  destruct (nth_error g (Z.to_nat y)) as [row|] eqn:Er; [|discriminate].
  assert (Ly : (Z.to_nat y < List.length g)%nat) by (apply nth_error_Some; congruence).
  assert (Lx : (Z.to_nat x < List.length row)%nat) by (apply nth_error_Some; congruence).
  destruct (np_index_in_range (height g) y) as [Ey _]; [unfold height; lia|].
  rewrite Ey. simpl res_bind. rewrite Er.
  destruct (np_index_in_range (List.length row) x) as [Ex _]; [lia|].
  rewrite Ex. simpl res_bind. rewrite Hp. reflexivity.
Qed.

(** [C5] For floats of the format, the sampler rounds [255 - t*255] and
    [255 - d_eff*255] (t the clamped temperature, d_eff the product of the
    clamped inputs) to integers x and y of [0, 255], the clamp to [0, 255]
    changes neither, and the result is the colormap entry at row y, column x.
    At temperature 0.5 and downfall 1.0 the effective downfall is 0.5 and
    both coordinates are 128. *)
Theorem C5_sampler_coordinates (cmap : image) (T D : spec_float) :
  F64.valid T = true -> F64.valid D = true ->
  (exists x y,
      py_round (F64.sub f255 (F64.mul (clamp01 T) f255)) = Ok x
      /\ py_round (F64.sub f255 (F64.mul (F64.mul (clamp01 D) (clamp01 T)) f255)) = Ok y
      /\ 0 <= x <= 255 /\ 0 <= y <= 255
      /\ sample_biome_color cmap T D = np_getitem (convert_RGB cmap) y x
      /\ forall p, pixel_at (convert_RGB cmap) (Z.to_nat y) (Z.to_nat x) = Some p ->
                   sample_biome_color cmap T D = Ok p)
  /\ d_proj half f1 = half
  /\ x_raw half = Ok 128 /\ y_raw half f1 = Ok 128
  /\ sample_biome_color cmap half f1 = np_getitem (convert_RGB cmap) 128 128.
Proof.
  intros VT VD. split.
  - destruct (x_raw_range T VT) as [x [Hx Rx]].
    destruct (y_raw_range T D VT VD) as [y [Hy Ry]].
    assert (E : sample_biome_color cmap T D = np_getitem (convert_RGB cmap) y x).
    { rewrite sample_unfold, Hx, Hy. simpl res_bind.
      unfold clamp255. replace (Z.max 0 (Z.min 255 x)) with x by lia.
      replace (Z.max 0 (Z.min 255 y)) with y by lia. reflexivity. }
    exists x, y. split; [exact Hx|]. split; [exact Hy|].
    split; [exact Rx|]. split; [exact Ry|]. split; [exact E|].
    intros p Hp. rewrite E. apply np_getitem_pixel_at; [lia | lia | exact Hp].
  - assert (Hx : x_raw half = Ok 128) by (vm_compute; reflexivity).
    assert (Hy : y_raw half f1 = Ok 128) by (vm_compute; reflexivity).
    split; [vm_compute; reflexivity|]. split; [exact Hx|]. split; [exact Hy|].
    rewrite sample_unfold, Hx, Hy. reflexivity.
Qed.

Lemma C5_sampler_coordinates_witness :
  (exists x y,
      py_round (F64.sub f255 (F64.mul (clamp01 (F64.of_decimal 80 2)) f255)) = Ok x
      /\ py_round (F64.sub f255 (F64.mul (F64.mul (clamp01 half) (clamp01 (F64.of_decimal 80 2)))
                                         f255)) = Ok y
      /\ 0 <= x <= 255 /\ 0 <= y <= 255
      /\ sample_biome_color (flat_colormap (120, 180, 90)) (F64.of_decimal 80 2) half
         = np_getitem (convert_RGB (flat_colormap (120, 180, 90))) y x
      /\ forall p, pixel_at (convert_RGB (flat_colormap (120, 180, 90)))
                            (Z.to_nat y) (Z.to_nat x) = Some p ->
                   sample_biome_color (flat_colormap (120, 180, 90)) (F64.of_decimal 80 2) half
                   = Ok p)
  /\ d_proj half f1 = half
  /\ x_raw half = Ok 128 /\ y_raw half f1 = Ok 128
  /\ sample_biome_color (flat_colormap (120, 180, 90)) half f1
     = np_getitem (convert_RGB (flat_colormap (120, 180, 90))) 128 128.
Proof.
  apply (C5_sampler_coordinates (flat_colormap (120, 180, 90)) (F64.of_decimal 80 2) half);
    reflexivity.
Defined.

(** On [0, 1] the clamp keeps the value (it only turns [-0.0] into [0.0]). *)
Lemma clamp01_in_range (t : spec_float) :
  F64.valid t = true -> SFleb f0 t = true -> SFleb t f1 = true ->
  (SF2Q (clamp01 t) == SF2Q t)%Q /\
  ((exists s, t = S754_zero s) /\ clamp01 t = f0 \/ nonneg t = true /\ is_bound F64.prec F64.emax (clamp01 t) = true).
Proof.
  intros Vt L0 L1.
  destruct (is_bound_nonneg_valid _ _ _ f1_bound) as [N1 V1].
  destruct t as [s | s | | s m e].
  - split; [destruct s; vm_compute; reflexivity|].
    left. split; [exists s; reflexivity | destruct s; vm_compute; reflexivity].
  - exfalso. rewrite f1_eq in L1. destruct s; simpl in L0, L1; discriminate.
  - discriminate.
  - assert (s = false) as -> by (destruct s; [simpl in L0; discriminate | reflexivity]).
    unfold clamp01, py_max, py_min, flt.
    destruct (SFltb (S754_finite false m e) f1) eqn:E1.
    + replace (SFltb f0 (S754_finite false m e)) with true by reflexivity.
      split; [reflexivity|]. right. split; [reflexivity | exact Vt].
    + replace (SFltb f0 f1) with true by (vm_compute; reflexivity).
      split; [|right; split; [reflexivity | exact f1_bound]].
      unfold SFleb in L1. unfold SFltb in E1.
      rewrite (SFcompare_value F64.prec F64.emax) in L1, E1 by (assumption || reflexivity).
      destruct (SF2Q (S754_finite false m e) ?= SF2Q f1)%Q eqn:C; try discriminate.
      apply Qeq_alt in C. symmetry. exact C.
Qed.

(** [C8] For floats [temperature] and [downfall] of [0, 1], the effective
    downfall the sampler computes, the product of the two (clamped) inputs
    rounded to a float, is at most [temperature]: as floats ([<=] of Python)
    and as exact values. *)
Theorem C8_triangle_projection (t d : spec_float) :
  F64.valid t = true -> F64.valid d = true ->
  SFleb f0 t = true -> SFleb t f1 = true ->
  SFleb f0 d = true -> SFleb d f1 = true ->
  SFleb (d_proj t d) t = true /\ (SF2Q (d_proj t d) <= SF2Q t)%Q.
Proof.
  intros Vt Vd T0 T1 D0 D1.
  destruct (clamp01_in_range t Vt T0 T1) as [Et Ct].
  destruct (le_bound_Q _ _ _ _ 1%Q (clamp01_unit d Vd) f1_value) as [Nd [Vdc [Dl Du]]].
  destruct (le_bound_Q _ _ _ _ 1%Q (clamp01_unit t Vt) f1_value) as [Nt [Vtc [Tl Tu]]].
  destruct Ct as [[[s ->] Ec] | [Nn Bt]].
  - unfold d_proj. rewrite Ec.
    assert (Z : F64.mul (clamp01 d) f0 = S754_zero false).
    { destruct (clamp01 d) as [[|] | | | [|] m e]; try discriminate; reflexivity. }
    rewrite Z. split; [destruct s; reflexivity | simpl; apply Qle_refl].
  - assert (Hm : le_bound F64.prec F64.emax (d_proj t d) (clamp01 t)).
    { unfold d_proj. apply (SFmul_le_bound F64.prec F64.emax eq_refl eq_refl);
        try assumption. nra. }
    destruct Hm as [Nm [Vm Lm]].
    assert (Lq : (SF2Q (d_proj t d) <= SF2Q t)%Q) by (rewrite <- Et; exact Lm).
    split; [|exact Lq].
    apply (SFleb_value F64.prec F64.emax); assumption.
Qed.

Lemma C8_triangle_projection_witness :
  SFleb (d_proj half f1) half = true /\ (SF2Q (d_proj half f1) <= SF2Q half)%Q.
Proof. apply (C8_triangle_projection half f1); reflexivity. Defined.

Lemma np_getitem_256 (g : grid color) (y x : Z) :
  is_256x256 g = true -> 0 <= y <= 255 -> 0 <= x <= 255 ->
  exists p, np_getitem g y x = Ok p.
Proof.
  unfold is_256x256. intros H Hy Hx. apply andb_true_iff in H. destruct H as [Hh Hw].
  apply Nat.eqb_eq in Hh. rewrite forallb_forall in Hw.
  unfold np_getitem. unfold height in *.
  destruct (np_index_in_range (List.length g) y ltac:(lia)) as [Ey Ly].
  rewrite Ey. simpl res_bind.
  destruct (nth_error g (Z.to_nat y)) as [row|] eqn:Er.
  2:{ apply nth_error_None in Er. lia. }
  assert (Hr : List.length row = 256%nat).
  { apply Nat.eqb_eq. apply Hw. eapply nth_error_In. exact Er. }
  destruct (np_index_in_range (List.length row) x ltac:(lia)) as [Ex Lx].
  rewrite Ex. simpl res_bind.
  destruct (nth_error row (Z.to_nat x)) as [p|] eqn:Ep.
  - exists p. reflexivity.
  - apply nth_error_None in Ep. lia.
Qed.

(** [C9] For every 256x256 colormap and all floats (of any size, infinite or
    NaN), the two coordinates the sampler computes exist, lie in [0, 255]
    after the final clamp, and the sampler returns a color: no rounding or
    indexing error is raised. *)
Theorem C9_sampler_in_bounds (cmap : image) (T D : spec_float) :
  F64.valid T = true -> F64.valid D = true ->
  is_256x256 (convert_RGB cmap) = true ->
  exists x y c,
    x_raw T = Ok x /\ y_raw T D = Ok y
    /\ 0 <= clamp255 x <= 255 /\ 0 <= clamp255 y <= 255
    /\ sample_biome_color cmap T D = Ok c.
Proof.
  intros VT VD Hc.
  destruct (x_raw_range T VT) as [x [Hx Rx]].
  destruct (y_raw_range T D VT VD) as [y [Hy Ry]].
  assert (Cx : 0 <= clamp255 x <= 255) by (unfold clamp255; lia).
  assert (Cy : 0 <= clamp255 y <= 255) by (unfold clamp255; lia).
  destruct (np_getitem_256 (convert_RGB cmap) (clamp255 y) (clamp255 x) Hc Cy Cx) as [c Hg].
  exists x, y, c. repeat split; try assumption; try lia.
  rewrite sample_unfold, Hx, Hy. simpl res_bind. exact Hg.
Qed.

Lemma C9_sampler_in_bounds_witness :
  exists x y c,
    x_raw (S754_infinity false) = Ok x /\ y_raw (S754_infinity false) S754_nan = Ok y
    /\ 0 <= clamp255 x <= 255 /\ 0 <= clamp255 y <= 255
    /\ sample_biome_color (flat_colormap (120, 180, 90)) (S754_infinity false) S754_nan = Ok c.
Proof.
  apply (C9_sampler_in_bounds (flat_colormap (120, 180, 90)) (S754_infinity false) S754_nan);
    vm_compute; reflexivity.
Defined.

(** * The sampler: order and saturation *)

Lemma clamp01_mono (T T' : spec_float) :
  F64.valid T = true -> F64.valid T' = true ->
  SFleb T T' = true ->
  (SF2Q (clamp01 T) <= SF2Q (clamp01 T'))%Q.
Proof.
  intros VT VT' L.
  destruct (le_bound_Q _ _ _ _ 1%Q (clamp01_unit T VT) f1_value) as [Nt [Vt [T0 T1]]].
  destruct (le_bound_Q _ _ _ _ 1%Q (clamp01_unit T' VT') f1_value) as [Nt' [Vt' [T0' T1']]].
  destruct (is_bound_nonneg_valid _ _ _ f1_bound) as [N1 V1].
  destruct (clamp01_spec T') as [[A' E'] | [[A' [B' E']] | [A' [B' [E' [m' [e' X']]]]]]].
  - rewrite E', f1_value. exact T1.
  - destruct (clamp01_spec T) as [[A E] | [[A [B E]] | [A [B [E [m [e X]]]]]]].
    + exfalso. rewrite f1_eq in A, A'.
      destruct T as [[|] | [|] | | [|] m e]; simpl in A; try discriminate;
        destruct T' as [[|] | [|] | | [|] m' e']; simpl in A', B', L; try discriminate.
    + rewrite E. exact T0'.
    + exfalso. subst T. rewrite f1_eq in A'.
      destruct T' as [[|] | [|] | | [|] m' e']; simpl in A', B', L; try discriminate.
  - destruct (clamp01_spec T) as [[A E] | [[A [B E]] | [A [B [E [m [e X]]]]]]].
    + exfalso. subst T'.
      assert (NT : nonneg T = true).
      { rewrite f1_eq in A.
        destruct T as [[|] | [|] | | [|] m e]; simpl in A, L; try discriminate; reflexivity. }
      apply (SFleb_value F64.prec F64.emax) in L; try assumption; try reflexivity.
      apply (SFltb_value F64.prec F64.emax) in A'; try assumption; try reflexivity.
      assert (C : (SF2Q T < SF2Q f1)%Q) by lra.
      apply (SFltb_value F64.prec F64.emax) in C; try assumption.
      rewrite C in A. discriminate.
    + rewrite E. exact T0'.
    + rewrite E, E'. subst T T'.
      apply (SFleb_value F64.prec F64.emax) in L; try assumption; reflexivity.
Qed.

(** The rounded coordinate [round(255 - u * 255)] falls when [u] grows. *)
Lemma coordinate_antitone (u u' : spec_float) :
  le_bound F64.prec F64.emax u f1 -> le_bound F64.prec F64.emax u' f1 ->
  (SF2Q u <= SF2Q u')%Q ->
  exists a b,
    py_round (F64.sub f255 (F64.mul u' f255)) = Ok a
    /\ py_round (F64.sub f255 (F64.mul u f255)) = Ok b
    /\ 0 <= a <= b /\ b <= 255.
Proof.
  intros Hu Hu' L.
  destruct (le_bound_Q _ _ _ _ 1%Q Hu f1_value) as [Nu [Vu [U0 U1]]].
  destruct (le_bound_Q _ _ _ _ 1%Q Hu' f1_value) as [Nu' [Vu' [U0' U1']]].
  destruct (is_bound_nonneg_valid _ _ _ f255_bound) as [N255 V255].
  pose proof f255_value as E255.
  assert (Hm : le_bound F64.prec F64.emax (F64.mul u f255) f255).
  { apply (SFmul_le_bound F64.prec F64.emax eq_refl eq_refl);
      try assumption; try exact f255_bound. rewrite E255. lra. }
  assert (Hm' : le_bound F64.prec F64.emax (F64.mul u' f255) f255).
  { apply (SFmul_le_bound F64.prec F64.emax eq_refl eq_refl);
      try assumption; try exact f255_bound. rewrite E255. lra. }
  destruct (le_bound_Q _ _ _ _ 255%Q Hm E255) as [Nm [Vm [M0 M1]]].
  destruct (le_bound_Q _ _ _ _ 255%Q Hm' E255) as [Nm' [Vm' [M0' M1']]].
  assert (Lm : (SF2Q (F64.mul u f255) <= SF2Q (F64.mul u' f255))%Q).
  { apply (SFmul_mono F64.prec F64.emax eq_refl eq_refl _ _ _ _ f255);
      try assumption; try exact f255_bound; try apply Qle_refl.
    rewrite E255. lra. }
  assert (Hs : le_bound F64.prec F64.emax (F64.sub f255 (F64.mul u f255)) f255).
  { apply (SFsub_le_bound F64.prec F64.emax eq_refl);
      try assumption; try exact f255_bound; [rewrite E255; exact M1 | lra]. }
  assert (Hs' : le_bound F64.prec F64.emax (F64.sub f255 (F64.mul u' f255)) f255).
  { apply (SFsub_le_bound F64.prec F64.emax eq_refl);
      try assumption; try exact f255_bound; [rewrite E255; exact M1' | lra]. }
  destruct (le_bound_Q _ _ _ _ 255%Q Hs E255) as [Ns [Vs [S0 S1]]].
  destruct (le_bound_Q _ _ _ _ 255%Q Hs' E255) as [Ns' [Vs' [S0' S1']]].
  assert (Ls : (SF2Q (F64.sub f255 (F64.mul u' f255)) <= SF2Q (F64.sub f255 (F64.mul u f255)))%Q).
  { apply (SFsub_mono F64.prec F64.emax eq_refl _ _ _ _ f255);
      try assumption; try exact f255_bound; try apply Qle_refl.
    - rewrite E255. exact M1'.
    - lra. }
  destruct (py_round_mono _ _ Ns' Ns Ls) as (a & b & Ea & Eb & Hab).
  destruct (py_round_le _ 255 Ns S1) as (z & Ez & Hz).
  exists a, b. split; [exact Ea|]. split; [exact Eb|]. split; [exact Hab|].
  rewrite Eb in Ez. injection Ez as ->. lia.
Qed.

(** The projected downfall never exceeds the clamped temperature. *)
Lemma d_proj_le_t (T D : spec_float) :
  F64.valid T = true -> F64.valid D = true ->
  (SF2Q (d_proj T D) <= SF2Q (clamp01 T))%Q.
Proof.
  intros VT VD.
  destruct (le_bound_Q _ _ _ _ 1%Q (clamp01_unit T VT) f1_value) as [Nt [Vt [T0 T1]]].
  destruct (le_bound_Q _ _ _ _ 1%Q (clamp01_unit D VD) f1_value) as [Nd [Vd [D0 D1]]].
  unfold d_proj.
  destruct (clamp01 T) as [[|] | [|] | | [|] m e] eqn:ET; try discriminate.
  - destruct (clamp01 D) as [[|] | [|] | | [|] m' e']; try discriminate;
      simpl; apply Qle_refl.
  - apply (SFmul_le_bound F64.prec F64.emax eq_refl eq_refl); try assumption.
    nra.
Qed.

(** The projected downfall grows with the temperature and with the downfall. *)
Lemma d_proj_mono (T D T' D' : spec_float) :
  F64.valid T = true -> F64.valid D = true ->
  F64.valid T' = true -> F64.valid D' = true ->
  SFleb T T' = true -> SFleb D D' = true ->
  (SF2Q (d_proj T D) <= SF2Q (d_proj T' D'))%Q.
Proof.
  intros VT VD VT' VD' LT LD.
  destruct (le_bound_Q _ _ _ _ 1%Q (clamp01_unit T VT) f1_value) as [Nt [Vt [T0 T1]]].
  destruct (le_bound_Q _ _ _ _ 1%Q (clamp01_unit D VD) f1_value) as [Nd [Vd [D0 D1]]].
  destruct (le_bound_Q _ _ _ _ 1%Q (clamp01_unit T' VT') f1_value) as [Nt' [Vt' [T0' T1']]].
  destruct (le_bound_Q _ _ _ _ 1%Q (clamp01_unit D' VD') f1_value) as [Nd' [Vd' [D0' D1']]].
  unfold d_proj.
  apply (SFmul_mono F64.prec F64.emax eq_refl eq_refl _ _ _ _ f1);
    try assumption; try exact f1_bound.
  - apply clamp01_mono; assumption.
  - apply clamp01_mono; assumption.
  - rewrite f1_value. nra.
Qed.

(** [X1] For all floats of the format the sampler reads the
    colormap at a column that is at most the row: it never leaves the
    lower-left triangle of the colormap. *)
Theorem sampler_lower_triangle (cmap : image) (T D : spec_float) :
  F64.valid T = true -> F64.valid D = true ->
  exists x y,
    x_raw T = Ok x /\ y_raw T D = Ok y /\ 0 <= x <= y /\ y <= 255
    /\ sample_biome_color cmap T D = np_getitem (convert_RGB cmap) y x.
Proof.
  intros VT VD.
  destruct (coordinate_antitone (d_proj T D) (clamp01 T)
              (d_proj_unit T D VT VD) (clamp01_unit T VT) (d_proj_le_t T D VT VD))
    as (x & y & Hx & Hy & Hxy & Hy255).
  exists x, y. split; [exact Hx|]. split; [exact Hy|]. split; [exact Hxy|].
  split; [exact Hy255|].
  rewrite sample_unfold. unfold x_raw, y_raw, t_clamped. rewrite Hx, Hy. simpl res_bind.
  unfold clamp255. replace (Z.max 0 (Z.min 255 x)) with x by lia.
  replace (Z.max 0 (Z.min 255 y)) with y by lia. reflexivity.
Qed.

Lemma sampler_lower_triangle_witness :
  exists x y,
    x_raw (F64.of_decimal 80 2) = Ok x /\ y_raw (F64.of_decimal 80 2) half = Ok y
    /\ 0 <= x <= y /\ y <= 255
    /\ sample_biome_color (flat_colormap (120, 180, 90)) (F64.of_decimal 80 2) half
       = np_getitem (convert_RGB (flat_colormap (120, 180, 90))) y x.
Proof.
  apply (sampler_lower_triangle (flat_colormap (120, 180, 90)) (F64.of_decimal 80 2) half);
    reflexivity.
Defined.

(** [X2] A higher temperature never moves the sample to the right nor
    down, a higher downfall never moves it down: the column falls with the
    temperature, the row with the temperature and with the downfall. *)
Theorem sampler_monotone (T D T' D' : spec_float) :
  F64.valid T = true -> F64.valid D = true ->
  F64.valid T' = true -> F64.valid D' = true ->
  SFleb T T' = true -> SFleb D D' = true ->
  exists x y x' y',
    x_raw T = Ok x /\ y_raw T D = Ok y /\ x_raw T' = Ok x' /\ y_raw T' D' = Ok y'
    /\ x' <= x /\ y' <= y.
Proof.
  intros VT VD VT' VD' LT LD.
  destruct (coordinate_antitone (clamp01 T) (clamp01 T')
              (clamp01_unit T VT) (clamp01_unit T' VT') (clamp01_mono T T' VT VT' LT))
    as (x' & x & Hx' & Hx & Hxx & _).
  destruct (coordinate_antitone (d_proj T D) (d_proj T' D')
              (d_proj_unit T D VT VD) (d_proj_unit T' D' VT' VD')
              (d_proj_mono T D T' D' VT VD VT' VD' LT LD))
    as (y' & y & Hy' & Hy & Hyy & _).
  exists x, y, x', y'. repeat split; try assumption; lia.
Qed.

Lemma sampler_monotone_witness :
  exists x y x' y',
    x_raw half = Ok x /\ y_raw half half = Ok y
    /\ x_raw (F64.of_decimal 80 2) = Ok x' /\ y_raw (F64.of_decimal 80 2) f1 = Ok y'
    /\ x' <= x /\ y' <= y.
Proof.
  apply (sampler_monotone half half (F64.of_decimal 80 2) f1); reflexivity.
Defined.

Lemma clamp01_le_zero (T : spec_float) : SFleb T f0 = true -> clamp01 T = f0.
Proof.
  intros H.
  destruct (clamp01_spec T) as [[A _] | [[_ [_ E]] | [_ [B _]]]].
  - exfalso. rewrite f1_eq in A.
    destruct T as [[|] | [|] | | [|] m e]; simpl in H, A; discriminate.
  - exact E.
  - exfalso. unfold SFleb in H. unfold SFltb in B.
    rewrite (SFcompare_antisym T f0) in B.
    destruct (SFcompare T f0) as [[| |]|]; simpl in B; discriminate.
Qed.

Lemma clamp01_not_below_one (T : spec_float) : SFltb T f1 = false -> clamp01 T = f1.
Proof.
  intros H.
  destruct (clamp01_spec T) as [[_ E] | [[A _] | [A _]]];
    [exact E | rewrite A in H; discriminate | rewrite A in H; discriminate].
Qed.

Lemma mul_clamp_zero (D : spec_float) : F64.mul (clamp01 D) f0 = S754_zero false.
Proof.
  destruct (clamp01_spec D) as [[_ ->] | [[_ [_ ->]] | [_ [_ [-> [m [e ->]]]]]]];
    try (rewrite ?f1_eq; reflexivity).
Qed.

(** [X3] At a temperature of 0 or below (also minus
    infinity) the sampler ignores the downfall, whatever it is (NaN and
    infinities included): both coordinates are 255, the bottom-right corner
    of the colormap. *)
Theorem sampler_cold_corner (cmap : image) (T D : spec_float) :
  SFleb T f0 = true ->
  x_raw T = Ok 255 /\ y_raw T D = Ok 255
  /\ sample_biome_color cmap T D = np_getitem (convert_RGB cmap) 255 255.
Proof.
  intros H. pose proof (clamp01_le_zero T H) as E.
  assert (Hx : x_raw T = Ok 255).
  { unfold x_raw, t_clamped. rewrite E. vm_compute. reflexivity. }
  assert (Hy : y_raw T D = Ok 255).
  { unfold y_raw, d_proj. rewrite E, mul_clamp_zero. vm_compute. reflexivity. }
  split; [exact Hx|]. split; [exact Hy|].
  rewrite sample_unfold, Hx, Hy. reflexivity.
Qed.

Lemma sampler_cold_corner_witness :
  x_raw (SFopp half) = Ok 255 /\ y_raw (SFopp half) S754_nan = Ok 255
  /\ sample_biome_color (flat_colormap (120, 180, 90)) (SFopp half) S754_nan
     = np_getitem (convert_RGB (flat_colormap (120, 180, 90))) 255 255.
Proof.
  apply (sampler_cold_corner (flat_colormap (120, 180, 90)) (SFopp half) S754_nan).
  reflexivity.
Defined.

(** [X4] An input that is not below 1 (1 or more, plus
    infinity, or NaN, for which every comparison is false) is used as 1.0,
    as temperature and as downfall: a NaN is not refused, it selects the
    hottest column, the wettest row. *)
Theorem sampler_unordered_input (cmap : image) (X T D : spec_float) :
  SFltb X f1 = false ->
  x_raw X = Ok 0
  /\ sample_biome_color cmap X D = sample_biome_color cmap f1 D
  /\ sample_biome_color cmap T X = sample_biome_color cmap T f1.
Proof.
  intros H. pose proof (clamp01_not_below_one X H) as E.
  assert (E1 : clamp01 f1 = f1) by (vm_compute; reflexivity).
  split; [unfold x_raw, t_clamped; rewrite E; vm_compute; reflexivity|].
  split.
  - rewrite (sample_clamped cmap X D), (sample_clamped cmap f1 D), E, E1. reflexivity.
  - rewrite (sample_clamped cmap T X), (sample_clamped cmap T f1), E, E1. reflexivity.
Qed.

Lemma sampler_unordered_input_witness :
  x_raw S754_nan = Ok 0
  /\ sample_biome_color (flat_colormap (120, 180, 90)) S754_nan half
     = sample_biome_color (flat_colormap (120, 180, 90)) f1 half
  /\ sample_biome_color (flat_colormap (120, 180, 90)) half S754_nan
     = sample_biome_color (flat_colormap (120, 180, 90)) half f1.
Proof.
  apply (sampler_unordered_input (flat_colormap (120, 180, 90)) S754_nan half half).
  reflexivity.
Defined.

Lemma np_index_out_of_range (len : nat) (i : Z) :
  Z.of_nat len <= i -> np_index len i = Raise IndexError.
Proof.
  intros H. unfold np_index.
  replace (i <? Z.of_nat len) with false by (symmetry; apply Z.ltb_ge; lia).
  replace (i <? 0) with false by (symmetry; apply Z.ltb_ge; lia).
  rewrite !andb_false_r. reflexivity.
Qed.

(** [X5] The sampler does not check the colormap's shape:
    for floats of the format, when the colormap has no more rows than the
    row coordinate the sampler computes, the lookup raises [IndexError]. *)
Theorem sampler_index_error (cmap : image) (T D : spec_float) (y : Z) :
  F64.valid T = true -> F64.valid D = true ->
  y_raw T D = Ok y ->
  Z.of_nat (height (convert_RGB cmap)) <= y ->
  sample_biome_color cmap T D = Raise IndexError.
Proof.
  intros VT VD Hy Hh.
  destruct (x_raw_range T VT) as [x [Hx Rx]].
  destruct (y_raw_range T D VT VD) as [y' [Hy' Ry]].
  rewrite Hy in Hy'. injection Hy' as <-.
  rewrite sample_unfold, Hx, Hy. simpl res_bind.
  unfold np_getitem. rewrite np_index_out_of_range; [reflexivity|].
  unfold clamp255. lia.
Qed.

Lemma sampler_index_error_witness :
  sample_biome_color (ImgRGB (repeat (repeat (1, 2, 3) 256) 200)) (F64.of_decimal 10 2) half
  = Raise IndexError.
Proof.
  apply (sampler_index_error (ImgRGB (repeat (repeat (1, 2, 3) 256) 200))
           (F64.of_decimal 10 2) half 242);
    [reflexivity | reflexivity | vm_compute; reflexivity | vm_compute; discriminate].
Defined.

(** * The luma tinter *)

Lemma Zrange_forall (f : Z -> bool) (n : nat) :
  forallb f (Zrange n) = true -> forall c, 0 <= c < Z.of_nat n -> f c = true.
Proof.
  intros H c Hc. rewrite forallb_forall in H. apply H.
  unfold Zrange. apply in_map_iff. exists (Z.to_nat c). split; [lia|].
  apply in_seq. lia.
Qed.

Lemma channel_8bit_range (v : Z) : channel_8bit v = true <-> 0 <= v <= 255.
Proof. unfold channel_8bit. rewrite andb_true_iff, Z.leb_le, Z.leb_le. tauto. Qed.

Lemma pixel_at_map {A B} (f : A -> B) (g : grid A) (y x : nat) :
  pixel_at (grid_map f g) y x = option_map f (pixel_at g y x).
Proof.
  unfold pixel_at, grid_map. rewrite nth_error_map.
  destruct (nth_error g y) as [row|]; simpl; [apply nth_error_map | reflexivity].
Qed.

Lemma size_grid_map {A B} (f : A -> B) (g : grid A) : size (grid_map f g) = size g.
Proof.
  unfold size, width, height, grid_map. rewrite length_map.
  destruct g as [|row g]; simpl; [reflexivity | rewrite length_map; reflexivity].
Qed.

Lemma row_lengths_grid_map {A B} (f : A -> B) (g : grid A) :
  map (@List.length B) (grid_map f g) = map (@List.length A) g.
Proof.
  unfold grid_map. rewrite map_map. apply map_ext. intros row. apply length_map.
Qed.

Lemma size_convert_RGBA (img : image) : size (convert_RGBA img) = image_size img.
Proof. destruct img; simpl; try apply size_grid_map; reflexivity. Qed.

Lemma zip_with_map {A B C D} (f : B -> C -> D) (g : A -> B) (h : A -> C) (l : list A) :
  zip_with f (map g l) (map h l) = map (fun x => f (g x) (h x)) l.
Proof. induction l as [|x l IH]; simpl; [reflexivity | rewrite IH; reflexivity]. Qed.

(** The array pipeline of the tinter computes every output pixel from the
    input pixel at the same place. *)
Lemma tint_pixelwise (img : image) (biome_rgb : color) :
  tint_grayscale_rgba img biome_rgb = grid_map (tint_pixel biome_rgb) (convert_RGBA img).
Proof.
  unfold tint_grayscale_rgba, concat_alpha, grid_map. cbv zeta.
  rewrite !map_map, zip_with_map. apply map_ext. intros row.
  rewrite !map_map, zip_with_map. apply map_ext. intros p.
  destruct biome_rgb as [[cr cg] cb]. reflexivity.
Qed.

(** [C3] For every image and every tint color, the tinter's output has the
    input's dimensions (row by row), and its alpha channel is, pixel for
    pixel, the alpha channel of the input normalized to RGBA: the input's own
    alpha where it has one, 255 where it has none. *)
Theorem C3_tinter_preserves_alpha (img : image) (biome_rgb : color) :
  size (tint_grayscale_rgba img biome_rgb) = image_size img
  /\ map (@List.length pixel) (tint_grayscale_rgba img biome_rgb)
     = map (@List.length pixel) (convert_RGBA img)
  /\ grid_map alpha (tint_grayscale_rgba img biome_rgb) = grid_map alpha (convert_RGBA img)
  /\ (forall y x, option_map alpha (pixel_at (tint_grayscale_rgba img biome_rgb) y x)
                  = option_map alpha (pixel_at (convert_RGBA img) y x))
  /\ (forall g, img = ImgL g -> grid_map alpha (tint_grayscale_rgba img biome_rgb)
                                = grid_map (fun _ => 255) g)
  /\ (forall g, img = ImgRGB g -> grid_map alpha (tint_grayscale_rgba img biome_rgb)
                                  = grid_map (fun _ => 255) g)
  /\ (forall g, img = ImgRGBA g -> grid_map alpha (tint_grayscale_rgba img biome_rgb)
                                   = grid_map alpha g).
Proof.
  assert (Ha : grid_map alpha (tint_grayscale_rgba img biome_rgb)
               = grid_map alpha (convert_RGBA img)).
  { rewrite tint_pixelwise. unfold grid_map. rewrite map_map. apply map_ext. intros row.
    rewrite map_map. apply map_ext. intros p. destruct biome_rgb as [[cr cg] cb]. reflexivity. }
  split; [|split; [|split; [|split; [|split; [|split]]]]].
  - rewrite tint_pixelwise, size_grid_map. apply size_convert_RGBA.
  - rewrite tint_pixelwise. apply row_lengths_grid_map.
  - exact Ha.
  - intros y x. rewrite tint_pixelwise, pixel_at_map.
    destruct (pixel_at (convert_RGBA img) y x) as [p|]; [|reflexivity].
    destruct biome_rgb as [[cr cg] cb]. reflexivity.
  - intros g ->. rewrite Ha. simpl. unfold grid_map. rewrite map_map. apply map_ext.
    intros row. rewrite map_map. reflexivity.
  - intros g ->. rewrite Ha. simpl. unfold grid_map. rewrite map_map. apply map_ext.
    intros row. rewrite map_map. apply map_ext. intros [[r g0] b]. reflexivity.
  - intros g ->. rewrite Ha. reflexivity.
Qed.

Lemma white_channel_all :
  forallb (fun c => tint_channel (pixel_lum_norm 255 255 255) c =? c) (Zrange 256) = true.
Proof. vm_compute. reflexivity. Qed.

Lemma white_channel (c : Z) :
  0 <= c <= 255 -> tint_channel (pixel_lum_norm 255 255 255) c = c.
Proof.
  intros H. apply Z.eqb_eq.
  apply (Zrange_forall (fun c => tint_channel (pixel_lum_norm 255 255 255) c =? c) 256 white_channel_all).
  lia.
Qed.

Lemma rgb_8bit_range (cr cg cb : Z) :
  rgb_8bit (cr, cg, cb) = true -> 0 <= cr <= 255 /\ 0 <= cg <= 255 /\ 0 <= cb <= 255.
Proof.
  unfold rgb_8bit. rewrite !andb_true_iff, !channel_8bit_range. tauto.
Qed.

(** [C2] For every 8-bit tint color and every image, a pixel that is pure
    white after RGBA normalization comes out with exactly the tint color in
    its RGB channels (and its own alpha); with tint (255, 255, 255) a white
    pixel stays (255, 255, 255). *)
Theorem C2_white_becomes_tint (img : image) (biome_rgb : color) (y x : nat) (p : pixel) :
  rgb_8bit biome_rgb = true ->
  pixel_at (convert_RGBA img) y x = Some p ->
  white_pixel p ->
  (let '(cr, cg, cb) := biome_rgb in
   pixel_at (tint_grayscale_rgba img biome_rgb) y x = Some (mk_pixel cr cg cb (alpha p)))
  /\ tint_pixel (255, 255, 255) (mk_pixel 255 255 255 (alpha p))
     = mk_pixel 255 255 255 (alpha p).
Proof.
  intros Hc Hp [Wr [Wg Wb]]. destruct biome_rgb as [[cr cg] cb].
  destruct (rgb_8bit_range cr cg cb Hc) as [Rr [Rg Rb]].
  split.
  - rewrite tint_pixelwise, pixel_at_map, Hp. simpl option_map.
    unfold tint_pixel. rewrite Wr, Wg, Wb.
    rewrite !white_channel by assumption. reflexivity.
  - unfold tint_pixel. simpl red. simpl green. simpl blue. simpl alpha.
    rewrite !white_channel by lia. reflexivity.
Qed.

Lemma C2_white_becomes_tint_witness :
  (let '(cr, cg, cb) := (10, 200, 255) in
   pixel_at (tint_grayscale_rgba (ImgL [[255]]) (10, 200, 255)) 0 0
   = Some (mk_pixel cr cg cb (alpha (mk_pixel 255 255 255 255))))
  /\ tint_pixel (255, 255, 255) (mk_pixel 255 255 255 (alpha (mk_pixel 255 255 255 255)))
     = mk_pixel 255 255 255 (alpha (mk_pixel 255 255 255 255)).
Proof.
  apply (C2_white_becomes_tint (ImgL [[255]]) (10, 200, 255) 0 0 (mk_pixel 255 255 255 255));
    [reflexivity | reflexivity | unfold white_pixel; simpl; auto].
Defined.

(** ** The tinted channel never exceeds the tint *)

Lemma g1_eq : g1 = S754_finite false 8388608 (-23).
Proof. vm_compute. reflexivity. Qed.

Lemma g255_eq : g255 = S754_finite false 16711680 (-16).
Proof. vm_compute. reflexivity. Qed.

Lemma g255_bound : is_bound F32.prec F32.emax g255 = true.
Proof. rewrite g255_eq. vm_compute. reflexivity. Qed.

Lemma g255_value : (SF2Q g255 == 255)%Q.
Proof. rewrite g255_eq. vm_compute. reflexivity. Qed.

Lemma g1_bound : is_bound F32.prec F32.emax g1 = true.
Proof. rewrite g1_eq. vm_compute. reflexivity. Qed.

Lemma g1_value : (SF2Q g1 == 1)%Q.
Proof. rewrite g1_eq. vm_compute. reflexivity. Qed.

(** An 8-bit channel converts to a [float32] of [0, 255]. *)
Lemma of_Z_channel (v : Z) :
  0 <= v <= 255 -> le_bound F32.prec F32.emax (F32.of_Z v) g255.
Proof.
  intros H. unfold F32.of_Z.
  apply (binary_normalize_le_bound F32.prec F32.emax eq_refl); [lia | exact g255_bound |].
  rewrite g255_value. unfold pow2. simpl Qpower. rewrite Qmult_1_r.
  change 255%Q with (inject_Z 255). rewrite <- Zle_Qle. lia.
Qed.

(** One weighted channel [k * v] of the luma stays under its bound. *)
Lemma weighted_channel (k B : spec_float) (v : Z) :
  is_bound F32.prec F32.emax k = true ->
  is_bound F32.prec F32.emax B = true ->
  (SF2Q k * 255 <= SF2Q B)%Q ->
  0 <= v <= 255 ->
  le_bound F32.prec F32.emax (F32.mul k (F32.of_Z v)) B.
Proof.
  intros Hk HB Hle Hv.
  destruct (is_bound_nonneg_valid _ _ _ Hk) as [Nk Vk].
  destruct (le_bound_Q _ _ _ _ 255%Q (of_Z_channel v Hv) g255_value) as [Nv [Vv [V0 V1]]].
  pose proof (nonneg_SF2Q k Nk) as K0.
  apply (SFmul_le_bound F32.prec F32.emax eq_refl eq_refl); try assumption.
  nra.
Qed.

Lemma lum_bound (r g b : Z) :
  0 <= r <= 255 -> 0 <= g <= 255 -> 0 <= b <= 255 ->
  le_bound F32.prec F32.emax (pixel_lum r g b) B_lum.
Proof.
  intros Hr Hg Hb.
  assert (Pr : le_bound F32.prec F32.emax (F32.mul k299 (F32.of_Z r)) B_r).
  { apply weighted_channel; try assumption; vm_compute; (reflexivity || discriminate). }
  assert (Pg : le_bound F32.prec F32.emax (F32.mul k587 (F32.of_Z g)) B_g).
  { apply weighted_channel; try assumption; vm_compute; (reflexivity || discriminate). }
  assert (Pb : le_bound F32.prec F32.emax (F32.mul k114 (F32.of_Z b)) B_b).
  { apply weighted_channel; try assumption; vm_compute; (reflexivity || discriminate). }
  destruct Pr as [Nr [Vr Lr]]. destruct Pg as [Ng [Vg Lg]]. destruct Pb as [Nb [Vb Lb]].
  assert (Er : (SF2Q B_r == 305 # 4)%Q) by (vm_compute; reflexivity).
  assert (Eg : (SF2Q B_g == 599 # 4)%Q) by (vm_compute; reflexivity).
  assert (Eb : (SF2Q B_b == 233 # 8)%Q) by (vm_compute; reflexivity).
  assert (Erg : (SF2Q B_rg == 226)%Q) by (vm_compute; reflexivity).
  assert (El : (SF2Q B_lum == 2041 # 8)%Q) by (vm_compute; reflexivity).
  assert (Prg : le_bound F32.prec F32.emax
                  (F32.add (F32.mul k299 (F32.of_Z r)) (F32.mul k587 (F32.of_Z g))) B_rg).
  { apply (SFadd_le_bound F32.prec F32.emax eq_refl); try assumption.
    - vm_compute; reflexivity.
    - rewrite Erg. lra. }
  destruct Prg as [Nrg [Vrg Lrg]].
  unfold pixel_lum. apply (SFadd_le_bound F32.prec F32.emax eq_refl); try assumption.
  - vm_compute; reflexivity.
  - rewrite El. lra.
Qed.

Lemma lum_norm_bound (r g b : Z) :
  0 <= r <= 255 -> 0 <= g <= 255 -> 0 <= b <= 255 ->
  le_bound F32.prec F32.emax (pixel_lum_norm r g b) B_ln.
Proof.
  intros Hr Hg Hb. destruct (lum_bound r g b Hr Hg Hb) as [Nl [Vl Ll]].
  assert (El : (SF2Q B_lum == 2041 # 8)%Q) by (vm_compute; reflexivity).
  assert (En : (SF2Q B_ln == 1025 # 1024)%Q) by (vm_compute; reflexivity).
  unfold pixel_lum_norm. apply (SFdiv_le_bound F32.prec F32.emax eq_refl); try assumption.
  - exact g255_bound.
  - vm_compute; reflexivity.
  - rewrite En, g255_value. lra.
Qed.

(** Clipping to [0, 1] keeps a bound that holds before it. *)
Lemma np_clip_le_bound (p F : spec_float) :
  is_bound F32.prec F32.emax F = true ->
  le_bound F32.prec F32.emax p F ->
  le_bound F32.prec F32.emax (np_clip p g0 g1) F
  /\ (SF2Q (np_clip p g0 g1) <= 1)%Q.
Proof.
  intros HF [Np [Vp Lp]].
  destruct (is_bound_nonneg_valid _ _ _ g1_bound) as [N1 V1].
  assert (Hm : le_bound F32.prec F32.emax (if flt g0 p then p else g0) F).
  { destruct (flt g0 p); [repeat split; assumption | apply le_bound_zero; exact HF]. }
  assert (E : np_clip p g0 g1
              = if flt (if flt g0 p then p else g0) g1 then (if flt g0 p then p else g0) else g1).
  { destruct p as [[|] | | | [|] m e]; try discriminate; reflexivity. }
  rewrite E. set (m := if flt g0 p then p else g0) in *.
  destruct Hm as [Nm [Vm Lm]].
  pose proof (SFltb_value F32.prec F32.emax m g1 Nm Vm N1 V1) as Hlt.
  unfold flt. destruct (SFltb m g1) eqn:C.
  - split; [repeat split; assumption|].
    apply Qlt_le_weak. rewrite <- g1_value. apply Hlt. reflexivity.
  - split; [|rewrite g1_value; apply Qle_refl].
    repeat split; try assumption.
    apply Qle_trans with (y := SF2Q m); [|exact Lm].
    apply Qnot_lt_le. intros L. apply Hlt in L. discriminate.
Qed.

(** Dropping the fraction of a float below [n + 1] gives at most [n]. *)
Lemma to_uint8_le (x : spec_float) (n : Z) :
  nonneg x = true -> (SF2Q x < inject_Z (n + 1))%Q -> n <= 255 ->
  0 <= to_uint8 x <= n.
Proof.
  intros Nx Hlt Hn.
  destruct x as [[|] | | | [|] m e]; try discriminate.
  - simpl. unfold SF2Q, Qlt in Hlt. simpl in Hlt. lia.
  - simpl SF2Q in Hlt.
    assert (H1 : (inject_Z (n + 1) == inject_Z (n + 1) * pow2 0)%Q)
      by (unfold pow2; simpl; ring).
    rewrite H1 in Hlt. unfold to_uint8.
    assert (A : forall a, 0 <= a < n + 1 -> 0 <= a mod 256 <= n).
    { intros a Ha. rewrite Z.mod_small; lia. }
    apply A. destruct e as [|p|p].
    + apply (dy_lt_iff 0) in Hlt; try lia.
    + apply (dy_lt_iff 0) in Hlt; try lia.
      rewrite !Z.sub_0_r in Hlt. change (2 ^ 0) with 1 in Hlt.
      pose proof (pow2_pos (Zpos p)). nia.
    + apply (dy_lt_iff (Zneg p)) in Hlt; try lia.
      rewrite Z.sub_diag in Hlt. change (2 ^ 0) with 1 in Hlt.
      replace (0 - Zneg p) with (Zpos p) in Hlt by lia.
      pose proof (pow2_pos (Zpos p) ltac:(lia)) as Pk.
      split; [apply Z.div_pos; lia|].
      apply Z.div_lt_upper_bound; lia.
Qed.

Lemma channel_check_all : forallb channel_check (Zrange 256) = true.
Proof. vm_compute. reflexivity. Qed.

Lemma tint_channel_le (ln : spec_float) (c : Z) :
  le_bound F32.prec F32.emax ln B_ln -> 0 <= c <= 255 ->
  0 <= tint_channel ln c <= c.
Proof.
  intros [Nl [Vl Ll]] Hc.
  pose proof (Zrange_forall channel_check 256 channel_check_all c ltac:(lia)) as K.
  unfold channel_check in K. cbv zeta in K.
  repeat (apply andb_true_iff in K; let K' := fresh "K" in destruct K as [K K']).
  rename K into Nb, K5 into Vb, K4 into Bp, K3 into Bs, K2 into Q1, K1 into Q2, K0 into Q3.
  apply Qle_bool_iff in Q1, Q2, Q3.
  set (bn := F32.div (F32.of_Z c) g255) in *.
  pose proof (nonneg_SF2Q bn Nb) as B0.
  pose proof (nonneg_SF2Q ln Nl) as L0.
  assert (Hp : le_bound F32.prec F32.emax (F32.mul ln bn) (B_prod c)).
  { apply (SFmul_le_bound F32.prec F32.emax eq_refl eq_refl); try assumption.
    apply Qle_trans with (y := (SF2Q B_ln * SF2Q bn)%Q); [|exact Q1].
    apply Qmult_le_compat_r; assumption. }
  destruct (np_clip_le_bound _ _ Bp Hp) as [[Nc [Vc Lc]] _].
  destruct (is_bound_nonneg_valid _ _ _ g255_bound) as [N255 V255].
  pose proof (nonneg_SF2Q _ Nc) as C0.
  assert (Hq : le_bound F32.prec F32.emax (F32.mul (np_clip (F32.mul ln bn) g0 g1) g255) (B_scaled c)).
  { apply (SFmul_le_bound F32.prec F32.emax eq_refl eq_refl); try assumption.
    rewrite g255_value.
    apply Qle_trans with (y := (SF2Q (B_prod c) * 255)%Q); [|exact Q2].
    apply Qmult_le_compat_r; [exact Lc | discriminate]. }
  destruct Hq as [Nq [Vq Lq]].
  unfold tint_channel. fold bn.
  apply to_uint8_le; [exact Nq | | lia].
  rewrite inject_Z_plus. change (inject_Z 1) with 1%Q. lra.
Qed.

Lemma pixel_at_8bit (g : grid pixel) (y x : nat) (p : pixel) :
  grid_8bit g = true -> pixel_at g y x = Some p -> pixel_8bit p = true.
Proof.
  unfold grid_8bit, pixel_at. intros H Hp. rewrite forallb_forall in H.
  destruct (nth_error g y) as [row|] eqn:Er; [|discriminate].
  apply nth_error_In in Er. apply H in Er. rewrite forallb_forall in Er.
  apply Er. eapply nth_error_In. exact Hp.
Qed.

(** [C10] For every image of 8-bit channels, every pixel and every 8-bit tint
    color, each RGB channel of the tinter's output lies between 0 and the
    same channel of the tint; the product of the normalized luma and the
    normalized tint lies in [0, 1] after the clip, before it is scaled back. *)
Theorem C10_tint_never_exceeds (img : image) (biome_rgb : color) (y x : nat) (q : pixel) :
  rgb_8bit biome_rgb = true ->
  grid_8bit (convert_RGBA img) = true ->
  pixel_at (tint_grayscale_rgba img biome_rgb) y x = Some q ->
  (let '(cr, cg, cb) := biome_rgb in
   0 <= red q <= cr /\ 0 <= green q <= cg /\ 0 <= blue q <= cb)
  /\ exists p, pixel_at (convert_RGBA img) y x = Some p
     /\ forall c, 0 <= c <= 255 ->
          (0 <= SF2Q (np_clip (F32.mul (pixel_lum_norm (red p) (green p) (blue p))
                                       (F32.div (F32.of_Z c) g255)) g0 g1) <= 1)%Q.
Proof.
  intros Hc Hg Hq. destruct biome_rgb as [[cr cg] cb].
  destruct (rgb_8bit_range cr cg cb Hc) as [Rr [Rg Rb]].
  rewrite tint_pixelwise, pixel_at_map in Hq.
  destruct (pixel_at (convert_RGBA img) y x) as [p|] eqn:Hp; [|discriminate].
  simpl in Hq. injection Hq as <-.
  pose proof (pixel_at_8bit _ _ _ _ Hg Hp) as P8.
  unfold pixel_8bit in P8. rewrite !andb_true_iff, !channel_8bit_range in P8.
  destruct P8 as [[[Pr Pg] Pb] Pa].
  pose proof (lum_norm_bound (red p) (green p) (blue p) Pr Pg Pb) as Hl.
  split.
  - simpl. repeat split; apply tint_channel_le; assumption.
  - exists p. split; [reflexivity|]. intros c Rc.
    pose proof (Zrange_forall channel_check 256 channel_check_all c ltac:(lia)) as K.
    unfold channel_check in K. cbv zeta in K.
    repeat (apply andb_true_iff in K; let K' := fresh "K" in destruct K as [K K']).
    apply Qle_bool_iff in K2.
    destruct Hl as [Nl [Vl Ll]].
    pose proof (nonneg_SF2Q _ K) as B0.
    assert (Hm : le_bound F32.prec F32.emax
                   (F32.mul (pixel_lum_norm (red p) (green p) (blue p)) (F32.div (F32.of_Z c) g255))
                   (B_prod c)).
    { apply (SFmul_le_bound F32.prec F32.emax eq_refl eq_refl); try assumption.
      apply Qle_trans with (y := (SF2Q B_ln * SF2Q (F32.div (F32.of_Z c) g255))%Q);
        [|exact K2].
      apply Qmult_le_compat_r; assumption. }
    destruct (np_clip_le_bound _ _ K4 Hm) as [[Nc _] Lc].
    split; [apply nonneg_SF2Q; exact Nc | exact Lc].
Qed.

Lemma C10_tint_never_exceeds_witness :
  (let '(cr, cg, cb) := (10, 20, 30) in
   0 <= red (tint_pixel (10, 20, 30) (mk_pixel 200 100 50 7)) <= cr
   /\ 0 <= green (tint_pixel (10, 20, 30) (mk_pixel 200 100 50 7)) <= cg
   /\ 0 <= blue (tint_pixel (10, 20, 30) (mk_pixel 200 100 50 7)) <= cb)
  /\ exists p, pixel_at (convert_RGBA (ImgRGBA [[mk_pixel 200 100 50 7]])) 0 0 = Some p
     /\ forall c, 0 <= c <= 255 ->
          (0 <= SF2Q (np_clip (F32.mul (pixel_lum_norm (red p) (green p) (blue p))
                                       (F32.div (F32.of_Z c) g255)) g0 g1) <= 1)%Q.
Proof.
  apply (C10_tint_never_exceeds (ImgRGBA [[mk_pixel 200 100 50 7]]) (10, 20, 30) 0 0
           (tint_pixel (10, 20, 30) (mk_pixel 200 100 50 7)));
    reflexivity.
Defined.

(** * The tinter: order *)

Lemma inject_Z_pow2_0 (v : Z) : (inject_Z v * pow2 0 == inject_Z v)%Q.
Proof. unfold pow2. simpl Qpower. ring. Qed.

Lemma of_Z_mono (v v' : Z) :
  0 <= v <= v' -> v' <= 255 -> (SF2Q (F32.of_Z v) <= SF2Q (F32.of_Z v'))%Q.
Proof.
  intros H H'. unfold F32.of_Z.
  apply (binary_normalize_mono F32.prec F32.emax eq_refl _ _ _ _ g255);
    try lia; try exact g255_bound.
  - rewrite !inject_Z_pow2_0. rewrite <- Zle_Qle. lia.
  - rewrite inject_Z_pow2_0, g255_value. change 255%Q with (inject_Z 255).
    rewrite <- Zle_Qle. lia.
Qed.

(** What the evaluation of [channel_check] gives for one tint channel. *)
Lemma channel_facts (c : Z) :
  0 <= c <= 255 ->
  let bn := F32.div (F32.of_Z c) g255 in
  nonneg bn = true /\ F32.valid bn = true
  /\ is_bound F32.prec F32.emax (B_prod c) = true
  /\ is_bound F32.prec F32.emax (B_scaled c) = true
  /\ (SF2Q B_ln * SF2Q bn <= SF2Q (B_prod c))%Q
  /\ (SF2Q (B_prod c) * 255 <= SF2Q (B_scaled c))%Q
  /\ (SF2Q (B_scaled c) <= inject_Z c + (3 # 4))%Q.
Proof.
  intros Hc.
  pose proof (Zrange_forall channel_check 256 channel_check_all c ltac:(lia)) as K.
  unfold channel_check in K. cbv zeta in K |- *.
  repeat (apply andb_true_iff in K; let K' := fresh "K" in destruct K as [K K']).
  apply Qle_bool_iff in K2, K1, K0. repeat split; assumption.
Qed.

Lemma biome_mono (c c' : Z) :
  0 <= c <= c' -> c' <= 255 ->
  (SF2Q (F32.div (F32.of_Z c) g255) <= SF2Q (F32.div (F32.of_Z c') g255))%Q.
Proof.
  intros H H'.
  destruct (le_bound_Q _ _ _ _ 255%Q (of_Z_channel c ltac:(lia)) g255_value) as [N [V [L0 L1]]].
  destruct (le_bound_Q _ _ _ _ 255%Q (of_Z_channel c' ltac:(lia)) g255_value) as [N' [V' [L0' L1']]].
  apply (SFdiv_mono F32.prec F32.emax eq_refl _ _ _ g1); try assumption.
  - exact g255_bound.
  - apply of_Z_mono; lia.
  - exact g1_bound.
  - rewrite g1_value, g255_value. lra.
Qed.

(** The value of a clipped non-negative float is the smaller of it and 1. *)
Lemma np_clip_value (p : spec_float) :
  nonneg p = true -> F32.valid p = true ->
  ((SF2Q p <= 1)%Q -> (SF2Q (np_clip p g0 g1) == SF2Q p)%Q)
  /\ ((1 <= SF2Q p)%Q -> (SF2Q (np_clip p g0 g1) == 1)%Q).
Proof.
  intros Np Vp.
  destruct (is_bound_nonneg_valid _ _ _ g1_bound) as [N1 V1].
  assert (E : np_clip p g0 g1
              = if flt (if flt g0 p then p else g0) g1 then (if flt g0 p then p else g0) else g1).
  { destruct p as [[|] | | | [|] m e]; try discriminate; reflexivity. }
  rewrite E. clear E.
  assert (Hm : nonneg (if flt g0 p then p else g0) = true
               /\ F32.valid (if flt g0 p then p else g0) = true
               /\ (SF2Q (if flt g0 p then p else g0) == SF2Q p)%Q).
  { unfold flt. pose proof (SFltb_value F32.prec F32.emax g0 p eq_refl eq_refl Np Vp) as H0.
    destruct (SFltb g0 p) eqn:C; [repeat split; try assumption; apply Qeq_refl|].
    split; [reflexivity|]. split; [reflexivity|].
    pose proof (nonneg_SF2Q p Np) as P0.
    assert (~ (SF2Q g0 < SF2Q p)%Q) by (intros L; apply H0 in L; discriminate).
    change (SF2Q g0) with 0%Q in *. lra. }
  set (m := if flt g0 p then p else g0) in *.
  destruct Hm as [Nm [Vm Em]].
  pose proof (SFltb_value F32.prec F32.emax m g1 Nm Vm N1 V1) as Hlt.
  pose proof g1_value as G1.
  unfold flt. destruct (SFltb m g1) eqn:C.
  - assert (L : (SF2Q m < SF2Q g1)%Q) by (apply Hlt; reflexivity).
    split; intros H; lra.
  - assert (L : ~ (SF2Q m < SF2Q g1)%Q) by (intros L; apply Hlt in L; discriminate).
    split; intros H; lra.
Qed.

Lemma np_clip_mono (p p' : spec_float) :
  nonneg p = true -> F32.valid p = true ->
  nonneg p' = true -> F32.valid p' = true ->
  (SF2Q p <= SF2Q p')%Q ->
  (SF2Q (np_clip p g0 g1) <= SF2Q (np_clip p' g0 g1))%Q.
Proof.
  intros Np Vp Np' Vp' L.
  destruct (np_clip_value p Np Vp) as [A B].
  destruct (np_clip_value p' Np' Vp') as [A' B'].
  destruct (Qlt_le_dec (SF2Q p') 1) as [H|H].
  - rewrite A, A' by lra. exact L.
  - rewrite B' by exact H.
    destruct (Qlt_le_dec (SF2Q p) 1) as [G|G].
    + rewrite A by lra. lra.
    + rewrite B by exact G. lra.
Qed.

(** One tinted channel grows with the normalized luma and with the tint. *)
Lemma tint_channel_mono (ln ln' : spec_float) (c c' : Z) :
  le_bound F32.prec F32.emax ln B_ln -> le_bound F32.prec F32.emax ln' B_ln ->
  (SF2Q ln <= SF2Q ln')%Q ->
  0 <= c <= c' -> c' <= 255 ->
  tint_channel ln c <= tint_channel ln' c'.
Proof.
  intros [Nl [Vl Ll]] [Nl' [Vl' Ll']] L Hc Hc'.
  destruct (channel_facts c ltac:(lia)) as (Nb & Vb & Bp & Bs & Q1 & Q2 & Q3).
  destruct (channel_facts c' ltac:(lia)) as (Nb' & Vb' & Bp' & Bs' & Q1' & Q2' & Q3').
  pose proof (biome_mono c c' Hc Hc') as Lb.
  set (bn := F32.div (F32.of_Z c) g255) in *.
  set (bn' := F32.div (F32.of_Z c') g255) in *.
  pose proof (nonneg_SF2Q bn Nb) as B0. pose proof (nonneg_SF2Q bn' Nb') as B0'.
  pose proof (nonneg_SF2Q ln Nl) as L0. pose proof (nonneg_SF2Q ln' Nl') as L0'.
  assert (Hb : (SF2Q ln' * SF2Q bn' <= SF2Q (B_prod c'))%Q).
  { apply Qle_trans with (y := (SF2Q B_ln * SF2Q bn')%Q); [|exact Q1'].
    apply Qmult_le_compat_r; assumption. }
  assert (Hb0 : (SF2Q ln * SF2Q bn <= SF2Q (B_prod c))%Q).
  { apply Qle_trans with (y := (SF2Q B_ln * SF2Q bn)%Q); [|exact Q1].
    apply Qmult_le_compat_r; assumption. }
  assert (Hp : le_bound F32.prec F32.emax (F32.mul ln bn) (B_prod c))
    by (apply (SFmul_le_bound F32.prec F32.emax eq_refl eq_refl); assumption).
  assert (Hp' : le_bound F32.prec F32.emax (F32.mul ln' bn') (B_prod c'))
    by (apply (SFmul_le_bound F32.prec F32.emax eq_refl eq_refl); assumption).
  assert (Lp : (SF2Q (F32.mul ln bn) <= SF2Q (F32.mul ln' bn'))%Q).
  { apply (SFmul_mono F32.prec F32.emax eq_refl eq_refl _ _ _ _ (B_prod c')); assumption. }
  destruct (np_clip_le_bound _ _ Bp Hp) as [[Nc [Vc Lc]] _].
  destruct (np_clip_le_bound _ _ Bp' Hp') as [[Nc' [Vc' Lc']] _].
  destruct Hp as [Np [Vp _]]. destruct Hp' as [Np' [Vp' _]].
  pose proof (np_clip_mono _ _ Np Vp Np' Vp' Lp) as Lk.
  destruct (is_bound_nonneg_valid _ _ _ g255_bound) as [N255 V255].
  pose proof (nonneg_SF2Q _ Nc) as C0. pose proof (nonneg_SF2Q _ Nc') as C0'.
  assert (Hs : (SF2Q (np_clip (F32.mul ln bn) g0 g1) * SF2Q g255 <= SF2Q (B_scaled c))%Q).
  { rewrite g255_value.
    apply Qle_trans with (y := (SF2Q (B_prod c) * 255)%Q); [|exact Q2].
    apply Qmult_le_compat_r; [exact Lc | discriminate]. }
  assert (Hs' : (SF2Q (np_clip (F32.mul ln' bn') g0 g1) * SF2Q g255 <= SF2Q (B_scaled c'))%Q).
  { rewrite g255_value.
    apply Qle_trans with (y := (SF2Q (B_prod c') * 255)%Q); [|exact Q2'].
    apply Qmult_le_compat_r; [exact Lc' | discriminate]. }
  assert (Hq : le_bound F32.prec F32.emax
                 (F32.mul (np_clip (F32.mul ln bn) g0 g1) g255) (B_scaled c))
    by (apply (SFmul_le_bound F32.prec F32.emax eq_refl eq_refl); assumption).
  assert (Hq' : le_bound F32.prec F32.emax
                  (F32.mul (np_clip (F32.mul ln' bn') g0 g1) g255) (B_scaled c'))
    by (apply (SFmul_le_bound F32.prec F32.emax eq_refl eq_refl); assumption).
  destruct Hq as [Nq [Vq Lq]]. destruct Hq' as [Nq' [Vq' Lq']].
  unfold tint_channel. fold bn. fold bn'.
  apply to_uint8_mono; try assumption.
  - apply (SFmul_mono F32.prec F32.emax eq_refl eq_refl _ _ _ _ (B_scaled c'));
      try assumption. apply Qle_refl.
  - assert (inject_Z c' <= 255)%Q by (change 255%Q with (inject_Z 255); rewrite <- Zle_Qle; lia).
    lra.
Qed.

(** The normalized luma grows with each channel of the pixel. *)
Lemma pixel_lum_norm_mono (r g b r' g' b' : Z) :
  0 <= r <= r' -> r' <= 255 -> 0 <= g <= g' -> g' <= 255 -> 0 <= b <= b' -> b' <= 255 ->
  (SF2Q (pixel_lum_norm r g b) <= SF2Q (pixel_lum_norm r' g' b'))%Q.
Proof.
  intros Hr Hr' Hg Hg' Hb Hb'.
  assert (W : forall k B v v', is_bound F32.prec F32.emax k = true ->
              is_bound F32.prec F32.emax B = true -> (SF2Q k * 255 <= SF2Q B)%Q ->
              0 <= v <= v' -> v' <= 255 ->
              (SF2Q (F32.mul k (F32.of_Z v)) <= SF2Q (F32.mul k (F32.of_Z v')))%Q).
  { intros k B v v' Hk HB Hle Hv Hv'.
    destruct (is_bound_nonneg_valid _ _ _ Hk) as [Nk Vk].
    destruct (le_bound_Q _ _ _ _ 255%Q (of_Z_channel v ltac:(lia)) g255_value) as [Nv [Vv [V0 V1]]].
    destruct (le_bound_Q _ _ _ _ 255%Q (of_Z_channel v' ltac:(lia)) g255_value)
      as [Nv' [Vv' [V0' V1']]].
    pose proof (nonneg_SF2Q k Nk) as K0.
    apply (SFmul_mono F32.prec F32.emax eq_refl eq_refl _ _ _ _ B); try assumption.
    - apply Qle_refl.
    - apply of_Z_mono; lia.
    - nra. }
  assert (Kr : is_bound F32.prec F32.emax k299 = true) by (vm_compute; reflexivity).
  assert (Kg : is_bound F32.prec F32.emax k587 = true) by (vm_compute; reflexivity).
  assert (Kb : is_bound F32.prec F32.emax k114 = true) by (vm_compute; reflexivity).
  assert (Br : is_bound F32.prec F32.emax B_r = true) by (vm_compute; reflexivity).
  assert (Bg : is_bound F32.prec F32.emax B_g = true) by (vm_compute; reflexivity).
  assert (Bb : is_bound F32.prec F32.emax B_b = true) by (vm_compute; reflexivity).
  assert (Cr : (SF2Q k299 * 255 <= SF2Q B_r)%Q) by (vm_compute; discriminate).
  assert (Cg : (SF2Q k587 * 255 <= SF2Q B_g)%Q) by (vm_compute; discriminate).
  assert (Cb : (SF2Q k114 * 255 <= SF2Q B_b)%Q) by (vm_compute; discriminate).
  pose proof (W _ _ r r' Kr Br Cr Hr Hr') as Mr.
  pose proof (W _ _ g g' Kg Bg Cg Hg Hg') as Mg.
  pose proof (W _ _ b b' Kb Bb Cb Hb Hb') as Mb.
  destruct (weighted_channel k299 B_r r Kr Br Cr ltac:(lia)) as [Nr [Vr Lr]].
  destruct (weighted_channel k587 B_g g Kg Bg Cg ltac:(lia)) as [Ng [Vg Lg]].
  destruct (weighted_channel k114 B_b b Kb Bb Cb ltac:(lia)) as [Nb [Vb Lb]].
  destruct (weighted_channel k299 B_r r' Kr Br Cr ltac:(lia)) as [Nr' [Vr' Lr']].
  destruct (weighted_channel k587 B_g g' Kg Bg Cg ltac:(lia)) as [Ng' [Vg' Lg']].
  destruct (weighted_channel k114 B_b b' Kb Bb Cb ltac:(lia)) as [Nb' [Vb' Lb']].
  assert (Er : (SF2Q B_r == 305 # 4)%Q) by (vm_compute; reflexivity).
  assert (Eg : (SF2Q B_g == 599 # 4)%Q) by (vm_compute; reflexivity).
  assert (Eb : (SF2Q B_b == 233 # 8)%Q) by (vm_compute; reflexivity).
  assert (Erg : (SF2Q B_rg == 226)%Q) by (vm_compute; reflexivity).
  assert (El : (SF2Q B_lum == 2041 # 8)%Q) by (vm_compute; reflexivity).
  assert (En : (SF2Q B_ln == 1025 # 1024)%Q) by (vm_compute; reflexivity).
  assert (Brg : is_bound F32.prec F32.emax B_rg = true) by (vm_compute; reflexivity).
  assert (Bl : is_bound F32.prec F32.emax B_lum = true) by (vm_compute; reflexivity).
  assert (Bn : is_bound F32.prec F32.emax B_ln = true) by (vm_compute; reflexivity).
  assert (Prg : le_bound F32.prec F32.emax
                  (F32.add (F32.mul k299 (F32.of_Z r)) (F32.mul k587 (F32.of_Z g))) B_rg).
  { apply (SFadd_le_bound F32.prec F32.emax eq_refl); try assumption. rewrite Erg. lra. }
  assert (Prg' : le_bound F32.prec F32.emax
                  (F32.add (F32.mul k299 (F32.of_Z r')) (F32.mul k587 (F32.of_Z g'))) B_rg).
  { apply (SFadd_le_bound F32.prec F32.emax eq_refl); try assumption. rewrite Erg. lra. }
  assert (Mrg : (SF2Q (F32.add (F32.mul k299 (F32.of_Z r)) (F32.mul k587 (F32.of_Z g)))
                 <= SF2Q (F32.add (F32.mul k299 (F32.of_Z r')) (F32.mul k587 (F32.of_Z g'))))%Q).
  { apply (SFadd_mono F32.prec F32.emax eq_refl _ _ _ _ B_rg); try assumption.
    rewrite Erg. lra. }
  destruct Prg as [Nrg [Vrg Lrg]]. destruct Prg' as [Nrg' [Vrg' Lrg']].
  assert (Ml : (SF2Q (pixel_lum r g b) <= SF2Q (pixel_lum r' g' b'))%Q).
  { unfold pixel_lum, luma601.
    apply (SFadd_mono F32.prec F32.emax eq_refl _ _ _ _ B_lum); try assumption.
    rewrite El. lra. }
  destruct (lum_bound r g b ltac:(lia) ltac:(lia) ltac:(lia)) as [Nl [Vl Ll]].
  destruct (lum_bound r' g' b' ltac:(lia) ltac:(lia) ltac:(lia)) as [Nl' [Vl' Ll']].
  unfold pixel_lum_norm.
  apply (SFdiv_mono F32.prec F32.emax eq_refl _ _ _ B_ln);
    try assumption; try exact g255_bound.
  rewrite En, g255_value. lra.
Qed.


Lemma pixel_8bit_range (p : pixel) :
  pixel_8bit p = true ->
  0 <= red p <= 255 /\ 0 <= green p <= 255 /\ 0 <= blue p <= 255 /\ 0 <= alpha p <= 255.
Proof.
  unfold pixel_8bit. rewrite !andb_true_iff, !channel_8bit_range. tauto.
Qed.



Lemma black_channel_all :
  forallb (fun c => tint_channel (pixel_lum_norm 0 0 0) c =? 0) (Zrange 256) = true.
Proof. vm_compute. reflexivity. Qed.



Lemma gray_check_all : forallb gray_check (Zrange 256) = true.
Proof. vm_compute. reflexivity. Qed.

Lemma gray_channel (v c : Z) :
  0 <= v <= 255 -> 0 <= c <= 255 ->
  v * c / 255 - 1 <= tint_channel (pixel_lum_norm v v v) c <= v * c / 255.
Proof.
  intros Hv Hc.
  pose proof (Zrange_forall gray_check 256 gray_check_all v ltac:(lia)) as K.
  unfold gray_check in K. cbv zeta in K.
  pose proof (Zrange_forall _ 256 K c ltac:(lia)) as K'. cbv beta in K'.
  apply andb_true_iff in K'. destruct K' as [A B].
  apply Z.leb_le in A, B. lia.
Qed.

Lemma black_channel (c : Z) :
  0 <= c <= 255 -> tint_channel (pixel_lum_norm 0 0 0) c = 0.
Proof.
  intros Hc.
  pose proof (Zrange_forall _ 256 black_channel_all c ltac:(lia)) as K. cbv beta in K.
  apply Z.eqb_eq in K. exact K.
Qed.

(** [X7] For every image of 8-bit channels and every 8-bit tint,
    a black pixel comes out black, and with a black tint every pixel comes
    out black; the alpha is kept. *)
Theorem tinter_black (img : image) (biome_rgb : color) (y x : nat) (p : pixel) :
  rgb_8bit biome_rgb = true ->
  grid_8bit (convert_RGBA img) = true ->
  pixel_at (convert_RGBA img) y x = Some p ->
  (red p = 0 /\ green p = 0 /\ blue p = 0) \/ biome_rgb = (0, 0, 0) ->
  pixel_at (tint_grayscale_rgba img biome_rgb) y x = Some (mk_pixel 0 0 0 (alpha p)).
Proof.
  intros Hc Hg Hp Hb. destruct biome_rgb as [[cr cg] cb].
  destruct (rgb_8bit_range cr cg cb Hc) as [Rr [Rg Rb]].
  rewrite tint_pixelwise, pixel_at_map, Hp. cbv beta iota delta [option_map].
  f_equal. unfold tint_pixel.
  destruct Hb as [[Er [Eg Eb]] | E].
  - rewrite Er, Eg, Eb, !black_channel by assumption. reflexivity.
  - injection E as -> -> ->.
    destruct (pixel_8bit_range p (pixel_at_8bit _ _ _ _ Hg Hp)) as (Pr & Pg & Pb & _).
    pose proof (tint_channel_le _ 0 (lum_norm_bound _ _ _ Pr Pg Pb) ltac:(lia)) as Z0.
    replace (tint_channel (pixel_lum_norm (red p) (green p) (blue p)) 0) with 0 by lia.
    reflexivity.
Qed.

Lemma tinter_black_witness :
  pixel_at (tint_grayscale_rgba (ImgLA [[(0, 77); (200, 3)]]) (120, 180, 90)) 0 0
  = Some (mk_pixel 0 0 0 (alpha (mk_pixel 0 0 0 77))).
Proof.
  apply (tinter_black (ImgLA [[(0, 77); (200, 3)]]) (120, 180, 90) 0 0 (mk_pixel 0 0 0 77));
    [reflexivity | reflexivity | reflexivity | left; repeat split].
Defined.

(** [X8] For every gray pixel (equal channels, as in a
    grayscale texture) of level [v] and every 8-bit tint, each output channel
    is the integer part of [v * c / 255] or one less, [c] being the tint
    channel: the float32 pipeline never exceeds the exact product and loses
    at most one level. It does lose one: level 37 under a white tint comes
    out as 36. *)
Theorem tinter_gray_accuracy (img : image) (biome_rgb : color) (y x : nat) (p : pixel) (v : Z) :
  rgb_8bit biome_rgb = true ->
  pixel_at (convert_RGBA img) y x = Some p ->
  0 <= v <= 255 -> red p = v -> green p = v -> blue p = v ->
  (exists q, pixel_at (tint_grayscale_rgba img biome_rgb) y x = Some q
     /\ let '(cr, cg, cb) := biome_rgb in
        v * cr / 255 - 1 <= red q <= v * cr / 255
        /\ v * cg / 255 - 1 <= green q <= v * cg / 255
        /\ v * cb / 255 - 1 <= blue q <= v * cb / 255)
  /\ tint_grayscale_rgba (ImgL [[37]]) (255, 255, 255) = [[mk_pixel 36 36 36 255]].
Proof.
  intros Hc Hp Hv Er Eg Eb. split; [|vm_compute; reflexivity].
  destruct biome_rgb as [[cr cg] cb].
  destruct (rgb_8bit_range cr cg cb Hc) as [Rr [Rg Rb]].
  rewrite tint_pixelwise, pixel_at_map, Hp. cbv beta iota delta [option_map].
  eexists. split; [reflexivity|].
  unfold tint_pixel. cbn [red green blue alpha]. rewrite Er, Eg, Eb.
  repeat split; apply gray_channel; assumption.
Qed.

Lemma tinter_gray_accuracy_witness :
  (exists q, pixel_at (tint_grayscale_rgba (ImgL [[93]]) (85, 170, 255)) 0 0 = Some q
     /\ let '(cr, cg, cb) := (85, 170, 255) in
        93 * cr / 255 - 1 <= red q <= 93 * cr / 255
        /\ 93 * cg / 255 - 1 <= green q <= 93 * cg / 255
        /\ 93 * cb / 255 - 1 <= blue q <= 93 * cb / 255)
  /\ tint_grayscale_rgba (ImgL [[37]]) (255, 255, 255) = [[mk_pixel 36 36 36 255]].
Proof.
  apply (tinter_gray_accuracy (ImgL [[93]]) (85, 170, 255) 0 0 (mk_pixel 93 93 93 255) 93);
    [reflexivity | reflexivity | lia | reflexivity | reflexivity | reflexivity].
Defined.

(** [X9] For 8-bit pixels and tints, a pixel that is at least
    as bright in every channel, tinted with a color that is at least as
    bright in every channel, comes out at least as bright in every channel:
    the rounding of the float32 pipeline never reverses the order. *)
Theorem tinter_monotone (img img' : image) (biome_rgb biome_rgb' : color) (y x : nat)
        (p p' : pixel) :
  rgb_8bit biome_rgb' = true ->
  pixel_at (convert_RGBA img) y x = Some p ->
  pixel_at (convert_RGBA img') y x = Some p' ->
  pixel_8bit p' = true ->
  0 <= red p <= red p' -> 0 <= green p <= green p' -> 0 <= blue p <= blue p' ->
  (let '(cr, cg, cb) := biome_rgb in let '(cr', cg', cb') := biome_rgb' in
   0 <= cr <= cr' /\ 0 <= cg <= cg' /\ 0 <= cb <= cb') ->
  exists q q',
    pixel_at (tint_grayscale_rgba img biome_rgb) y x = Some q
    /\ pixel_at (tint_grayscale_rgba img' biome_rgb') y x = Some q'
    /\ red q <= red q' /\ green q <= green q' /\ blue q <= blue q'.
Proof.
  intros Hc' Hp Hp' H8 Hr Hg Hb Hcc.
  destruct biome_rgb as [[cr cg] cb]. destruct biome_rgb' as [[cr' cg'] cb'].
  destruct Hcc as (Cr & Cg & Cb).
  destruct (rgb_8bit_range cr' cg' cb' Hc') as [Rr [Rg Rb]].
  destruct (pixel_8bit_range p' H8) as (Pr & Pg & Pb & _).
  rewrite !tint_pixelwise, !pixel_at_map, Hp, Hp'. cbv beta iota delta [option_map].
  eexists. eexists. split; [reflexivity|]. split; [reflexivity|].
  unfold tint_pixel. cbn [red green blue alpha].
  pose proof (lum_norm_bound (red p) (green p) (blue p)
                ltac:(lia) ltac:(lia) ltac:(lia)) as Hl.
  pose proof (lum_norm_bound (red p') (green p') (blue p') Pr Pg Pb) as Hl'.
  pose proof (pixel_lum_norm_mono (red p) (green p) (blue p) (red p') (green p') (blue p')
                Hr ltac:(lia) Hg ltac:(lia) Hb ltac:(lia)) as L.
  repeat split; apply tint_channel_mono; (assumption || lia).
Qed.

Lemma tinter_monotone_witness :
  exists q q',
    pixel_at (tint_grayscale_rgba (ImgRGBA [[mk_pixel 17 201 93 9]]) (73, 200, 12)) 0 0 = Some q
    /\ pixel_at (tint_grayscale_rgba (ImgRGB [[(18, 201, 100)]]) (73, 255, 13)) 0 0 = Some q'
    /\ red q <= red q' /\ green q <= green q' /\ blue q <= blue q'.
Proof.
  apply (tinter_monotone (ImgRGBA [[mk_pixel 17 201 93 9]]) (ImgRGB [[(18, 201, 100)]])
           (73, 200, 12) (73, 255, 13) 0 0 (mk_pixel 17 201 93 9) (mk_pixel 18 201 100 255));
    try reflexivity; simpl; lia.
Defined.

(** * The compositor *)

Lemma size_eqb_eq (a b : nat * nat) : size_eqb a b = true <-> a = b.
Proof.
  destruct a as [a1 a2], b as [b1 b2]. unfold size_eqb. simpl.
  rewrite andb_true_iff, !Nat.eqb_eq. split; [intros [-> ->]; reflexivity|].
  intros H. injection H. auto.
Qed.

Lemma size_resize_grid {A} (ns : nat -> nat -> nat -> nat) (fill : A) (g : grid A)
      (w h : nat) :
  (0 < h)%nat -> size (resize_grid ns fill g (w, h)) = (w, h).
Proof.
  intros Hh. unfold resize_grid, size, width, height.
  rewrite length_map, length_seq.
  destruct h as [|h]; [lia|]. simpl. rewrite length_map, length_seq. reflexivity.
Qed.

Lemma length_zip_with {A B C} (f : A -> B -> C) (l1 : list A) (l2 : list B) :
  List.length l1 = List.length l2 -> List.length (zip_with f l1 l2) = List.length l1.
Proof.
  revert l2. induction l1 as [|a l1 IH]; intros [|b l2] H; simpl in *; try discriminate;
    [reflexivity | f_equal; apply IH; lia].
Qed.

Lemma size_zip_with (f : pixel -> pixel -> pixel) (dst src : grid pixel) :
  size dst = size src -> size (zip_with (zip_with f) dst src) = size dst.
Proof.
  unfold size, width, height. intros H. injection H as Hw Hh.
  rewrite length_zip_with by assumption. f_equal.
  destruct dst as [|r1 dst], src as [|r2 src]; simpl in *; try discriminate; try reflexivity.
  apply length_zip_with. exact Hw.
Qed.

Lemma pixel_at_resize_grid {A} (ns : nat -> nat -> nat -> nat) (fill : A) (g : grid A)
      (w h y x : nat) :
  (y < h)%nat -> (x < w)%nat ->
  pixel_at (resize_grid ns fill g (w, h)) y x
  = Some (nth (ns (width g) w x) (nth (ns (height g) h y) g []) fill).
Proof.
  intros Hy Hx. unfold pixel_at, resize_grid. cbv beta iota.
  rewrite nth_error_map, nth_error_nth' with (d := O) by (rewrite length_seq; exact Hy).
  cbv beta iota delta [option_map].
  rewrite nth_error_map, nth_error_nth' with (d := O) by (rewrite length_seq; exact Hx).
  cbv beta iota delta [option_map]. rewrite !seq_nth by assumption. reflexivity.
Qed.

Lemma pixel_at_nth {A} (g : grid A) (i j : nat) (p d : A) :
  pixel_at g i j = Some p -> nth j (nth i g []) d = p.
Proof.
  unfold pixel_at. destruct (nth_error g i) as [row|] eqn:Er; [|discriminate].
  intros Hp. rewrite (nth_error_nth _ _ [] Er). apply nth_error_nth. exact Hp.
Qed.

Lemma size_eqb_refl (a : nat * nat) : size_eqb a a = true.
Proof. apply size_eqb_eq. reflexivity. Qed.

Lemma size_eqb_neq (a b : nat * nat) : size_eqb a b = false <-> a <> b.
Proof.
  destruct (size_eqb a b) eqn:E.
  - apply size_eqb_eq in E. split; [discriminate | contradiction].
  - split; [|reflexivity]. intros _ H. apply size_eqb_eq in H. congruence.
Qed.

(** An overlay that is not RGBA is refused, whatever its size. *)
Lemma composite_not_rgba (ns : nat -> nat -> nat -> nat) (ov : pixel -> pixel -> pixel)
      (base overlay : image) :
  (forall g, overlay <> ImgRGBA g) ->
  composite_overlay_onto_base ns ov base overlay = Raise ValueError.
Proof.
  intros H. unfold composite_overlay_onto_base, resize_nearest.
  destruct (size_eqb (image_size overlay) (size (convert_RGBA base))); simpl negb; cbv iota.
  - destruct overlay; try reflexivity. exfalso. eapply H. reflexivity.
  - destruct ((fst (size (convert_RGBA base)) <? 1)%nat
              || (snd (size (convert_RGBA base)) <? 1)%nat); [reflexivity|].
    destruct overlay; try reflexivity. exfalso. eapply H. reflexivity.
Qed.

(** A base without pixels accepts only an overlay of its own size. *)
Lemma composite_empty_base (ns : nat -> nat -> nat -> nat) (ov : pixel -> pixel -> pixel)
      (base overlay : image) :
  image_size overlay <> image_size base ->
  fst (image_size base) = O \/ snd (image_size base) = O ->
  composite_overlay_onto_base ns ov base overlay = Raise ValueError.
Proof.
  intros Hne Hz. unfold composite_overlay_onto_base, resize_nearest.
  rewrite size_convert_RGBA.
  replace (size_eqb (image_size overlay) (image_size base)) with false
    by (symmetry; apply size_eqb_neq; exact Hne).
  simpl negb. cbv iota.
  replace ((fst (image_size base) <? 1)%nat || (snd (image_size base) <? 1)%nat) with true;
    [reflexivity|].
  symmetry. apply orb_true_iff.
  destruct Hz as [-> | ->]; [left | right]; reflexivity.
Qed.

(** [C6] For every base image and every RGBA overlay that has the
    base's size, or any size when the base has at least one pixel in each
    direction, the compositor returns an RGBA image of the base's dimensions.
    An overlay of another size is first resized to the base's size, each
    pixel of the resized overlay being the pixel of the overlay at the
    source index of its row and column (nearest neighbour, no blending;
    transparent where the index falls outside the overlay), and the result
    is the base and that overlay blended pixel by pixel with the "over"
    operator; an overlay of the base's size is blended as it is. *)
Theorem C6_compositor_size (nearest_src : nat -> nat -> nat -> nat)
        (over : pixel -> pixel -> pixel) (base : image) (overlay : grid pixel) :
  size overlay = image_size base
  \/ ((0 < fst (image_size base))%nat /\ (0 < snd (image_size base))%nat) ->
  exists out,
    composite_overlay_onto_base nearest_src over base (ImgRGBA overlay) = Ok out
    /\ size out = image_size base
    /\ (size overlay <> image_size base ->
        out = zip_with (zip_with over) (convert_RGBA base)
                (resize_grid nearest_src transparent overlay (image_size base))
        /\ resize_nearest nearest_src (ImgRGBA overlay) (image_size base)
           = Ok (ImgRGBA (resize_grid nearest_src transparent overlay (image_size base)))
        /\ size (resize_grid nearest_src transparent overlay (image_size base))
           = image_size base
        /\ forall y x, (y < snd (image_size base))%nat -> (x < fst (image_size base))%nat ->
             pixel_at (resize_grid nearest_src transparent overlay (image_size base)) y x
             = Some (nth (nearest_src (width overlay) (fst (image_size base)) x)
                         (nth (nearest_src (height overlay) (snd (image_size base)) y) overlay [])
                         transparent)
             /\ forall p,
                  pixel_at overlay (nearest_src (height overlay) (snd (image_size base)) y)
                           (nearest_src (width overlay) (fst (image_size base)) x) = Some p ->
                  pixel_at (resize_grid nearest_src transparent overlay (image_size base)) y x
                  = Some p)
    /\ (size overlay = image_size base ->
        out = zip_with (zip_with over) (convert_RGBA base) overlay).
Proof.
  intros H.
  unfold composite_overlay_onto_base, resize_nearest, alpha_composite.
  pose proof (size_convert_RGBA base) as Sb.
  set (b := convert_RGBA base) in *. rewrite Sb.
  change (image_size (ImgRGBA overlay)) with (size overlay).
  destruct (size_eqb (size overlay) (image_size base)) eqn:E; simpl negb; cbv iota.
  - apply size_eqb_eq in E. simpl res_bind.
    replace (size_eqb (image_size base) (size overlay)) with true
      by (symmetry; apply size_eqb_eq; congruence).
    eexists. split; [reflexivity|]. split; [|split].
    + rewrite size_zip_with by congruence. exact Sb.
    + intros N. contradiction.
    + reflexivity.
  - apply size_eqb_neq in E.
    destruct H as [H | [Hw Hh]]; [contradiction|].
    replace ((fst (image_size base) <? 1)%nat || (snd (image_size base) <? 1)%nat) with false
      by (symmetry; apply orb_false_iff; split; apply Nat.ltb_ge; lia).
    simpl res_bind.
    assert (Sr : size (resize_grid nearest_src transparent overlay (image_size base))
                 = image_size base).
    { destruct (image_size base) as [w h]. apply size_resize_grid. exact Hh. }
    replace (size_eqb (image_size base)
               (size (resize_grid nearest_src transparent overlay (image_size base))))
      with true by (symmetry; apply size_eqb_eq; congruence).
    eexists. split; [reflexivity|]. split; [|split].
    + rewrite size_zip_with by congruence. exact Sb.
    + intros _. split; [reflexivity|]. split; [reflexivity|]. split; [exact Sr|].
      intros y x Hy Hx. destruct (image_size base) as [w h].
      simpl fst in *. simpl snd in *.
      rewrite (pixel_at_resize_grid nearest_src transparent overlay w h y x Hy Hx).
      split; [reflexivity|]. intros p Hp.
      rewrite (pixel_at_nth _ _ _ p transparent Hp). reflexivity.
    + intros Eq. contradiction.
Qed.

Lemma C6_compositor_size_witness :
  exists out,
    composite_overlay_onto_base same_index take_src example_base (ImgRGBA example_overlay)
    = Ok out
    /\ size out = image_size example_base
    /\ (size example_overlay <> image_size example_base ->
        out = zip_with (zip_with take_src) (convert_RGBA example_base)
                (resize_grid same_index transparent example_overlay (image_size example_base))
        /\ resize_nearest same_index (ImgRGBA example_overlay) (image_size example_base)
           = Ok (ImgRGBA (resize_grid same_index transparent example_overlay
                            (image_size example_base)))
        /\ size (resize_grid same_index transparent example_overlay (image_size example_base))
           = image_size example_base
        /\ forall y x, (y < snd (image_size example_base))%nat ->
                       (x < fst (image_size example_base))%nat ->
             pixel_at (resize_grid same_index transparent example_overlay
                         (image_size example_base)) y x
             = Some (nth (same_index (width example_overlay) (fst (image_size example_base)) x)
                         (nth (same_index (height example_overlay)
                                 (snd (image_size example_base)) y) example_overlay [])
                         transparent)
             /\ forall p,
                  pixel_at example_overlay
                           (same_index (height example_overlay) (snd (image_size example_base)) y)
                           (same_index (width example_overlay) (fst (image_size example_base)) x)
                  = Some p ->
                  pixel_at (resize_grid same_index transparent example_overlay
                              (image_size example_base)) y x
                  = Some p)
    /\ (size example_overlay = image_size example_base ->
        out = zip_with (zip_with take_src) (convert_RGBA example_base) example_overlay).
Proof.
  apply (C6_compositor_size same_index take_src example_base example_overlay).
  right. vm_compute. split; lia.
Defined.

(** [C6] The compositor does not return an image for every base and every
    overlay: a grayscale overlay is refused by the blend, and so is an
    overlay of another size when the base has no pixels. *)
Lemma C6_counterexample :
  ~ (exists out,
        composite_overlay_onto_base same_index take_src
          (ImgRGBA [[mk_pixel 10 20 30 255]]) (ImgL [[255]]) = Ok out
        /\ size out = image_size (ImgRGBA [[mk_pixel 10 20 30 255]]))
  /\ ~ (exists out,
          composite_overlay_onto_base same_index take_src
            (ImgRGBA []) (ImgRGBA [[mk_pixel 10 20 30 255]]) = Ok out
          /\ size out = image_size (ImgRGBA [])).
Proof.
  split; intros [out [H _]].
  - rewrite composite_not_rgba in H by (intros g; discriminate). discriminate.
  - rewrite composite_empty_base in H; [discriminate | discriminate | left; reflexivity].
Qed.

(** * Output file names *)

Lemma str_app_assoc (a b c : string) : ((a ++ b) ++ c = a ++ (b ++ c))%string.
Proof. induction a as [|ch a IH]; simpl; [reflexivity | rewrite IH; reflexivity]. Qed.

(** [C7] The number in a default file name is the parameter printed with two
    decimals, then stripped of its trailing zeros, then of a trailing point:
    0.5 gives "0.5", 0.80 gives "0.8", 1.00 gives "1", 0.333 gives "0.33";
    and the default paths are [out/grass_block_top_<t>_<d>.png] and
    [out/grass_block_side_<t>_<d>.png]. *)
Theorem C7_filename_numbers :
  (forall x, fmt_param x = rstrip "."%char (rstrip "0"%char (format_fixed 2 x)))
  /\ format_fixed 2 (F64.of_decimal 5 1) = "0.50"%string
  /\ fmt_param (F64.of_decimal 5 1) = "0.5"%string
  /\ format_fixed 2 (F64.of_decimal 80 2) = "0.80"%string
  /\ fmt_param (F64.of_decimal 80 2) = "0.8"%string
  /\ format_fixed 2 (F64.of_decimal 100 2) = "1.00"%string
  /\ fmt_param (F64.of_decimal 100 2) = "1"%string
  /\ format_fixed 2 (F64.of_decimal 333 3) = "0.33"%string
  /\ fmt_param (F64.of_decimal 333 3) = "0.33"%string
  /\ (forall a, out_top a = None ->
        out_top_path a = ("out/grass_block_top_" ++ fmt_param (temperature a) ++ "_"
                            ++ fmt_param (downfall a) ++ ".png")%string)
  /\ (forall a, out_side a = None ->
        out_side_path a = ("out/grass_block_side_" ++ fmt_param (temperature a) ++ "_"
                             ++ fmt_param (downfall a) ++ ".png")%string).
Proof.
  split; [reflexivity|].
  repeat (split; [vm_compute; reflexivity|]).
  split; intros a H.
  - unfold out_top_path, or_default, path_join, out_dir, suffix. rewrite H.
    simpl. rewrite !str_app_assoc. reflexivity.
  - unfold out_side_path, or_default, path_join, out_dir, suffix. rewrite H.
    simpl. rewrite !str_app_assoc. reflexivity.
Qed.

(** * The driver *)

Lemma check_inputs_present (paths : list string) (w : world) :
  forallb (file_exists w) paths = true -> check_inputs paths w = (Ok tt, w).
Proof.
  induction paths as [|p rest IH]; intros H; [reflexivity|].
  simpl in H. apply andb_true_iff in H. destruct H as [Hp Hr].
  simpl check_inputs. unfold bind at 1. unfold isfile. rewrite Hp.
  unfold bind at 1. unfold ret. apply IH. exact Hr.
Qed.

Lemma check_inputs_missing (paths : list string) (w : world) :
  forallb (file_exists w) paths = false ->
  exists p, In p paths /\ lookup_file p (files w) = None
            /\ check_inputs paths w
               = (Raise (SystemExit 1), with_err ("Error: file not found: " ++ p) w).
Proof.
  induction paths as [|p rest IH]; intros H; [discriminate|].
  simpl in H.
  destruct (file_exists w p) eqn:Hp.
  - simpl in H. destruct (IH H) as [q [Iq [Lq Eq]]].
    exists q. split; [right; exact Iq|]. split; [exact Lq|].
    simpl check_inputs. unfold bind at 1. unfold isfile. rewrite Hp.
    unfold bind at 1. unfold ret. exact Eq.
  - exists p. split; [left; reflexivity|].
    split; [unfold file_exists in Hp; destruct (lookup_file p (files w)); [discriminate | reflexivity]|].
    simpl check_inputs. unfold bind at 1. unfold isfile. rewrite Hp.
    reflexivity.
Qed.

(** [C1] Whenever one of the four input paths does not name a file, or the
    colormap file does not decode to an image of exactly 256x256, the process
    ends with status 1, has printed one line to the error stream (naming the
    first missing path when one is missing), and leaves the files and
    directories as they were: nothing is processed or written before the
    inputs are validated. *)
Theorem C1_validation_exit (nearest_src : nat -> nat -> nat -> nat)
        (over : pixel -> pixel -> pixel) (args : arguments) (w : world) :
  missing_input args w = true \/ colormap_ok args w = false ->
  exists msg, run nearest_src over args w = (1, with_err msg w)
              /\ files (snd (run nearest_src over args w)) = files w
              /\ dirs (snd (run nearest_src over args w)) = dirs w
              /\ stderr (snd (run nearest_src over args w)) = msg :: stderr w
              /\ (missing_input args w = true ->
                  exists p, In p (input_paths args) /\ lookup_file p (files w) = None
                            /\ msg = ("Error: file not found: " ++ p)%string).
Proof.
  intros H.
  assert (G : exists msg, run nearest_src over args w = (1, with_err msg w)
                          /\ (missing_input args w = true ->
                              exists p, In p (input_paths args)
                                        /\ lookup_file p (files w) = None
                                        /\ msg = ("Error: file not found: " ++ p)%string)).
  { unfold run, main, missing_input.
    destruct (forallb (file_exists w) (input_paths args)) eqn:Hall.
    - destruct H as [H|H]; [unfold missing_input in H; rewrite Hall in H; discriminate|].
      unfold bind at 1. rewrite (check_inputs_present _ _ Hall).
      unfold bind at 1. unfold image_open. unfold colormap_ok in H.
      destruct (lookup_file (colormap args) (files w)) as [[img|]|] eqn:L.
      + rewrite H. simpl negb. cbv iota.
        unfold bind at 1. unfold bind at 1. unfold eprint, sys_exit, raise.
        eexists. split; [reflexivity | discriminate].
      + eexists. split; [reflexivity | discriminate].
      + eexists. split; [reflexivity | discriminate].
    - destruct (check_inputs_missing _ _ Hall) as [p [Ip [Lp E]]].
      unfold bind at 1. rewrite E. eexists. split; [reflexivity|].
      intros _. exists p. auto. }
  destruct G as [msg [G M]]. exists msg. rewrite G. repeat split; try reflexivity. exact M.
Qed.

Lemma C1_validation_exit_witness :
  exists msg, run same_index take_src example_args empty_world = (1, with_err msg empty_world)
              /\ files (snd (run same_index take_src example_args empty_world)) = files empty_world
              /\ dirs (snd (run same_index take_src example_args empty_world)) = dirs empty_world
              /\ stderr (snd (run same_index take_src example_args empty_world))
                 = msg :: stderr empty_world
              /\ (missing_input example_args empty_world = true ->
                  exists p, In p (input_paths example_args)
                            /\ lookup_file p (files empty_world) = None
                            /\ msg = ("Error: file not found: " ++ p)%string).
Proof.
  apply (C1_validation_exit same_index take_src example_args empty_world).
  left. reflexivity.
Defined.




(** * The driver: what a run leaves behind *)

Lemma is_256x256_size {A} (g : grid A) : is_256x256 g = true -> size g = (256, 256)%nat.
Proof.
  unfold is_256x256, size, width, height. intros H.
  apply andb_true_iff in H. destruct H as [Hh Hw]. apply Nat.eqb_eq in Hh.
  destruct g as [|row g]; [discriminate|].
  simpl in Hw. apply andb_true_iff in Hw. destruct Hw as [Hr _]. apply Nat.eqb_eq in Hr.
  simpl hd. rewrite Hr, Hh. reflexivity.
Qed.

(** On a 256x256 colormap the sampler returns a color, for floats of the format. *)
Lemma sample_ok (cmap : image) (T D : spec_float) :
  F64.valid T = true -> F64.valid D = true ->
  is_256x256 (convert_RGB cmap) = true ->
  exists c, sample_biome_color cmap T D = Ok c.
Proof.
  intros VT VD Hc.
  destruct (x_raw_range T VT) as [x [Hx Rx]].
  destruct (y_raw_range T D VT VD) as [y [Hy Ry]].
  assert (Cx : 0 <= clamp255 x <= 255) by (unfold clamp255; lia).
  assert (Cy : 0 <= clamp255 y <= 255) by (unfold clamp255; lia).
  destruct (np_getitem_256 (convert_RGB cmap) (clamp255 y) (clamp255 x) Hc Cy Cx) as [c Hg].
  exists c. rewrite sample_unfold, Hx, Hy. exact Hg.
Qed.

Lemma size_tint (img : image) (c : color) :
  size (tint_grayscale_rgba img c) = image_size img.
Proof. rewrite tint_pixelwise, size_grid_map. apply size_convert_RGBA. Qed.

(** The compositor returns an image when the overlay is RGBA and either has
    the base's size or the base has pixels. *)
Lemma composite_ok (ns : nat -> nat -> nat -> nat) (ov : pixel -> pixel -> pixel)
      (base : image) (g : grid pixel) :
  size g = image_size base
  \/ ((0 < fst (image_size base))%nat /\ (0 < snd (image_size base))%nat) ->
  exists out, composite_overlay_onto_base ns ov base (ImgRGBA g) = Ok out
              /\ size out = image_size base.
Proof.
  intros H. unfold composite_overlay_onto_base, resize_nearest, alpha_composite.
  pose proof (size_convert_RGBA base) as Sb.
  set (b := convert_RGBA base) in *. rewrite Sb.
  change (image_size (ImgRGBA g)) with (size g).
  destruct (size_eqb (size g) (image_size base)) eqn:E; simpl negb; cbv iota.
  - apply size_eqb_eq in E. simpl res_bind.
    replace (size_eqb (image_size base) (size g)) with true
      by (symmetry; apply size_eqb_eq; congruence).
    eexists. split; [reflexivity|]. rewrite size_zip_with by congruence. exact Sb.
  - apply size_eqb_neq in E. destruct H as [H | [Hw Hh]]; [contradiction|].
    replace ((fst (image_size base) <? 1)%nat || (snd (image_size base) <? 1)%nat) with false
      by (symmetry; apply orb_false_iff; split; apply Nat.ltb_ge; lia).
    simpl res_bind.
    assert (Sr : size (resize_grid ns transparent g (image_size base)) = image_size base).
    { destruct (image_size base) as [w h]. apply size_resize_grid. exact Hh. }
    replace (size_eqb (image_size base) (size (resize_grid ns transparent g (image_size base))))
      with true by (symmetry; apply size_eqb_eq; congruence).
    eexists. split; [reflexivity|]. rewrite size_zip_with by congruence. exact Sb.
Qed.

Lemma makedirs_ok (d : string) (w : world) :
  file_exists w d = false -> makedirs d w = (Ok tt, with_dir d w).
Proof.
  unfold makedirs, file_exists, with_dir, dir_exists. intros H.
  destruct (lookup_file d (files w)); [discriminate | reflexivity].
Qed.

Lemma makedirs_file (d : string) (w : world) :
  file_exists w d = true -> makedirs d w = (Raise FileExistsError, w).
Proof.
  unfold makedirs, file_exists. intros H.
  destruct (lookup_file d (files w)); [reflexivity | discriminate].
Qed.

Lemma image_save_ok (path : string) (g : grid pixel) (w : world) :
  create_error path w = None ->
  image_save path g w = (Ok tt, with_file path (FImage (ImgRGBA g)) w).
Proof. unfold image_save. intros ->. reflexivity. Qed.

Lemma image_save_error (path : string) (g : grid pixel) (w : world) (e : exn) :
  create_error path w = Some e -> image_save path g w = (Raise e, w).
Proof. unfold image_save. intros ->. reflexivity. Qed.

(** Whether a file can be created depends on the directories only. *)
Lemma create_error_None_dirs (path : string) (w w' : world) :
  dirs w' = dirs w -> create_error path w = None -> create_error path w' = None.
Proof.
  unfold create_error, dir_exists. intros ->.
  destruct (String.eqb path EmptyString); [discriminate|].
  destruct (existsb (String.eqb path) (dirs w)); [discriminate|].
  destruct (parent_dir path) as [d|]; [|reflexivity].
  destruct (String.eqb d EmptyString || existsb (String.eqb d) (dirs w)); [reflexivity|].
  destruct (file_exists w d); discriminate.
Qed.

Lemma image_open_image (path : string) (img : image) (w : world) :
  lookup_file path (files w) = Some (FImage img) -> image_open path w = (Ok img, w).
Proof. unfold image_open. intros ->. reflexivity. Qed.

Lemma lookup_file_other (path p : string) (f : file) (fs : list (string * file)) :
  p <> path -> lookup_file path ((p, f) :: fs) = lookup_file path fs.
Proof.
  intros H. simpl. apply String.eqb_neq in H. rewrite H. reflexivity.
Qed.

Section DriverFacts.
Variable nearest_src : nat -> nat -> nat -> nat.
Variable over : pixel -> pixel -> pixel.

(** After a successful validation [main] is the rest of its body, run with
    the sampled color. *)
Lemma main_validated (a : arguments) (w : world) (cmap_img : image) (c : color) :
  forallb (file_exists w) (input_paths a) = true ->
  lookup_file (colormap a) (files w) = Some (FImage cmap_img) ->
  size (convert_RGB cmap_img) = (256, 256)%nat ->
  sample_biome_color cmap_img (temperature a) (downfall a) = Ok c ->
  main nearest_src over a w
  = (makedirs out_dir ;;;
     top_img <- image_open (top a) ;;
     image_save (out_top_path a) (tint_grayscale_rgba top_img c) ;;;
     side_overlay_img <- image_open (side_overlay a) ;;
     side_base_img <- image_open (side_base a) ;;
     side_coloured <- lift (composite_overlay_onto_base nearest_src over side_base_img
                              (ImgRGBA (tint_grayscale_rgba side_overlay_img c))) ;;
     image_save (out_side_path a) side_coloured ;;;
     eprint ("Biome RGB: " ++ str_rgb c ++ " (from temp="
               ++ format_fixed 3 (clamp01 (temperature a)) ++ ", downfall="
               ++ format_fixed 3 (clamp01 (downfall a)) ++ ")")%string ;;;
     eprint ("Wrote top  -> " ++ out_top_path a)%string ;;;
     eprint ("Wrote side -> " ++ out_side_path a)%string) w.
Proof.
  intros Hall Lc Sz Hs. unfold main.
  unfold bind at 1. rewrite (check_inputs_present _ _ Hall).
  unfold bind at 1. rewrite (image_open_image _ _ _ Lc).
  rewrite Sz. simpl negb. cbv iota.
  unfold bind at 1. unfold ret at 1.
  unfold bind at 1. unfold lift at 1.
  assert (E : sample_biome_color (ImgRGB (convert_RGB cmap_img)) (temperature a) (downfall a)
              = Ok c).
  { rewrite <- Hs. rewrite !sample_unfold. reflexivity. }
  rewrite E. reflexivity.
Qed.

End DriverFacts.

Lemma inputs_present (a : arguments) (w : world) (f1 f2 f3 f4 : file) :
  lookup_file (top a) (files w) = Some f1 ->
  lookup_file (side_overlay a) (files w) = Some f2 ->
  lookup_file (side_base a) (files w) = Some f3 ->
  lookup_file (colormap a) (files w) = Some f4 ->
  forallb (file_exists w) (input_paths a) = true.
Proof.
  intros H1 H2 H3 H4. unfold input_paths, file_exists. simpl.
  rewrite H1, H2, H3, H4. reflexivity.
Qed.

Lemma check_inputs_first (pre rest : list string) (p : string) (w : world) :
  forallb (file_exists w) pre = true -> file_exists w p = false ->
  check_inputs (pre ++ p :: rest) w
  = (Raise (SystemExit 1), with_err ("Error: file not found: " ++ p) w).
Proof.
  induction pre as [|q pre IH]; intros Hpre Hp.
  - simpl. unfold bind at 1. unfold isfile. rewrite Hp. reflexivity.
  - simpl in Hpre. apply andb_true_iff in Hpre. destruct Hpre as [Hq Hpre].
    simpl. unfold bind at 1. unfold isfile. rewrite Hq.
    unfold bind at 1. unfold ret. apply IH; assumption.
Qed.

Lemma create_error_kind (path : string) (w : world) (e : exn) :
  create_error path w = Some e ->
  e = FileNotFoundError \/ e = IsADirectoryError \/ e = NotADirectoryError.
Proof.
  unfold create_error.
  destruct (String.eqb path EmptyString); [intros H; injection H as <-; auto|].
  destruct (dir_exists w path); [intros H; injection H as <-; auto|].
  destruct (parent_dir path) as [d|]; [|discriminate].
  destruct (String.eqb d EmptyString || dir_exists w d); [discriminate|].
  destruct (file_exists w d); intros H; injection H as <-; auto.
Qed.

Section DriverRuns.
Variable nearest_src : nat -> nat -> nat -> nat.
Variable over : pixel -> pixel -> pixel.

(** [X10] When the four inputs are images, the colormap is 256x256,
    the parameters are floats of the format, no file is named [out], both
    output files can be created once [out] exists, the top output does not
    overwrite a side input, and the overlay has the base's size or the base
    has pixels, the run ends with status 0 and leaves exactly this: the
    directory [out], the tinted top and the tinted overlay composited on the
    base under the two output paths, and three lines on the error stream. *)
Theorem run_success (a : arguments) (w : world) (top_img ov_img base_img cmap_img : image) :
  lookup_file (top a) (files w) = Some (FImage top_img) ->
  lookup_file (side_overlay a) (files w) = Some (FImage ov_img) ->
  lookup_file (side_base a) (files w) = Some (FImage base_img) ->
  lookup_file (colormap a) (files w) = Some (FImage cmap_img) ->
  is_256x256 (convert_RGB cmap_img) = true ->
  F64.valid (temperature a) = true -> F64.valid (downfall a) = true ->
  file_exists w out_dir = false ->
  create_error (out_top_path a) (with_dir out_dir w) = None ->
  create_error (out_side_path a) (with_dir out_dir w) = None ->
  out_top_path a <> side_overlay a -> out_top_path a <> side_base a ->
  image_size ov_img = image_size base_img
  \/ ((0 < fst (image_size base_img))%nat /\ (0 < snd (image_size base_img))%nat) ->
  exists c side,
    sample_biome_color cmap_img (temperature a) (downfall a) = Ok c
    /\ composite_overlay_onto_base nearest_src over base_img
         (ImgRGBA (tint_grayscale_rgba ov_img c)) = Ok side
    /\ size side = image_size base_img
    /\ run nearest_src over a w
       = (0, mk_world ((out_side_path a, FImage (ImgRGBA side))
                         :: (out_top_path a, FImage (ImgRGBA (tint_grayscale_rgba top_img c)))
                         :: files w)
                      (dirs (with_dir out_dir w))
                      (report a c ++ stderr w)).
Proof.
  intros L1 L2 L3 L4 Hc VT VD Hout Ct Cs N2 N3 Hsz.
  destruct (sample_ok cmap_img _ _ VT VD Hc) as [c Hs].
  destruct (composite_ok nearest_src over base_img (tint_grayscale_rgba ov_img c)) as [side [Hk Ss]].
  { rewrite size_tint. exact Hsz. }
  exists c, side. split; [exact Hs|]. split; [exact Hk|]. split; [exact Ss|].
  unfold run.
  rewrite (main_validated nearest_src over a w cmap_img c
             (inputs_present a w _ _ _ _ L1 L2 L3 L4) L4 (is_256x256_size _ Hc) Hs).
  unfold bind at 1. rewrite (makedirs_ok _ _ Hout).
  unfold bind at 1. rewrite (image_open_image (top a) top_img) by exact L1.
  unfold bind at 1. rewrite (image_save_ok _ _ _ Ct).
  unfold bind at 1.
  rewrite (image_open_image (side_overlay a) ov_img)
    by (unfold with_file; simpl files; rewrite lookup_file_other by exact N2; exact L2).
  unfold bind at 1.
  rewrite (image_open_image (side_base a) base_img)
    by (unfold with_file; simpl files; rewrite lookup_file_other by exact N3; exact L3).
  unfold bind at 1. unfold lift at 1. rewrite Hk.
  unfold bind at 1.
  rewrite (image_save_ok (out_side_path a) side)
    by (apply (create_error_None_dirs _ (with_dir out_dir w)); [reflexivity | exact Cs]).
  unfold bind, eprint, with_err, with_file, report. simpl. reflexivity.
Qed.

(** [X11] When everything up to the top texture succeeds but
    the side overlay or the side base is a file that does not decode as an
    image, the run ends with status 1 after the top output has been written:
    the directory [out] and the tinted top stay behind, there is no side
    output and no report. *)
Theorem run_side_failure (a : arguments) (w : world) (top_img cmap_img : image)
        (f_ov f_base : file) :
  lookup_file (top a) (files w) = Some (FImage top_img) ->
  lookup_file (side_overlay a) (files w) = Some f_ov ->
  lookup_file (side_base a) (files w) = Some f_base ->
  lookup_file (colormap a) (files w) = Some (FImage cmap_img) ->
  is_256x256 (convert_RGB cmap_img) = true ->
  F64.valid (temperature a) = true -> F64.valid (downfall a) = true ->
  file_exists w out_dir = false ->
  create_error (out_top_path a) (with_dir out_dir w) = None ->
  out_top_path a <> side_overlay a -> out_top_path a <> side_base a ->
  f_ov = FOther \/ f_base = FOther ->
  exists c,
    sample_biome_color cmap_img (temperature a) (downfall a) = Ok c
    /\ run nearest_src over a w
       = (1, with_err "Traceback (most recent call last):"
               (with_file (out_top_path a) (FImage (ImgRGBA (tint_grayscale_rgba top_img c)))
                  (with_dir out_dir w))).
Proof.
  intros L1 L2 L3 L4 Hc VT VD Hout Ct N2 N3 Hbad.
  destruct (sample_ok cmap_img _ _ VT VD Hc) as [c Hs].
  exists c. split; [exact Hs|].
  unfold run.
  rewrite (main_validated nearest_src over a w cmap_img c
             (inputs_present a w _ _ _ _ L1 L2 L3 L4) L4 (is_256x256_size _ Hc) Hs).
  unfold bind at 1. rewrite (makedirs_ok _ _ Hout).
  unfold bind at 1. rewrite (image_open_image (top a) top_img) by exact L1.
  unfold bind at 1. rewrite (image_save_ok _ _ _ Ct).
  unfold bind at 1. unfold image_open at 1.
  unfold with_file at 1. simpl files. rewrite lookup_file_other by exact N2. rewrite L2.
  destruct f_ov as [ov_img|]; [|reflexivity].
  unfold bind at 1. unfold image_open at 1.
  unfold with_file at 1. simpl files. rewrite lookup_file_other by exact N3. rewrite L3.
  destruct Hbad as [Hbad | Hbad]; [discriminate|]. subst f_base. reflexivity.
Qed.

(** [X12] When the inputs are valid but [out] exists as a
    regular file, the run ends with status 1 on [FileExistsError] and
    writes nothing, also when both output paths were given explicitly. *)
Theorem run_out_is_file (a : arguments) (w : world) (cmap_img : image) :
  forallb (file_exists w) (input_paths a) = true ->
  lookup_file (colormap a) (files w) = Some (FImage cmap_img) ->
  is_256x256 (convert_RGB cmap_img) = true ->
  F64.valid (temperature a) = true -> F64.valid (downfall a) = true ->
  file_exists w out_dir = true ->
  main nearest_src over a w = (Raise FileExistsError, w)
  /\ run nearest_src over a w = (1, with_err "Traceback (most recent call last):" w).
Proof.
  intros Hall L4 Hc VT VD Hout.
  destruct (sample_ok cmap_img _ _ VT VD Hc) as [c Hs].
  assert (E : main nearest_src over a w = (Raise FileExistsError, w)).
  { rewrite (main_validated nearest_src over a w cmap_img c Hall L4 (is_256x256_size _ Hc) Hs).
    unfold bind at 1. rewrite (makedirs_file _ _ Hout). reflexivity. }
  split; [exact E|]. unfold run. rewrite E. reflexivity.
Qed.

(** [X13] When the top output cannot be created (its directory
    does not exist, for one), the run ends with status 1 on that error: no
    file is written and no line is reported, but the directory [out] has
    been created. *)
Theorem run_save_failure (a : arguments) (w : world) (top_img cmap_img : image) (e : exn) :
  forallb (file_exists w) (input_paths a) = true ->
  lookup_file (top a) (files w) = Some (FImage top_img) ->
  lookup_file (colormap a) (files w) = Some (FImage cmap_img) ->
  is_256x256 (convert_RGB cmap_img) = true ->
  F64.valid (temperature a) = true -> F64.valid (downfall a) = true ->
  file_exists w out_dir = false ->
  create_error (out_top_path a) (with_dir out_dir w) = Some e ->
  main nearest_src over a w = (Raise e, with_dir out_dir w)
  /\ run nearest_src over a w
     = (1, with_err "Traceback (most recent call last):" (with_dir out_dir w)).
Proof.
  intros Hall L1 L4 Hc VT VD Hout Ce.
  destruct (sample_ok cmap_img _ _ VT VD Hc) as [c Hs].
  assert (E : main nearest_src over a w = (Raise e, with_dir out_dir w)).
  { rewrite (main_validated nearest_src over a w cmap_img c Hall L4 (is_256x256_size _ Hc) Hs).
    unfold bind at 1. rewrite (makedirs_ok _ _ Hout).
    unfold bind at 1. rewrite (image_open_image (top a) top_img) by exact L1.
    unfold bind at 1. rewrite (image_save_error _ _ _ _ Ce). reflexivity. }
  split; [exact E|]. unfold run. rewrite E.
  destruct e; try reflexivity.
  exfalso. apply create_error_kind in Ce. destruct Ce as [C | [C | C]]; discriminate.
Qed.

(** [X14] The inputs are checked in the order top, side
    overlay, side base, colormap, and the first one that is missing is the
    one reported; the run ends there with status 1 and the world unchanged
    but for that line. *)
Theorem run_first_missing (a : arguments) (w : world) (pre rest : list string) (p : string) :
  input_paths a = pre ++ p :: rest ->
  forallb (file_exists w) pre = true -> file_exists w p = false ->
  run nearest_src over a w = (1, with_err ("Error: file not found: " ++ p) w).
Proof.
  intros Hp Hpre Hmiss. unfold run, main. unfold bind at 1.
  rewrite Hp, (check_inputs_first pre rest p w Hpre Hmiss). reflexivity.
Qed.

(** [X15] When the inputs exist and the colormap decodes to an
    image that is not 256x256, the line printed names the size found, as
    [(width, height)], and the run ends with status 1. *)
Theorem run_colormap_size (a : arguments) (w : world) (cmap_img : image) :
  forallb (file_exists w) (input_paths a) = true ->
  lookup_file (colormap a) (files w) = Some (FImage cmap_img) ->
  size (convert_RGB cmap_img) <> (256, 256)%nat ->
  run nearest_src over a w
  = (1, with_err ("Error: colormap must be 256x256, got ("
                    ++ str_int (Z.of_nat (width (convert_RGB cmap_img))) ++ ", "
                    ++ str_int (Z.of_nat (height (convert_RGB cmap_img))) ++ ")") w).
Proof.
  intros Hall L4 Hsz. unfold run, main.
  unfold bind at 1. rewrite (check_inputs_present _ _ Hall).
  unfold bind at 1. rewrite (image_open_image _ _ _ L4).
  apply size_eqb_neq in Hsz. rewrite Hsz. simpl negb. cbv iota.
  unfold bind at 1. unfold bind at 1. unfold eprint, sys_exit, raise, str_size.
  simpl fst. simpl snd. reflexivity.
Qed.

End DriverRuns.

Lemma run_success_witness :
  exists c side,
    sample_biome_color (flat_colormap (120, 180, 90)) (temperature example_args)
      (downfall example_args) = Ok c
    /\ composite_overlay_onto_base same_index take_src example_base
         (ImgRGBA (tint_grayscale_rgba (ImgLA [[(255, 255); (200, 0)]]) c)) = Ok side
    /\ size side = image_size example_base
    /\ run same_index take_src example_args example_world
       = (0, mk_world ((out_side_path example_args, FImage (ImgRGBA side))
                         :: (out_top_path example_args,
                             FImage (ImgRGBA (tint_grayscale_rgba
                                                (ImgL [[255; 0]; [128; 64]]) c)))
                         :: files example_world)
                      (dirs (with_dir out_dir example_world))
                      (report example_args c ++ stderr example_world)).
Proof.
  apply (run_success same_index take_src example_args example_world
           (ImgL [[255; 0]; [128; 64]]) (ImgLA [[(255, 255); (200, 0)]]) example_base
           (flat_colormap (120, 180, 90)));
    try (vm_compute; reflexivity); try (vm_compute; discriminate).
  right. vm_compute. split; lia.
Defined.

Lemma run_side_failure_witness :
  exists c,
    sample_biome_color (flat_colormap (120, 180, 90)) (temperature example_args)
      (downfall example_args) = Ok c
    /\ run same_index take_src example_args broken_side_world
       = (1, with_err "Traceback (most recent call last):"
               (with_file (out_top_path example_args)
                  (FImage (ImgRGBA (tint_grayscale_rgba (ImgL [[255; 0]; [128; 64]]) c)))
                  (with_dir out_dir broken_side_world))).
Proof.
  apply (run_side_failure same_index take_src example_args broken_side_world
           (ImgL [[255; 0]; [128; 64]]) (flat_colormap (120, 180, 90))
           (FImage (ImgLA [[(255, 255); (200, 0)]])) FOther);
    try (vm_compute; reflexivity); try (vm_compute; discriminate).
  right. reflexivity.
Defined.

Lemma run_out_is_file_witness :
  main same_index take_src explicit_args out_file_world
  = (Raise FileExistsError, out_file_world)
  /\ run same_index take_src explicit_args out_file_world
     = (1, with_err "Traceback (most recent call last):" out_file_world).
Proof.
  apply (run_out_is_file same_index take_src explicit_args out_file_world
           (flat_colormap (120, 180, 90)));
    vm_compute; reflexivity.
Defined.

Lemma run_save_failure_witness :
  main same_index take_src explicit_args example_world
  = (Raise FileNotFoundError, with_dir out_dir example_world)
  /\ run same_index take_src explicit_args example_world
     = (1, with_err "Traceback (most recent call last):" (with_dir out_dir example_world)).
Proof.
  apply (run_save_failure same_index take_src explicit_args example_world
           (ImgL [[255; 0]; [128; 64]]) (flat_colormap (120, 180, 90)) FileNotFoundError);
    vm_compute; reflexivity.
Defined.

Lemma run_first_missing_witness :
  run same_index take_src example_args top_only_world
  = (1, with_err ("Error: file not found: " ++ "grass_block_side_overlay_512.png")
          top_only_world).
Proof.
  apply (run_first_missing same_index take_src example_args top_only_world
           ["grass_block_top_512.png"%string]
           ["grass_block_side_512.png"%string; "grass_colourmap.png"%string]
           "grass_block_side_overlay_512.png");
    reflexivity.
Defined.

Lemma run_colormap_size_witness :
  run same_index take_src example_args small_colormap_world
  = (1, with_err ("Error: colormap must be 256x256, got ("
                    ++ str_int (Z.of_nat (width (convert_RGB (ImgL [[1; 2; 3]; [4; 5; 6]]))))
                    ++ ", "
                    ++ str_int (Z.of_nat (height (convert_RGB (ImgL [[1; 2; 3]; [4; 5; 6]]))))
                    ++ ")") small_colormap_world).
Proof.
  apply (run_colormap_size same_index take_src example_args small_colormap_world
           (ImgL [[1; 2; 3]; [4; 5; 6]]));
    [reflexivity | reflexivity | vm_compute; discriminate].
Defined.
